(** * claude-canvas: the document canvas' markdown renderer and text selection

    A shallow embedding of [markdown-renderer.tsx] (block parser, inline
    parser, word wrap, overlays, position map) and of
    [use-text-selection.ts] (coordinate resolution and the selection
    controller), followed by the properties proved about them.

    JavaScript strings are sequences of UTF-16 code units; a code unit is
    an [N] and a string a [list N].  JavaScript numbers that hold offsets,
    lengths, rows and columns are integers, modelled as [Z]. *)

From Stdlib Require Import ZArith NArith Lia Bool String Ascii Sorting.Sorted.
From Stdlib Require Import Numbers.DecimalString.
From stdpp Require Import base list.

#[local] Open Scope Z_scope.

(* ===================================================================== *)
(** ** Outcomes of a JavaScript computation *)
(* ===================================================================== *)

Inductive error := RangeError | TypeError.

(** [Ret v]: the call returns [v]; [Throw e]: it raises [e]. *)
Inductive result (A : Type) : Type :=
| Ret (a : A)
| Throw (e : error).
Arguments Ret {A} a.
Arguments Throw {A} e.

Definition bind {A B : Type} (m : result A) (k : A -> result B) : result B :=
  match m with
  | Ret a => k a
  | Throw e => Throw e
  end.

Notation "'let*' x ':=' m 'in' k" := (bind m (fun x => k))
  (at level 10, x name, m at level 100, k at level 200).
Notation "'let*' ' p ':=' m 'in' k" := (bind m (fun p => k))
  (at level 10, p strict pattern, m at level 100, k at level 200).

(* ===================================================================== *)
(** ** Strings *)
(* ===================================================================== *)

Definition char := N.
Abbreviation str := (list char).

(** An ASCII literal as a JavaScript string. *)
Definition lit (s : string) : str := map N_of_ascii (list_ascii_of_string s).

(** [s.length] *)
Definition len (s : str) : Z := Z.of_nat (length s).

Definition c_nl : char := 10%N.         (* newline *)
Definition c_space : char := 32%N.      (* space *)
Definition c_hash : char := 35%N.       (* hash *)
Definition c_lparen : char := 40%N.     (* opening parenthesis *)
Definition c_rparen : char := 41%N.     (* closing parenthesis *)
Definition c_star : char := 42%N.       (* asterisk *)
Definition c_plus : char := 43%N.       (* plus *)
Definition c_dash : char := 45%N.       (* dash *)
Definition c_dot : char := 46%N.        (* dot *)
Definition c_gt : char := 62%N.         (* greater-than *)
Definition c_lbracket : char := 91%N.   (* opening bracket *)
Definition c_rbracket : char := 93%N.   (* closing bracket *)
Definition c_underscore : char := 95%N. (* underscore *)
Definition c_backtick : char := 96%N.   (* backtick *)
Definition c_hline : char := 9472%N.    (* U+2500, the rule character *)
Definition c_bullet : char := 8226%N.   (* U+2022, the list bullet *)
Definition c_vbar : char := 9474%N.     (* U+2502, the quote bar *)

Definition fence : str := [c_backtick; c_backtick; c_backtick].

(** The class [\s] of a regular expression, which is also what [trim],
    [trimStart] and [trimEnd] strip: WhiteSpace and LineTerminator. *)
Definition is_ws (c : char) : bool :=
  existsb (N.eqb c)
    [9; 10; 11; 12; 13; 32; 160; 5760; 8232; 8233; 8239; 8287; 12288; 65279]%N
  || ((8192 <=? c)%N && (c <=? 8202)%N).

(** What [.] does not match (no [s] flag). *)
Definition is_line_terminator (c : char) : bool :=
  existsb (N.eqb c) [10; 13; 8232; 8233]%N.

(** The class [\d]. *)
Definition is_digit (c : char) : bool := ((48 <=? c)%N && (c <=? 57)%N).

(** An index argument of [slice], made relative to a string of length [n]. *)
Definition rel_index (n i : Z) : Z :=
  if i <? 0 then Z.max (n + i) 0 else Z.min i n.

(** [s.slice(a, b)] *)
Definition slice (s : str) (a b : Z) : str :=
  let from := rel_index (len s) a in
  let to := rel_index (len s) b in
  take (Z.to_nat (to - from)) (drop (Z.to_nat from) s).

(** [s.slice(a)] *)
Definition slice_from (s : str) (a : Z) : str := slice s a (len s).

(** Index of the last [c] in [s], counting from [i]; [acc] when there is none. *)
Fixpoint last_index (c : char) (s : str) (i acc : Z) : Z :=
  match s with
  | [] => acc
  | x :: s' => last_index c s' (i + 1) (if N.eqb x c then i else acc)
  end.

(** [s.lastIndexOf(c, pos)] for a one-character search string: the search
    starts at [pos] clamped to [0 .. s.length - 1] and goes backwards. *)
Definition lastIndexOf (s : str) (c : char) (pos : Z) : Z :=
  if len s =? 0 then -1
  else
    let start := Z.min (Z.max pos 0) (len s - 1) in
    last_index c (take (Z.to_nat (start + 1)) s) 0 (-1).

(** [s.trimStart()] *)
Fixpoint trimStart (s : str) : str :=
  match s with
  | [] => []
  | c :: s' => if is_ws c then trimStart s' else s
  end.

(** [s.trimEnd()] *)
Fixpoint trimEnd (s : str) : str :=
  match s with
  | [] => []
  | c :: s' =>
      match trimEnd s' with
      | [] => if is_ws c then [] else [c]
      | t => c :: t
      end
  end.

(** [s.trim()] *)
Definition trim (s : str) : str := trimEnd (trimStart s).

(** [s.startsWith(p)], with the prefix first. *)
Fixpoint startsWith (p s : str) : bool :=
  match p, s with
  | [], _ => true
  | _ :: _, [] => false
  | a :: p', b :: s' => N.eqb a b && startsWith p' s'
  end.

(** [s.split] at newlines. *)
Fixpoint split_nl (s : str) : list str :=
  match s with
  | [] => [[]]
  | c :: s' =>
      if N.eqb c c_nl then [] :: split_nl s'
      else match split_nl s' with
           | l :: ls => (c :: l) :: ls
           | [] => [[c]]
           end
  end.

(** [ls.join(sep)] *)
Fixpoint join (sep : str) (ls : list str) : str :=
  match ls with
  | [] => []
  | [l] => l
  | l :: ls' => l ++ sep ++ join sep ls'
  end.

(** [c.repeat(n)] for a one-character string: a negative count raises. *)
Definition repeat_char (c : char) (n : Z) : result str :=
  if n <? 0 then Throw RangeError else Ret (replicate (Z.to_nat n) c).

(** Template-literal rendering of a non-negative integer. *)
Definition decimal (n : Z) : str :=
  lit (NilZero.string_of_uint (N.to_uint (Z.to_N n))).

(** [takeWhile]/[dropWhile] in one pass: the inner [while] loops that
    collect the lines of a block. *)
Fixpoint span {A : Type} (p : A -> bool) (l : list A) : list A * list A :=
  match l with
  | [] => ([], [])
  | x :: l' =>
      if p x then let '(a, b) := span p l' in (x :: a, b) else ([], l)
  end.

(** Length of the maximal prefix of [s] whose characters satisfy [p]. *)
Fixpoint run_length (p : char -> bool) (s : str) : nat :=
  match s with
  | [] => O
  | c :: s' => if p c then S (run_length p s') else O
  end.

(** [s[i]] *)
Definition charAt (s : str) (i : Z) : option char :=
  if i <? 0 then None else s !! Z.to_nat i.

(** [xs.sort((a, b) => key(a) - key(b))]: a stable sort on an integer key. *)
Fixpoint insert_by {A : Type} (key : A -> Z) (x : A) (l : list A) : list A :=
  match l with
  | [] => [x]
  | y :: l' => if key x <=? key y then x :: l else y :: insert_by key x l'
  end.

Definition sort_by {A : Type} (key : A -> Z) (l : list A) : list A :=
  foldr (insert_by key) [] l.

(* ===================================================================== *)
(** ** Data model ([types.ts]) *)
(* ===================================================================== *)

Inductive ElementType :=
| t_h1 | t_h2 | t_h3 | t_h4 | t_bold | t_italic | t_code | t_codeBlock
| t_link | t_listItem | t_blockquote | t_body.

(** [SegmentStyle]: every field is optional. *)
Record SegmentStyle := mkStyle {
  st_bold : option bool;
  st_italic : option bool;
  st_underline : option bool;
  st_strikethrough : option bool;
  st_color : option string;
  st_backgroundColor : option string;
  st_dimColor : option bool;
  st_type : option ElementType
}.

(** [{}] *)
Definition no_style : SegmentStyle :=
  mkStyle None None None None None None None None.

Definition override {A : Type} (a b : option A) : option A :=
  match b with Some _ => b | None => a end.

(** [{ ...a, ...b }] *)
Definition spread (a b : SegmentStyle) : SegmentStyle :=
  mkStyle (override (st_bold a) (st_bold b))
          (override (st_italic a) (st_italic b))
          (override (st_underline a) (st_underline b))
          (override (st_strikethrough a) (st_strikethrough b))
          (override (st_color a) (st_color b))
          (override (st_backgroundColor a) (st_backgroundColor b))
          (override (st_dimColor a) (st_dimColor b))
          (override (st_type a) (st_type b)).

Record LineSegment := mkSegment {
  seg_text : str;
  seg_sourceOffset : Z;
  seg_sourceLength : Z;
  seg_style : SegmentStyle
}.

Record RenderedLine := mkLine {
  line_lineNumber : Z;
  line_sourceOffset : Z;
  line_sourceLength : Z;
  line_segments : list LineSegment;
  line_indent : Z;
  line_isBlank : bool
}.

Record PositionMapping := mkPosition {
  pm_terminalRow : Z;
  pm_terminalCol : Z;
  pm_sourceOffset : Z
}.

Inductive DiffType := d_add | d_delete.

Record DocumentDiff := mkDiff {
  diff_startOffset : Z;
  diff_endOffset : Z;
  diff_type : DiffType
}.

Record SelectionState := mkSelection {
  sel_isSelecting : bool;
  sel_anchorOffset : option Z;
  sel_focusOffset : option Z;
  sel_startOffset : option Z;
  sel_endOffset : option Z
}.

Record DocumentSelection := mkDocumentSelection {
  ds_selectedText : str;
  ds_startOffset : Z;
  ds_endOffset : Z;
  ds_startLine : Z;
  ds_endLine : Z;
  ds_startColumn : Z;
  ds_endColumn : Z
}.

(** [MARKDOWN_STYLES] *)
Module MARKDOWN_STYLES.
Definition h1 := mkStyle (Some true) None None None (Some "white"%string) None None (Some t_h1).
Definition h2 := mkStyle (Some true) None None None (Some "white"%string) None None (Some t_h2).
Definition h3 := mkStyle (Some true) None None None (Some "cyan"%string) None None (Some t_h3).
Definition h4 := mkStyle None None None None (Some "cyan"%string) None None (Some t_h4).
Definition bold := mkStyle (Some true) None None None None None None (Some t_bold).
Definition italic := mkStyle None (Some true) None None None None None (Some t_italic).
Definition code := mkStyle None None None None (Some "yellow"%string) None None (Some t_code).
Definition codeBlock := mkStyle None None None None (Some "gray"%string) None None (Some t_codeBlock).
Definition link := mkStyle None None (Some true) None (Some "blue"%string) None None (Some t_link).
Definition listItem := mkStyle None None None None None None None (Some t_listItem).
Definition blockquote := mkStyle None None None None (Some "gray"%string) None (Some true) (Some t_blockquote).
Definition body := mkStyle None None None None None None None (Some t_body).
End MARKDOWN_STYLES.

(** [DIFF_STYLES[type]] *)
Definition DIFF_STYLES (t : DiffType) : SegmentStyle :=
  match t with
  | d_add => mkStyle None None None None None (Some "green"%string) None None
  | d_delete => mkStyle None None None (Some true) None (Some "red"%string) None None
  end.

Definition SELECTION_STYLE : SegmentStyle :=
  mkStyle None None None None None (Some "blue"%string) None None.

(* ===================================================================== *)
(** ** Block parser *)
(* ===================================================================== *)

Inductive BlockType :=
| heading | paragraph | codeBlock | list_block | blockquote | hr | blank.

Record Block := mkBlock {
  blk_type : BlockType;
  blk_source : str;
  blk_sourceOffset : Z;
  blk_level : option Z;
  blk_ordered : option bool
}.

Definition is_hash (c : char) : bool := N.eqb c c_hash.

(** [[-*_]] *)
Definition is_rule_char (c : char) : bool :=
  N.eqb c c_dash || N.eqb c c_star || N.eqb c c_underscore.

(** [[-*+]] *)
Definition is_bullet_char (c : char) : bool :=
  N.eqb c c_dash || N.eqb c c_star || N.eqb c c_plus.

(** [line.trim()] is the empty string. *)
Definition is_blank (line : str) : bool :=
  match trim line with [] => true | _ => false end.

(** The heading pattern: one to four hashes (group 1), then white space,
    then any characters up to the end of the line.  The result is the
    length of group 1 on a match.  The hashes and the white space are
    matched greedily and nothing after them can take their place; the
    trailing any-character group must reach the end of the line, which it
    does unless a line terminator other than the newline stands in the way. *)
Definition headingMatch (line : str) : option Z :=
  let k := run_length is_hash line in
  let rest := drop k line in
  let w := run_length is_ws rest in
  if (1 <=? k)%nat && (k <=? 4)%nat && (1 <=? w)%nat
     && forallb (fun c => negb (is_line_terminator c)) (drop w rest)
  then Some (Z.of_nat k) else None.

(** The rule pattern: three or more of [-], [*], [_], then only white space. *)
Definition is_hr (line : str) : bool :=
  let k := run_length is_rule_char line in
  (3 <=? k)%nat && forallb is_ws (drop k line).

(** Three or more of [-], [*], [_] at the start. *)
Definition starts_rule (line : str) : bool :=
  (3 <=? run_length is_rule_char line)%nat.

(** The unordered item pattern: one of [-], [*], [+], then a white space. *)
Definition starts_unordered (line : str) : bool :=
  match line with
  | c1 :: c2 :: _ => is_bullet_char c1 && is_ws c2
  | _ => false
  end.

(** The ordered item pattern: digits, a dot, a white space. *)
Definition starts_ordered (line : str) : bool :=
  let k := run_length is_digit line in
  (1 <=? k)%nat &&
  match drop k line with
  | c1 :: c2 :: _ => N.eqb c1 c_dot && is_ws c2
  | _ => false
  end.

(** White space at the start (the continuation line of a list). *)
Definition starts_ws (line : str) : bool :=
  match line with c :: _ => is_ws c | [] => false end.

(** A dash and a white space at the start. *)
Definition starts_dash_ws (line : str) : bool :=
  match line with
  | c1 :: c2 :: _ => N.eqb c1 c_dash && is_ws c2
  | _ => false
  end.

(** One to four hashes and a white space at the start. *)
Definition starts_heading (line : str) : bool :=
  let k := run_length is_hash line in
  (1 <=? k)%nat && (k <=? 4)%nat &&
  match drop k line with c :: _ => is_ws c | [] => false end.

(** The starters that end a block quote: a hash, a rule, a fence, a dash
    item, an ordered item. *)
Definition quote_breaker (line : str) : bool :=
  (1 <=? run_length is_hash line)%nat
  || starts_rule line || startsWith fence line
  || starts_dash_ws line || starts_ordered line.

(** The starters that end a paragraph: a heading, a rule, a fence, a
    quote, an unordered item, an ordered item. *)
Definition paragraph_breaker (line : str) : bool :=
  starts_heading line || starts_rule line || startsWith fence line
  || startsWith [c_gt] line || starts_unordered line || starts_ordered line.

(** The condition of the block quote's [while] loop. *)
Definition quote_continues (line : str) : bool :=
  startsWith [c_gt] line || (negb (is_blank line) && negb (quote_breaker line)).

(** What the inner loops add to the offset: each line and its newline. *)
Definition consumed (ls : list str) : Z :=
  foldr (fun l acc => len l + 1 + acc) 0 ls.

(** The [while (i < lines.length)] loop of [parseBlocks]; [lines] is what is
    left from index [i] on.  Every round takes at least one line, so
    [length lines] rounds are enough ([parseBlocks_loop_fuel]). *)
Fixpoint parseBlocks_loop (fuel : nat) (lines : list str) (offset : Z)
  : list Block :=
  match fuel, lines with
  | O, _ => []
  | _, [] => []
  | S fuel', line :: rest =>
      let lineStart := offset in
      if is_blank line then
        mkBlock blank line lineStart None None
          :: parseBlocks_loop fuel' rest (offset + (len line + 1))
      else
      match headingMatch line with
      | Some level =>
        mkBlock heading line lineStart (Some level) None
          :: parseBlocks_loop fuel' rest (offset + (len line + 1))
      | None =>
      if is_hr line then
        mkBlock hr line lineStart None None
          :: parseBlocks_loop fuel' rest (offset + (len line + 1))
      else if startsWith fence line then
        let '(body, rest1) := span (fun l => negb (startsWith fence l)) rest in
        let '(closing, rest2) :=
          match rest1 with [] => ([], []) | c :: r => ([c], r) end in
        let codeLines := line :: body ++ closing in
        mkBlock codeBlock (join [c_nl] codeLines) lineStart None None
          :: parseBlocks_loop fuel' rest2 (lineStart + consumed codeLines)
      else if startsWith [c_gt] line then
        let '(more, rest1) := span quote_continues rest in
        let quoteLines := line :: more in
        mkBlock blockquote (join [c_nl] quoteLines) lineStart None None
          :: parseBlocks_loop fuel' rest1 (lineStart + consumed quoteLines)
      else if starts_unordered line then
        let '(more, rest1) :=
          span (fun l => starts_unordered l || starts_ws l) rest in
        let listLines := line :: more in
        mkBlock list_block (join [c_nl] listLines) lineStart None (Some false)
          :: parseBlocks_loop fuel' rest1 (lineStart + consumed listLines)
      else if starts_ordered line then
        let '(more, rest1) :=
          span (fun l => starts_ordered l || starts_ws l) rest in
        let listLines := line :: more in
        mkBlock list_block (join [c_nl] listLines) lineStart None (Some true)
          :: parseBlocks_loop fuel' rest1 (lineStart + consumed listLines)
      else
        let '(more, rest1) :=
          span (fun l => negb (is_blank l) && negb (paragraph_breaker l)) rest in
        let paraLines := line :: more in
        mkBlock paragraph (join [c_nl] paraLines) lineStart None None
          :: parseBlocks_loop fuel' rest1 (lineStart + consumed paraLines)
      end
  end.

Definition parseBlocks (content : str) : list Block :=
  let lines := split_nl content in
  parseBlocks_loop (length lines) lines 0.

(* ===================================================================== *)
(** ** Inline parser *)
(* ===================================================================== *)

(** The four alternatives of [inlinePattern], in the order they are tried. *)
Inductive InlineKind := k_bold | k_italic | k_code | k_link.

(** The lazy group [(.+?)] followed by a fixed delimiter: the shortest
    non-empty run of characters other than line terminators after which
    the delimiter stands. *)
Fixpoint lazy_until (delim : str) (s : str) : option str :=
  match s with
  | [] => None
  | c :: s' =>
      if is_line_terminator c then None
      else if startsWith delim s' then Some [c]
      else match lazy_until delim s' with
           | Some content => Some (c :: content)
           | None => None
           end
  end.

(** A greedy negated class [[^d]+] followed by the character [d]: the
    maximal run is the only one after which [d] can stand. *)
Definition run_until (d : char) (s : str) : option str :=
  let k := run_length (fun c => negb (N.eqb c d)) s in
  if (1 <=? k)%nat && startsWith [d] (drop k s) then Some (take k s) else None.

(** The pattern tried at the start of [s]: which alternative matched, the
    text of its group, and the length of the whole match. *)
Definition match_here (s : str) : option (InlineKind * str * Z) :=
  match s with
  | c :: s1 =>
      if N.eqb c c_star then
        match (match s1 with
               | c2 :: s2 => if N.eqb c2 c_star then lazy_until [c_star; c_star] s2
                             else None
               | [] => None
               end) with
        | Some content => Some (k_bold, content, len content + 4)
        | None =>
            match lazy_until [c_star] s1 with
            | Some content => Some (k_italic, content, len content + 2)
            | None => None
            end
        end
      else if N.eqb c c_backtick then
        match run_until c_backtick s1 with
        | Some content => Some (k_code, content, len content + 2)
        | None => None
        end
      else if N.eqb c c_lbracket then
        match run_until c_rbracket s1 with
        | Some content =>
            match drop (S (length content)) s1 with
            | c2 :: s2 =>
                if N.eqb c2 c_lparen then
                  match run_until c_rparen s2 with
                  | Some url => Some (k_link, content, len content + len url + 4)
                  | None => None
                  end
                else None
            | [] => None
            end
        | None => None
        end
      else None
  | [] => None
  end.

(** [inlinePattern.exec(text)] with [lastIndex = idx], [s] being the text
    from [idx] on: the leftmost position where the pattern matches. *)
Fixpoint exec_inline (s : str) (idx : Z) : option (Z * InlineKind * str * Z) :=
  match match_here s with
  | Some (k, content, n) => Some (idx, k, content, n)
  | None =>
      match s with
      | [] => None
      | _ :: s' => exec_inline s' (idx + 1)
      end
  end.

(** [{ ...baseStyle, type: baseStyle.type || "body" }] *)
Definition plain_style (baseStyle : SegmentStyle) : SegmentStyle :=
  spread baseStyle
    (mkStyle None None None None None None None
       (Some (match st_type baseStyle with Some t => t | None => t_body end))).

Definition kind_style (k : InlineKind) : SegmentStyle :=
  match k with
  | k_bold => MARKDOWN_STYLES.bold
  | k_italic => MARKDOWN_STYLES.italic
  | k_code => MARKDOWN_STYLES.code
  | k_link => MARKDOWN_STYLES.link
  end.

(** How many opening delimiter characters the segment of a match skips. *)
Definition kind_skip (k : InlineKind) : Z :=
  match k with k_bold => 2 | _ => 1 end.

(** The [while ((match = inlinePattern.exec(text)) !== null)] loop: the
    segments pushed from [lastEnd] on, and the final [lastEnd].  A match
    has at least three characters, so [length text] rounds are enough. *)
Fixpoint parseInline_loop (fuel : nat) (text : str) (baseOffset : Z)
    (baseStyle : SegmentStyle) (lastEnd : Z) : list LineSegment * Z :=
  match fuel with
  | O => ([], lastEnd)
  | S fuel' =>
      match exec_inline (drop (Z.to_nat lastEnd) text) lastEnd with
      | None => ([], lastEnd)
      | Some (index, k, content, n) =>
          let before :=
            if index >? lastEnd then
              let beforeText := slice text lastEnd index in
              [mkSegment beforeText (baseOffset + lastEnd) (len beforeText)
                 (plain_style baseStyle)]
            else [] in
          let matchStart := baseOffset + index in
          let styled :=
            mkSegment content (matchStart + kind_skip k) (len content)
              (spread baseStyle (kind_style k)) in
          let '(more, final) :=
            parseInline_loop fuel' text baseOffset baseStyle (index + n) in
          (before ++ styled :: more, final)
      end
  end.

Definition parseInline (text : str) (baseOffset : Z) (baseStyle : SegmentStyle)
  : list LineSegment :=
  let '(matched, lastEnd) :=
    parseInline_loop (length text) text baseOffset baseStyle 0 in
  let segments :=
    matched ++
    (if lastEnd <? len text then
       let remainingText := slice_from text lastEnd in
       [mkSegment remainingText (baseOffset + lastEnd) (len remainingText)
          (plain_style baseStyle)]
     else []) in
  match segments with
  | [] => [mkSegment text baseOffset (len text) (plain_style baseStyle)]
  | _ => segments
  end.

(* ===================================================================== *)
(** ** Word wrap *)
(* ===================================================================== *)

(** The break point of one round of [wordWrap]'s loop. *)
Definition breakPoint (remaining : str) (width : Z) : Z :=
  let bp := lastIndexOf remaining c_space width in
  if (bp =? -1) || (bp =? 0) then width else bp.

(** The [while (remaining.length > 0)] loop.  Every round pushes a line
    onto [result]; [room] is the number of lines the array can still take,
    and [result.push] on an array with no room left raises RangeError
    (invalid array length). *)
Fixpoint wordWrap_loop (room : nat) (remaining : str) (width : Z)
  : result (list str) :=
  if len remaining >? 0 then
    match room with
    | O => Throw RangeError
    | S room' =>
        if len remaining <=? width then Ret [remaining]
        else
          let bp := breakPoint remaining width in
          let* rest :=
            wordWrap_loop room' (trimStart (slice_from remaining bp)) width in
          Ret (trimEnd (slice remaining 0 bp) :: rest)
    end
  else Ret [].

(** [wordWrap(text, width)].  An array takes 2^32 - 1 elements, more than
    any string has characters.  A run that leaves the loop by one of its
    two exits has pushed at most [text.length + 1] lines.  A run that does
    not is one whose rounds leave [remaining] as it is: it fills the array
    whatever room there is, and ends as it does in JavaScript, when
    [result.push] raises RangeError.  The room is given as
    [text.length + 3]; with any larger room the outcome is the same
    ([wordWrap_room]). *)
Definition wordWrap (text : str) (width : Z) : result (list str) :=
  if len text <=? width then Ret [text]
  else wordWrap_loop (3 + length text) text width.

(** The inner [for (const segment of segments)] loop of
    [wordWrapSegments]: the parts of the segments that lie in the window
    [lineTextStart, lineTextEnd) of the flattened text. *)
Fixpoint line_parts (segments : list LineSegment)
    (segmentOffset lineTextStart lineTextEnd : Z) : list LineSegment :=
  match segments with
  | [] => []
  | segment :: more =>
      let segStart := segmentOffset in
      let segEnd := segmentOffset + len (seg_text segment) in
      (if (segEnd >? lineTextStart) && (segStart <? lineTextEnd) then
         let overlapStart := Z.max segStart lineTextStart in
         let overlapEnd := Z.min segEnd lineTextEnd in
         let textStartInSeg := overlapStart - segStart in
         let textEndInSeg := overlapEnd - segStart in
         if textEndInSeg >? textStartInSeg then
           [mkSegment (slice (seg_text segment) textStartInSeg textEndInSeg)
              (seg_sourceOffset segment + textStartInSeg)
              (textEndInSeg - textStartInSeg)
              (seg_style segment)]
         else []
       else [])
      ++ line_parts more (segmentOffset + len (seg_text segment))
           lineTextStart lineTextEnd
  end.

Definition sum_sourceLength (segments : list LineSegment) : Z :=
  fold_left (fun sum s => sum + seg_sourceLength s) segments 0.

(** The [for (const wrappedLine of wrappedLines)] loop. *)
Fixpoint wrapped_lines (segments : list LineSegment) (fullText : str)
    (wrappedLines : list str) (textOffset lineNumber : Z) : list RenderedLine :=
  match wrappedLines with
  | [] => []
  | wrappedLine :: rest =>
      let lineTextStart := textOffset in
      let lineTextEnd := textOffset + len wrappedLine in
      let lineSegments := line_parts segments 0 lineTextStart lineTextEnd in
      let textOffset1 := textOffset + len wrappedLine in
      let textOffset2 :=
        if (textOffset1 <? len fullText)
           && bool_decide (charAt fullText textOffset1 = Some c_space)
        then textOffset1 + 1 else textOffset1 in
      match lineSegments with
      | [] => wrapped_lines segments fullText rest textOffset2 lineNumber
      | first :: _ =>
          mkLine lineNumber (seg_sourceOffset first)
            (sum_sourceLength lineSegments) lineSegments 0 false
          :: wrapped_lines segments fullText rest textOffset2 (lineNumber + 1)
      end
  end.

(** [segments[0]?.sourceOffset || 0] *)
Definition first_offset (segments : list LineSegment) : Z :=
  match segments with
  | [] => 0
  | s :: _ => seg_sourceOffset s
  end.

Definition wordWrapSegments (segments : list LineSegment) (width : Z)
  : result (list RenderedLine) :=
  let fullText := concat (map seg_text segments) in
  if len fullText =? 0 then
    Ret [mkLine 1 (first_offset segments) 0
           [mkSegment [] (first_offset segments) 0 no_style] 0 true]
  else
    let* wrappedLines := wordWrap fullText width in
    Ret (wrapped_lines segments fullText wrappedLines 0 1).

(* ===================================================================== *)
(** ** Blocks to rendered lines *)
(* ===================================================================== *)

(** [for (const wl of wrapped) wl.lineNumber = lineNumber++], with the
    other fields a block overwrites given by [patch]. *)
Fixpoint renumber (patch : RenderedLine -> RenderedLine)
    (wrapped : list RenderedLine) (lineNumber : Z) : list RenderedLine * Z :=
  match wrapped with
  | [] => ([], lineNumber)
  | wl :: rest =>
      let wl' := patch wl in
      let '(rest', final) := renumber patch rest (lineNumber + 1) in
      (mkLine lineNumber (line_sourceOffset wl') (line_sourceLength wl')
         (line_segments wl') (line_indent wl') (line_isBlank wl') :: rest',
       final)
  end.

(** A quote or list line takes the offset and length of its source line
    (and, in a list, the indent 0, which [wordWrapSegments] has given every
    line already). *)
Definition set_span (offset length : Z) (wl : RenderedLine) : RenderedLine :=
  mkLine (line_lineNumber wl) offset length (line_segments wl) 0
    (line_isBlank wl).

(** [source.replace] of hashes followed by white space at the start. *)
Definition strip_heading_marker (source : str) : str :=
  let k := run_length is_hash source in
  let w := run_length is_ws (drop k source) in
  if (1 <=? k)%nat && (1 <=? w)%nat then drop w (drop k source) else source.

(** [quoteLine.replace] of the quote mark and at most one white space. *)
Definition strip_quote_marker (quoteLine : str) : str :=
  match quoteLine with
  | c :: s =>
      if N.eqb c c_gt then
        match s with
        | c2 :: s2 => if is_ws c2 then s2 else s
        | [] => s
        end
      else quoteLine
  | [] => quoteLine
  end.

(** [replace] of an unordered item marker and its white space. *)
Definition strip_unordered_marker (s : str) : str :=
  match s with
  | c :: s1 =>
      let w := run_length is_ws s1 in
      if is_bullet_char c && (1 <=? w)%nat then drop w s1 else s
  | [] => s
  end.

(** [replace] of an ordered item marker and its white space. *)
Definition strip_ordered_marker (s : str) : str :=
  let k := run_length is_digit s in
  match drop k s with
  | c :: s1 =>
      let w := run_length is_ws s1 in
      if (1 <=? k)%nat && N.eqb c c_dot && (1 <=? w)%nat then drop w s1 else s
  | [] => s
  end.

Definition heading_prefix (level : Z) : str :=
  if level =? 1 then [c_hash; c_space]
  else if level =? 2 then [c_hash; c_hash; c_space]
  else if level =? 3 then [c_hash; c_hash; c_hash; c_space]
  else [c_hash; c_hash; c_hash; c_hash; c_space].

(** [MARKDOWN_STYLES[`h${level}`] || MARKDOWN_STYLES.h1] *)
Definition heading_style (level : Z) : SegmentStyle :=
  if level =? 2 then MARKDOWN_STYLES.h2
  else if level =? 3 then MARKDOWN_STYLES.h3
  else if level =? 4 then MARKDOWN_STYLES.h4
  else MARKDOWN_STYLES.h1.

Definition dim (st : SegmentStyle) : SegmentStyle :=
  spread st (mkStyle None None None None None None (Some true) None).

Definition gray : SegmentStyle :=
  mkStyle None None None None (Some "gray"%string) None None None.

Definition cyan : SegmentStyle :=
  mkStyle None None None None (Some "cyan"%string) None None None.

(** The lines of a code block. *)
Fixpoint render_code (codeLines : list str) (offset lineNumber : Z)
  : list RenderedLine * Z :=
  match codeLines with
  | [] => ([], lineNumber)
  | codeLine :: rest =>
      if startsWith fence codeLine then
        render_code rest (offset + (len codeLine + 1)) (lineNumber + 1)
      else
        let '(more, final) :=
          render_code rest (offset + (len codeLine + 1)) (lineNumber + 1) in
        (mkLine lineNumber offset (len codeLine)
           [mkSegment codeLine offset (len codeLine) MARKDOWN_STYLES.codeBlock]
           0 false :: more, final)
  end.

(** The lines of a block quote. *)
Fixpoint render_quote (quoteLines : list str) (terminalWidth offset lineNumber : Z)
  : result (list RenderedLine * Z) :=
  match quoteLines with
  | [] => Ret ([], lineNumber)
  | quoteLine :: rest =>
      let text := strip_quote_marker quoteLine in
      let prefixLen := len quoteLine - len text in
      let quoteSegments :=
        mkSegment [c_vbar; c_space] offset prefixLen gray
        :: parseInline text (offset + prefixLen) MARKDOWN_STYLES.blockquote in
      let* wrappedQuote := wordWrapSegments quoteSegments (terminalWidth - 2) in
      let '(here, lineNumber') :=
        renumber (set_span offset (len quoteLine)) wrappedQuote lineNumber in
      let* '(more, final) :=
        render_quote rest terminalWidth (offset + (len quoteLine + 1)) lineNumber' in
      Ret (here ++ more, final)
  end.

(** The lines of a list. *)
Fixpoint render_list (ordered : bool) (listLines : list str)
    (terminalWidth offset itemNum lineNumber : Z)
  : result (list RenderedLine * Z) :=
  match listLines with
  | [] => Ret ([], lineNumber)
  | listLine :: rest =>
      if is_blank listLine then
        render_list ordered rest terminalWidth (offset + (len listLine + 1))
          itemNum (lineNumber + 1)
      else
        let bullet :=
          if ordered then decimal itemNum ++ [c_dot; c_space]
          else [c_bullet; c_space] in
        let itemNum' := if ordered then itemNum + 1 else itemNum in
        let text := strip_ordered_marker (strip_unordered_marker listLine) in
        let prefixLength := len listLine - len text in
        let listSegments :=
          mkSegment bullet offset prefixLength cyan
          :: parseInline text (offset + prefixLength) no_style in
        let* wrappedList := wordWrapSegments listSegments (terminalWidth - 2) in
        let '(here, lineNumber') :=
          renumber (set_span offset (len listLine)) wrappedList lineNumber in
        let* '(more, final) :=
          render_list ordered rest terminalWidth (offset + (len listLine + 1))
            itemNum' lineNumber' in
        Ret (here ++ more, final)
  end.

(** One round of the [for (const block of blocks)] loop: the lines pushed
    and the next line number. *)
Definition renderBlock (block : Block) (terminalWidth lineNumber : Z)
  : result (list RenderedLine * Z) :=
  match blk_type block with
  | blank =>
      Ret ([mkLine lineNumber (blk_sourceOffset block) (len (blk_source block))
              [mkSegment [] (blk_sourceOffset block) (len (blk_source block))
                 no_style] 0 true],
           lineNumber + 1)
  | heading =>
      let level :=
        match blk_level block with
        | Some l => if l =? 0 then 1 else l
        | None => 1
        end in
      let prefix := heading_prefix level in
      let text := strip_heading_marker (blk_source block) in
      let style := heading_style level in
      let headingSegments :=
        mkSegment prefix (blk_sourceOffset block) (len prefix) (dim style)
        :: parseInline text (blk_sourceOffset block + len prefix) style in
      let* wrappedHeading := wordWrapSegments headingSegments terminalWidth in
      Ret (renumber (fun wl => wl) wrappedHeading lineNumber)
  | hr =>
      let* rule := repeat_char c_hline (Z.min (terminalWidth - 4) 60) in
      Ret ([mkLine lineNumber (blk_sourceOffset block) (len (blk_source block))
              [mkSegment rule (blk_sourceOffset block) (len (blk_source block))
                 (dim gray)] 0 false],
           lineNumber + 1)
  | codeBlock =>
      Ret (render_code (split_nl (blk_source block)) (blk_sourceOffset block)
             lineNumber)
  | blockquote =>
      render_quote (split_nl (blk_source block)) terminalWidth
        (blk_sourceOffset block) lineNumber
  | list_block =>
      render_list (match blk_ordered block with Some b => b | None => false end)
        (split_nl (blk_source block)) terminalWidth (blk_sourceOffset block)
        1 lineNumber
  | paragraph =>
      let fullPara := join [c_space] (split_nl (blk_source block)) in
      let paraSegments := parseInline fullPara (blk_sourceOffset block) no_style in
      let* wrappedPara := wordWrapSegments paraSegments terminalWidth in
      Ret (renumber (fun wl => wl) wrappedPara lineNumber)
  end.

Fixpoint renderBlocks_from (blocks : list Block) (terminalWidth lineNumber : Z)
  : result (list RenderedLine) :=
  match blocks with
  | [] => Ret []
  | block :: rest =>
      let* '(here, lineNumber') := renderBlock block terminalWidth lineNumber in
      let* more := renderBlocks_from rest terminalWidth lineNumber' in
      Ret (here ++ more)
  end.

Definition renderBlocks (blocks : list Block) (terminalWidth : Z)
  : result (list RenderedLine) :=
  renderBlocks_from blocks terminalWidth 1.

(* ===================================================================== *)
(** ** Overlays: diffs and selection *)
(* ===================================================================== *)

(** The [for (const diff of sortedDiffs)] loop on one segment: the parts
    pushed and the final [textPos]. *)
Fixpoint diff_parts (segment : LineSegment) (segStart : Z)
    (sortedDiffs : list DocumentDiff) (textPos : Z) : list LineSegment * Z :=
  match sortedDiffs with
  | [] => ([], textPos)
  | diff :: more =>
      let text := seg_text segment in
      let diffStartInSeg := Z.max 0 (diff_startOffset diff - segStart) in
      let diffEndInSeg := Z.min (len text) (diff_endOffset diff - segStart) in
      let before :=
        if diffStartInSeg >? textPos then
          [mkSegment (slice text textPos diffStartInSeg)
             (seg_sourceOffset segment + textPos)
             (diffStartInSeg - textPos)
             (seg_style segment)]
        else [] in
      let region :=
        if diffEndInSeg >? diffStartInSeg then
          [mkSegment (slice text diffStartInSeg diffEndInSeg)
             (seg_sourceOffset segment + diffStartInSeg)
             (diffEndInSeg - diffStartInSeg)
             (spread (seg_style segment) (DIFF_STYLES (diff_type diff)))]
        else [] in
      let '(rest, final) := diff_parts segment segStart more diffEndInSeg in
      (before ++ region ++ rest, final)
  end.

Definition overlaps (segStart segEnd : Z) (d : DocumentDiff) : bool :=
  (diff_startOffset d <? segEnd) && (diff_endOffset d >? segStart).

(** The body of [applyDiffs]'s loop over the segments. *)
Definition applyDiffs_segment (diffs : list DocumentDiff) (segment : LineSegment)
  : list LineSegment :=
  let segStart := seg_sourceOffset segment in
  let segEnd := seg_sourceOffset segment + seg_sourceLength segment in
  let overlapping := List.filter (overlaps segStart segEnd) diffs in
  match overlapping with
  | [] => [segment]
  | _ =>
      let sortedDiffs := sort_by diff_startOffset overlapping in
      let '(parts, textPos) := diff_parts segment segStart sortedDiffs 0 in
      parts ++
      (if textPos <? len (seg_text segment) then
         [mkSegment (slice_from (seg_text segment) textPos)
            (seg_sourceOffset segment + textPos)
            (len (seg_text segment) - textPos)
            (seg_style segment)]
       else [])
  end.

Definition applyDiffs (segments : list LineSegment) (diffs : list DocumentDiff)
  : list LineSegment :=
  match diffs with
  | [] => segments
  | _ => concat (map (applyDiffs_segment diffs) segments)
  end.

(** The body of [applySelection]'s loop over the segments, for the
    normalized range [start, end). *)
Definition applySelection_segment (start end_ : Z) (segment : LineSegment)
  : list LineSegment :=
  let text := seg_text segment in
  let segStart := seg_sourceOffset segment in
  let segEnd := seg_sourceOffset segment + seg_sourceLength segment in
  if (end_ <=? segStart) || (start >=? segEnd) then [segment]
  else
    let selStartInSeg := Z.max 0 (start - segStart) in
    let selEndInSeg := Z.min (len text) (end_ - segStart) in
    if selEndInSeg <=? selStartInSeg then [segment]
    else
      (if selStartInSeg >? 0 then
         [mkSegment (slice text 0 selStartInSeg) (seg_sourceOffset segment)
            selStartInSeg (seg_style segment)]
       else [])
      ++
      (let selectedText := slice text selStartInSeg selEndInSeg in
       if len selectedText >? 0 then
         [mkSegment selectedText (seg_sourceOffset segment + selStartInSeg)
            (selEndInSeg - selStartInSeg)
            (spread (seg_style segment) SELECTION_STYLE)]
       else [])
      ++
      (if selEndInSeg <? len text then
         [mkSegment (slice_from text selEndInSeg)
            (seg_sourceOffset segment + selEndInSeg)
            (len text - selEndInSeg) (seg_style segment)]
       else []).

Definition applySelection (segments : list LineSegment)
    (selectionStart selectionEnd : option Z) : list LineSegment :=
  match selectionStart, selectionEnd with
  | Some s, Some e =>
      if s =? e then segments
      else
        let start := Z.min s e in
        let end_ := Z.max s e in
        concat (map (applySelection_segment start end_) segments)
  | _, _ => segments
  end.

(** What [MarkdownRenderer] does with the segments of each visible line
    before it displays them: the diffs, then the selection. *)
Definition overlaid (diffs : list DocumentDiff)
    (selectionStart selectionEnd : option Z) (line : RenderedLine) : RenderedLine :=
  mkLine (line_lineNumber line) (line_sourceOffset line) (line_sourceLength line)
    (applySelection (applyDiffs (line_segments line) diffs)
       selectionStart selectionEnd)
    (line_indent line) (line_isBlank line).

(* ===================================================================== *)
(** ** Position map *)
(* ===================================================================== *)

(** The loop over the characters of one segment: the entries pushed, and
    the row and column reached. *)
Fixpoint map_chars (n : nat) (sourceOffset i terminalWidth currentRow col : Z)
  : list PositionMapping * Z * Z :=
  match n with
  | O => ([], currentRow, col)
  | S n' =>
      let '(row1, col1) :=
        if col >? terminalWidth then (currentRow + 1, 1) else (currentRow, col) in
      let '(more, rowN, colN) :=
        map_chars n' sourceOffset (i + 1) terminalWidth row1 (col1 + 1) in
      (mkPosition row1 col1 (sourceOffset + i) :: more, rowN, colN)
  end.

Fixpoint map_segments (segments : list LineSegment)
    (terminalWidth currentRow col : Z) : list PositionMapping * Z * Z :=
  match segments with
  | [] => ([], currentRow, col)
  | segment :: rest =>
      let '(here, row1, col1) :=
        map_chars (length (seg_text segment)) (seg_sourceOffset segment) 0
          terminalWidth currentRow col in
      let '(more, rowN, colN) := map_segments rest terminalWidth row1 col1 in
      (here ++ more, rowN, colN)
  end.

Fixpoint buildPositionMap (lines : list RenderedLine)
    (startRow terminalWidth : Z) : list PositionMapping :=
  match lines with
  | [] => []
  | line :: rest =>
      let '(here, row1, _) :=
        map_segments (line_segments line) terminalWidth startRow
          (1 + line_indent line) in
      here ++ buildPositionMap rest (row1 + 1) terminalWidth
  end.

(* ===================================================================== *)
(** ** From a terminal position to a source offset *)
(* ===================================================================== *)

(** [[...new Set(xs)]]: the first occurrence of every value, in order. *)
Fixpoint unique (seen : list Z) (xs : list Z) : list Z :=
  match xs with
  | [] => []
  | x :: xs' =>
      if existsb (Z.eqb x) seen then unique seen xs'
      else x :: unique (x :: seen) xs'
  end.

(** [xs.reduce((prev, curr) => dist(curr) < dist(prev) ? curr : prev)] on
    a non-empty array with first element [x0]. *)
Definition closest {A : Type} (dist : A -> Z) (x0 : A) (xs : list A) : A :=
  fold_left (fun prev curr => if dist curr <? dist prev then curr else prev)
    xs x0.

(** [Math.min(...xs)] and [Math.max(...xs)] on a non-empty array. *)
Definition minimum (x0 : Z) (xs : list Z) : Z := fold_left Z.min xs x0.
Definition maximum (x0 : Z) (xs : list Z) : Z := fold_left Z.max xs x0.

Definition on_row (y : Z) (p : PositionMapping) : bool := pm_terminalRow p =? y.

Definition terminalToOffset (x y : Z) (positionMap : list PositionMapping)
  : result (option Z) :=
  match List.find (fun p => (pm_terminalRow p =? y) && (pm_terminalCol p =? x))
          positionMap with
  | Some exact => Ret (Some (pm_sourceOffset exact))
  | None =>
      match List.filter (on_row y) positionMap with
      | [] =>
          let rows :=
            sort_by (fun r => r) (unique [] (map pm_terminalRow positionMap)) in
          match rows with
          | [] => Throw TypeError  (* reduce of an empty array, no initial value *)
          | r0 :: rs =>
              let closestRow := closest (fun r => Z.abs (r - y)) r0 rs in
              match map pm_sourceOffset
                      (List.filter (on_row closestRow) positionMap) with
              | [] => Ret None
              | o :: os =>
                  if y <? closestRow then Ret (Some (minimum o os))
                  else Ret (Some (maximum o os))
              end
          end
      | e0 :: es =>
          Ret (Some (pm_sourceOffset
                       (closest (fun p => Z.abs (pm_terminalCol p - x)) e0 es)))
      end
  end.

(** [offsetToLineCol]: the loop runs while [i < offset] and
    [i < content.length]. *)
Fixpoint lineCol_loop (chars : str) (n : nat) (line column : Z) : Z * Z :=
  match n, chars with
  | S n', c :: cs =>
      if N.eqb c c_nl then lineCol_loop cs n' (line + 1) 1
      else lineCol_loop cs n' line (column + 1)
  | _, _ => (line, column)
  end.

Definition offsetToLineCol (offset : Z) (content : str) : Z * Z :=
  lineCol_loop content (Z.to_nat offset) 1 1.

(* ===================================================================== *)
(** ** Selection controller ([useTextSelection]) *)
(* ===================================================================== *)

Record Options := mkOptions {
  opt_enabled : bool;
  opt_positionMap : list PositionMapping;
  opt_content : str;
  opt_scrollOffset : Z;
  opt_startCol : Z;
  opt_onSelectionChange : bool   (* whether the callback is given *)
}.

Record MouseEvent := mkMouseEvent {
  ev_x : Z;
  ev_y : Z;
  ev_pressed : bool;
  ev_isMotion : bool
}.

(** The state of the hook: the [selection] state, [mouseDownRef.current],
    and the arguments the selection-changed callback has been invoked
    with, oldest first. *)
Record Controller := mkController {
  selection : SelectionState;
  mouseDownRef : bool;
  notified : list (option DocumentSelection)
}.

Definition initial : Controller :=
  mkController (mkSelection false None None None None) false [].

Definition getSelectionData (content : str) (state : SelectionState)
  : option DocumentSelection :=
  match sel_startOffset state, sel_endOffset state with
  | Some start, Some end_ =>
      if start =? end_ then None
      else
        let selectedText := slice content start end_ in
        let startPos := offsetToLineCol start content in
        let endPos := offsetToLineCol end_ content in
        Some (mkDocumentSelection selectedText start end_
                (fst startPos) (fst endPos) (snd startPos) (snd endPos))
  | _, _ => None
  end.

(** [onSelectionChangeRef.current?.(data)] *)
Definition notify (opts : Options) (data : option DocumentSelection)
    (log : list (option DocumentSelection)) : list (option DocumentSelection) :=
  if opt_onSelectionChange opts then log ++ [data] else log.

Definition resolve (opts : Options) (event : MouseEvent) : result (option Z) :=
  let adjustedX := ev_x event - opt_startCol opts in
  let adjustedY := ev_y event + opt_scrollOffset opts in
  terminalToOffset adjustedX adjustedY (opt_positionMap opts).

Definition handleClick (opts : Options) (event : MouseEvent) (c : Controller)
  : result Controller :=
  if negb (opt_enabled opts) then Ret c
  else
    let* offset := resolve opts event in
    match offset with
    | None => Ret c
    | Some offset =>
        Ret (mkController
               (mkSelection true (Some offset) (Some offset) (Some offset)
                  (Some offset))
               true (notified c))
    end.

Definition handleMove (opts : Options) (event : MouseEvent) (c : Controller)
  : result Controller :=
  if negb (opt_enabled opts) || negb (mouseDownRef c) then Ret c
  else
    let* offset := resolve opts event in
    match offset with
    | None => Ret c
    | Some offset =>
        let prev := selection c in
        match sel_anchorOffset prev with
        | None => Ret c
        | Some anchor =>
            let start := Z.min anchor offset in
            let end_ := Z.max anchor offset in
            let newState :=
              mkSelection true (sel_anchorOffset prev) (Some offset)
                (Some start) (Some end_) in
            let data := getSelectionData (opt_content opts) newState in
            Ret (mkController newState (mouseDownRef c)
                   (notify opts data (notified c)))
        end
    end.

Definition handleRelease (opts : Options) (event : MouseEvent) (c : Controller)
  : result Controller :=
  if negb (opt_enabled opts) then Ret c
  else
    let prev := selection c in
    let newState :=
      mkSelection false (sel_anchorOffset prev) (sel_focusOffset prev)
        (sel_startOffset prev) (sel_endOffset prev) in
    let data := getSelectionData (opt_content opts) newState in
    let log :=
      match data with
      | Some d =>
          if negb (ds_startOffset d =? ds_endOffset d)
          then notify opts data (notified c) else notified c
      | None => notified c
      end in
    Ret (mkController newState false log).

(** [useMouse]'s choice of the callback for a decoded event. *)
Definition handler (opts : Options) (event : MouseEvent) (c : Controller)
  : result Controller :=
  if ev_isMotion event then handleMove opts event c
  else if ev_pressed event then handleClick opts event c
  else handleRelease opts event c.

(** An event is handled to completion before the next one; a handler that
    raises does so before it has changed anything. *)
Definition dispatch (opts : Options) (c : Controller) (event : MouseEvent)
  : Controller :=
  match handler opts event c with
  | Ret c' => c'
  | _ => c
  end.

Definition run (opts : Options) (events : list MouseEvent) (c : Controller)
  : Controller :=
  fold_left (dispatch opts) events c.

(* ===================================================================== *)
(** ** Predicates used in the statements *)
(* ===================================================================== *)

(** What is left of [remaining] after one round of [wordWrap]'s loop. *)
Definition wrap_rest (remaining : str) (width : Z) : str :=
  trimStart (slice_from remaining (breakPoint remaining width)).

(** The line does not start, or does not end, with white space. *)
Definition no_leading_ws (L : str) : Prop :=
  forall c, head L = Some c -> is_ws c = false.

Definition no_trailing_ws (L : str) : Prop :=
  forall c, last L = Some c -> is_ws c = false.

(** Each block starts where the previous one ended, one newline later. *)
Fixpoint chained (offset : Z) (blocks : list Block) : Prop :=
  match blocks with
  | [] => True
  | b :: blocks' =>
      blk_sourceOffset b = offset
      /\ chained (offset + len (blk_source b) + 1) blocks'
  end.

(** The blocks hold the lines, from [offset] on. *)
Definition covers (offset : Z) (lines : list str) (blocks : list Block) : Prop :=
  join [c_nl] (map blk_source blocks) = join [c_nl] lines
  /\ chained offset blocks
  /\ (lines = [] <-> blocks = []).

(** [piece] stands in [text] at offset [off]. *)
Definition located (text : str) (off : Z) (piece : str) : Prop :=
  0 <= off /\
  forall (i : nat) (c : char),
    piece !! i = Some c -> text !! (Z.to_nat off + i)%nat = Some c.

(** The opening delimiter of each alternative of the inline pattern. *)
Definition opening (k : InlineKind) : str :=
  match k with
  | k_bold => [c_star; c_star]
  | k_italic => [c_star]
  | k_code => [c_backtick]
  | k_link => [c_lbracket]
  end.

(** What every segment of [parseInline text base style] satisfies: its
    length is that of its text, its text stands in [text] at its offset
    (relative to [base]), and it is either a plain run or the group of a
    match, right after the opening delimiter. *)
Definition inline_ok (text : str) (base : Z) (style : SegmentStyle)
    (seg : LineSegment) : Prop :=
  seg_sourceLength seg = len (seg_text seg)
  /\ located text (seg_sourceOffset seg - base) (seg_text seg)
  /\ seg_sourceOffset seg - base + len (seg_text seg) <= len text
  /\ (seg_style seg = plain_style style
      \/ exists k, seg_style seg = spread style (kind_style k)
                   /\ located text (seg_sourceOffset seg - base - kind_skip k)
                        (opening k)).

(** The entry [p] is at exactly row [y] and column [x]. *)
Definition exact_at (x y : Z) (p : PositionMapping) : Prop :=
  pm_terminalRow p = y /\ pm_terminalCol p = x.

(** [p] is the first entry of the map at exactly (row, col). *)
Definition first_exact (x y : Z) (positionMap : list PositionMapping)
    (p : PositionMapping) : Prop :=
  exists pre post,
    positionMap = pre ++ p :: post /\ exact_at x y p
    /\ forall q, In q pre -> ~ exact_at x y q.

(** [p] is an entry of row [y] whose column is nearest to [x]. *)
Definition nearest_col (x y : Z) (positionMap : list PositionMapping)
    (p : PositionMapping) : Prop :=
  In p positionMap /\ pm_terminalRow p = y
  /\ forall q, In q positionMap -> pm_terminalRow q = y ->
       Z.abs (pm_terminalCol p - x) <= Z.abs (pm_terminalCol q - x).

(** [r] is the row of the map nearest to [y], the smaller one when two
    rows are as near. *)
Definition nearest_row (y : Z) (positionMap : list PositionMapping) (r : Z) : Prop :=
  (exists p, In p positionMap /\ pm_terminalRow p = r)
  /\ forall q, In q positionMap ->
       Z.abs (r - y) <= Z.abs (pm_terminalRow q - y)
       /\ (Z.abs (pm_terminalRow q - y) = Z.abs (r - y) -> r <= pm_terminalRow q).

(** [o] is the least, or the greatest, source offset on row [r]. *)
Definition min_offset_on_row (positionMap : list PositionMapping) (r o : Z) : Prop :=
  (exists p, In p positionMap /\ pm_terminalRow p = r /\ pm_sourceOffset p = o)
  /\ forall q, In q positionMap -> pm_terminalRow q = r -> o <= pm_sourceOffset q.

Definition max_offset_on_row (positionMap : list PositionMapping) (r o : Z) : Prop :=
  (exists p, In p positionMap /\ pm_terminalRow p = r /\ pm_sourceOffset p = o)
  /\ forall q, In q positionMap -> pm_terminalRow q = r -> pm_sourceOffset q <= o.

(** The three kinds of events that [useMouse] tells apart. *)
Definition is_press (e : MouseEvent) : Prop :=
  ev_isMotion e = false /\ ev_pressed e = true.

Definition is_move (e : MouseEvent) : Prop := ev_isMotion e = true.

Definition is_release (e : MouseEvent) : Prop :=
  ev_isMotion e = false /\ ev_pressed e = false.

(** The normalized pair is in order whenever both ends are set. *)
Definition ordered (s : SelectionState) : Prop :=
  forall start end_,
    sel_startOffset s = Some start -> sel_endOffset s = Some end_ -> start <= end_.

(** The range of the state is set and not empty. *)
Definition nonempty_range (s : SelectionState) : Prop :=
  exists start end_,
    sel_startOffset s = Some start /\ sel_endOffset s = Some end_ /\ start <> end_.

(** The character [c] displays the source character [c0]: it is [c0], or
    the space that a paragraph shows for a newline. *)
Definition shows (c c0 : char) : Prop := c = c0 \/ (c = c_space /\ c0 = c_nl).

(** [text] displays the source from offset [off] on, character by character. *)
Definition shown_at (content : str) (off : Z) (text : str) : Prop :=
  0 <= off /\
  forall (i : nat) (c : char),
    text !! i = Some c ->
    exists c0, content !! (Z.to_nat off + i)%nat = Some c0 /\ shows c c0.

(** The intra-segment mapping, up to the newlines a paragraph joins. *)
Definition shows_source (content : str) (seg : LineSegment) : Prop :=
  shown_at content (seg_sourceOffset seg) (seg_text seg).

(** The intra-segment mapping as the claim has it: character [i] of the
    text is the source character at [sourceOffset + i]. *)
Definition maps_source (content : str) (seg : LineSegment) : Prop :=
  forall (i : nat) (c : char),
    seg_text seg !! i = Some c ->
    charAt content (seg_sourceOffset seg + Z.of_nat i) = Some c.

(** A segment that stands for source text carries an element type; the
    quote bar, the list bullet, the rule and the blank placeholder, which
    the renderer draws by itself, carry none. *)
Definition from_source (seg : LineSegment) : Prop :=
  st_type (seg_style seg) <> None.

(** A segment, and a line, of which every part that stands for source
    text displays the source at its offset. *)
Definition segment_ok (content : str) (seg : LineSegment) : Prop :=
  from_source seg -> shows_source content seg.

Definition line_ok (content : str) (line : RenderedLine) : Prop :=
  Forall (segment_ok content) (line_segments line).

(** A heading line is tidy when exactly one space follows its hashes. *)
Definition tidy_heading (line : str) : bool :=
  match headingMatch line with
  | Some _ =>
      let rest := drop (run_length is_hash line) line in
      startsWith [c_space] rest && (run_length is_ws rest =? 1)%nat
  | None => true
  end.

(** What [join] with a space makes of the lines of a paragraph. *)
Definition unbreak (c : char) : char := if N.eqb c c_nl then c_space else c.

(** [seg'] is a part of one of the segments, with the offset moved along. *)
Definition part_of (segments : list LineSegment) (seg' : LineSegment) : Prop :=
  exists seg a b,
    In seg segments /\ 0 <= a
    /\ seg' = mkSegment (slice (seg_text seg) a b) (seg_sourceOffset seg + a)
                (b - a) (seg_style seg).

(** The lines of a block stand in the document one after the other, a
    newline apart, from [offset] on. *)
Fixpoint lines_located (content : str) (offset : Z) (ls : list str) : Prop :=
  match ls with
  | [] => True
  | l :: ls' =>
      located content offset l /\ lines_located content (offset + (len l + 1)) ls'
  end.

(** What the renderer relies on for a block: its source stands in the
    document at its offset, and a heading carries the level its line
    matched with and is tidy. *)
Definition block_ok (content : str) (b : Block) : Prop :=
  located content (blk_sourceOffset b) (blk_source b)
  /\ (blk_type b = heading ->
      exists k, blk_level b = Some k
                /\ headingMatch (blk_source b) = Some k
                /\ tidy_heading (blk_source b) = true).

(** What [parseBlocks] gives every block: its source stands in the document
    at its offset, and a heading carries the level its line matched with. *)
Definition block_located (content : str) (b : Block) : Prop :=
  located content (blk_sourceOffset b) (blk_source b)
  /\ (blk_type b = heading ->
      exists k, blk_level b = Some k /\ headingMatch (blk_source b) = Some k).

(** A heading block whose hashes are followed by something other than
    exactly one space: two or more white-space characters, or a tab. *)
Definition untidy_heading (b : Block) : Prop :=
  blk_type b = heading /\ tidy_heading (blk_source b) = false.

(** The characters of the segment lie within the span of the block. *)
Definition in_block (b : Block) (seg : LineSegment) : Prop :=
  blk_sourceOffset b <= seg_sourceOffset seg
  /\ seg_sourceOffset seg + len (seg_text seg)
     <= blk_sourceOffset b + len (blk_source b).

(** The segment lies within an untidy heading of the document. *)
Definition in_untidy_heading (content : str) (seg : LineSegment) : Prop :=
  exists b, In b (parseBlocks content) /\ untidy_heading b /\ in_block b seg.

(** A small document with a heading, a list item, a quote and a paragraph. *)
Definition sample_document : str :=
  lit "# Hi" ++ [c_nl] ++ lit "- **a** b" ++ [c_nl] ++ lit "> q" ++ [c_nl]
  ++ lit "some `c`" ++ [c_nl] ++ lit "more".

(** A document with an untidy heading, a code block that holds a line
    shaped like one, and a paragraph. *)
Definition untidy_document : str :=
  lit "#  Hi" ++ [c_nl] ++ lit "```" ++ [c_nl] ++ lit "#  x" ++ [c_nl]
  ++ lit "```" ++ [c_nl] ++ lit "a *b*".

(** The number of lines that start with a fence. *)
Definition fence_lines (ls : list str) : nat :=
  length (List.filter (startsWith fence) ls).

(** A document with a paragraph, a closed code block and a paragraph. *)
Definition fenced_document : str :=
  lit "a" ++ [c_nl] ++ lit "```js" ++ [c_nl] ++ lit "# x" ++ [c_nl]
  ++ lit "- y" ++ [c_nl] ++ lit "```" ++ [c_nl] ++ lit "b".

(** The characters of a text, each with its source offset, from [offset] on. *)
Fixpoint tagged (text : str) (offset : Z) : list (char * Z) :=
  match text with
  | [] => []
  | c :: text' => (c, offset) :: tagged text' (offset + 1)
  end.

(** Every displayed character of a list of segments with the source offset
    the intra-segment mapping gives it. *)
Definition characters (segments : list LineSegment) : list (char * Z) :=
  concat (map (fun s => tagged (seg_text s) (seg_sourceOffset s)) segments).

(** Diff ranges that are well formed and come one after the other. *)
Definition ascending (diffs : list DocumentDiff) : Prop :=
  Forall (fun d => diff_startOffset d <= diff_endOffset d) diffs
  /\ StronglySorted (fun d1 d2 => diff_endOffset d1 <= diff_startOffset d2) diffs.

(** The cell of one entry comes before the cell of another, reading the
    screen row by row. *)
Definition cell_before (p q : PositionMapping) : Prop :=
  pm_terminalRow p < pm_terminalRow q
  \/ (pm_terminalRow p = pm_terminalRow q /\ pm_terminalCol p < pm_terminalCol q).

(** The source offsets of the displayed characters of some lines, in order. *)
Definition line_offsets (lines : list RenderedLine) : list Z :=
  concat (map (fun line => map snd (characters (line_segments line))) lines).

(** The entries that a run of source offsets gets from the cell (row, col)
    on: what the two inner loops of [buildPositionMap] do with the
    characters of a line, whatever segments they come in. *)
Fixpoint place (offsets : list Z) (terminalWidth currentRow col : Z)
  : list PositionMapping * Z * Z :=
  match offsets with
  | [] => ([], currentRow, col)
  | o :: offsets' =>
      let '(row1, col1) :=
        if col >? terminalWidth then (currentRow + 1, 1) else (currentRow, col) in
      let '(more, rowN, colN) := place offsets' terminalWidth row1 (col1 + 1) in
      (mkPosition row1 col1 o :: more, rowN, colN)
  end.

(** The displayed characters of some segments with their source offsets
    and the style they are displayed in. *)
Definition styled_characters (segments : list LineSegment) : list (char * Z * SegmentStyle) :=
  concat (map (fun s => map (fun co => (co, seg_style s))
                          (tagged (seg_text s) (seg_sourceOffset s))) segments).

(** The selection style on the characters of [start, end_), the others
    as they are. *)
Definition highlight (start end_ : Z) (x : char * Z * SegmentStyle)
  : char * Z * SegmentStyle :=
  let '(c, offset, style) := x in
  (c, offset,
   if (start <=? offset) && (offset <? end_) then spread style SELECTION_STYLE
   else style).

(** The offset lies in the range of the diff. *)
Definition in_diff (offset : Z) (d : DocumentDiff) : bool :=
  (diff_startOffset d <=? offset) && (offset <? diff_endOffset d).

(** The style of its diff on a character that lies in one, the others as
    they are. *)
Definition diff_mark (diffs : list DocumentDiff) (x : char * Z * SegmentStyle)
  : char * Z * SegmentStyle :=
  let '(c, offset, style) := x in
  (c, offset,
   match List.find (in_diff offset) diffs with
   | Some d => spread style (DIFF_STYLES (diff_type d))
   | None => style
   end).

(** One (line, column) position comes before another in the text. *)
Definition position_before (p q : Z * Z) : Prop :=
  fst p < fst q \/ (fst p = fst q /\ snd p < snd q).

(** The state hangs together: the selecting flag follows the button, and
    the four offsets are unset together or set together, with start and
    end the smaller and the larger of anchor and focus. *)
Definition coherent (c : Controller) : Prop :=
  sel_isSelecting (selection c) = mouseDownRef c
  /\ match sel_anchorOffset (selection c), sel_focusOffset (selection c),
           sel_startOffset (selection c), sel_endOffset (selection c) with
     | None, None, None, None => True
     | Some a, Some f, Some s, Some e => s = Z.min a f /\ e = Z.max a f
     | _, _, _, _ => False
     end.

(** The events that can invoke the callback: moves and releases. *)
Definition may_notify (event : MouseEvent) : bool :=
  ev_isMotion event || negb (ev_pressed event).

(** The characters an inline match can start with. *)
Definition is_markup (c : char) : bool :=
  N.eqb c c_star || N.eqb c c_backtick || N.eqb c c_lbracket.

(** The text of one segment ends before the text of another starts, with
    at least one source character between them. *)
Definition segment_before (s1 s2 : LineSegment) : Prop :=
  seg_sourceOffset s1 + len (seg_text s1) < seg_sourceOffset s2.

(** The lines put back together, each followed by its gap. *)
Fixpoint weave (lines gaps : list str) : str :=
  match lines, gaps with
  | [], _ => []
  | L :: lines', [] => L ++ weave lines' []
  | L :: lines', g :: gaps' => L ++ g ++ weave lines' gaps'
  end.

(** A run of white space. *)
Definition all_ws (g : str) : Prop := Forall (fun c => is_ws c = true) g.

(** Lines numbered in increasing order with numbers from [lo] up to, but
    not including, [hi]. *)
Definition numbered (lo hi : Z) (lines : list RenderedLine) : Prop :=
  StronglySorted (fun l1 l2 => line_lineNumber l1 < line_lineNumber l2) lines
  /\ Forall (fun l => lo <= line_lineNumber l < hi) lines.

(** A line that starts at the left margin and has something to display. *)
Definition flush (line : RenderedLine) : Prop :=
  line_indent line = 0 /\ line_segments line <> [].

(** What a line displays: the texts of its segments, one after the other. *)
Definition displayed (line : RenderedLine) : str :=
  concat (map seg_text (line_segments line)).

(** The white space of the text is single spaces: every white-space
    character is a space, and no space follows a space. *)
Fixpoint single_spaced (s : str) : bool :=
  match s with
  | [] => true
  | c :: s' =>
      (negb (is_ws c) || N.eqb c c_space)
      && (negb (N.eqb c c_space)
          || match s' with c2 :: _ => negb (N.eqb c2 c_space) | [] => true end)
      && single_spaced s'
  end.

(** The line has at least one character. *)
Definition nonempty_line (L : str) : bool :=
  match L with [] => false | _ => true end.

(** The cells of one terminal row, from column [col] on, for a run of
    source offsets. *)
Fixpoint row_cells (row col : Z) (offsets : list Z) : list PositionMapping :=
  match offsets with
  | [] => []
  | o :: offsets' => mkPosition row col o :: row_cells row (col + 1) offsets'
  end.

(** One terminal row for each line, from row [row] on: character [j] of a
    line stands at column [1 + indent + j] of the row of its line. *)
Fixpoint grid (lines : list RenderedLine) (row : Z) : list PositionMapping :=
  match lines with
  | [] => []
  | line :: rest =>
      row_cells row (1 + line_indent line)
        (map snd (characters (line_segments line)))
      ++ grid rest (row + 1)
  end.

(** The line, with its indent, is no wider than the terminal. *)
Definition fits (terminalWidth : Z) (line : RenderedLine) : Prop :=
  line_indent line + len (displayed line) <= terminalWidth.

(** The fields of a block agree with its type: a heading is one line and
    has a level from 1 to 4, the number of hashes its line starts with; a
    list says whether it is ordered; a rule and a blank block are one
    line; no other block has a level or an ordered flag. *)
Definition well_formed_block (b : Block) : Prop :=
  match blk_type b with
  | heading =>
      (exists k, blk_level b = Some k /\ 1 <= k <= 4
                 /\ k = Z.of_nat (run_length is_hash (blk_source b)))
      /\ blk_ordered b = None /\ ~ In c_nl (blk_source b)
  | list_block => blk_level b = None /\ blk_ordered b <> None
  | hr | blank => blk_level b = None /\ blk_ordered b = None /\ ~ In c_nl (blk_source b)
  | _ => blk_level b = None /\ blk_ordered b = None
  end.

(* ===================================================================== *)
(** * Properties *)
(* ===================================================================== *)

(** ** Lengths and slices *)

Ltac len_solve :=
  unfold len in *; cbn [opening] in *;
  repeat (rewrite ?length_app in *; cbn [length] in *); lia.

Lemma len_nonneg (s : str) : 0 <= len s.
Proof. unfold len. lia. Qed.

Lemma len_app (s t : str) : len (s ++ t) = len s + len t.
Proof. unfold len. rewrite length_app. lia. Qed.

Lemma len_cons (c : char) (s : str) : len (c :: s) = 1 + len s.
Proof. unfold len. simpl length. lia. Qed.

Lemma len_nil_inv (s : str) : len s = 0 -> s = [].
Proof. destruct s; [reflexivity | rewrite len_cons; pose proof (len_nonneg s); lia]. Qed.

Lemma slice_in_range (s : str) (a b : Z) :
  0 <= a -> a <= b -> b <= len s ->
  slice s a b = take (Z.to_nat (b - a)) (drop (Z.to_nat a) s).
Proof.
  intros Ha Hab Hb. unfold slice, rel_index.
  destruct (a <? 0) eqn:E1; [lia|].
  destruct (b <? 0) eqn:E2; [lia|].
  rewrite !Z.min_l by lia. reflexivity.
Qed.

Lemma len_slice_le (s : str) (a b : Z) : len (slice s a b) <= len s.
Proof.
  unfold slice, len. rewrite length_take, length_drop. lia.
Qed.

Lemma slice_from_drop (s : str) (a : Z) :
  0 <= a -> slice_from s a = drop (Z.to_nat a) s.
Proof.
  intros Ha. unfold slice_from, slice, rel_index.
  pose proof (len_nonneg s).
  destruct (a <? 0) eqn:E1; [lia|].
  destruct (len s <? 0) eqn:E2; [lia|].
  rewrite (Z.min_l (len s)) by lia.
  destruct (Z.le_gt_cases a (len s)).
  - rewrite Z.min_l by lia. apply take_ge. rewrite length_drop. unfold len in *. lia.
  - rewrite Z.min_r by lia. unfold len in *.
    rewrite take_ge by (rewrite length_drop; lia).
    rewrite !drop_ge by lia. reflexivity.
Qed.

Lemma slice_prefix (s : str) (b : Z) :
  0 <= b -> slice s 0 b = take (Z.to_nat b) s.
Proof.
  intros Hb. unfold slice, rel_index. change (0 <? 0) with false. cbv iota.
  pose proof (len_nonneg s).
  destruct (Z.ltb_spec b 0) as [E|E]; [lia|].
  replace (Z.min 0 (len s)) with 0 by lia. rewrite Z.sub_0_r. simpl drop.
  destruct (Z.le_gt_cases b (len s)).
  - rewrite Z.min_l by lia. reflexivity.
  - rewrite Z.min_r by lia. unfold len in *.
    rewrite (take_ge s (Z.to_nat b)) by lia.
    apply take_ge. lia.
Qed.

(** ** Trimming and searching *)

Lemma length_trimStart (s : str) : (length (trimStart s) <= length s)%nat.
Proof. induction s as [|c s IH]; simpl; [lia|]. destruct (is_ws c); simpl; lia. Qed.

Lemma length_trimEnd (s : str) : (length (trimEnd s) <= length s)%nat.
Proof.
  induction s as [|c s IH]; simpl; [lia|].
  destruct (trimEnd s) eqn:E; [destruct (is_ws c)|]; simpl in *; lia.
Qed.

Lemma trimStart_idem (s : str) : trimStart (trimStart s) = trimStart s.
Proof.
  induction s as [|c s IH]; simpl; [reflexivity|].
  destruct (is_ws c) eqn:E; [exact IH|]. simpl. rewrite E. reflexivity.
Qed.

Lemma last_index_bounds (c : char) (s : str) (i acc : Z) :
  acc < i ->
  let r := last_index c s i acc in
  r = acc \/ (i <= r < i + len s).
Proof.
  revert i acc. induction s as [|x s IH]; intros i acc Hacc; simpl.
  - left. reflexivity.
  - rewrite len_cons. pose proof (len_nonneg s).
    destruct (N.eqb x c).
    + destruct (IH (i + 1) i ltac:(lia)) as [-> | H1]; right; lia.
    + destruct (IH (i + 1) acc ltac:(lia)) as [-> | H1]; [left; reflexivity | right; lia].
Qed.

Lemma lastIndexOf_bounds (s : str) (c : char) (pos : Z) :
  let r := lastIndexOf s c pos in
  r = -1 \/ (0 <= r /\ r <= Z.max pos 0 /\ r < len s).
Proof.
  unfold lastIndexOf. destruct (len s =? 0) eqn:E; [left; reflexivity|].
  apply Z.eqb_neq in E. pose proof (len_nonneg s).
  cbv zeta.
  match goal with |- context [last_index c ?t 0 (-1)] =>
    destruct (last_index_bounds c t 0 (-1) ltac:(lia)) as [H1 | H1];
    [left; exact H1 | right] end.
  unfold len in *. rewrite length_take in H1. lia.
Qed.

(** ** Word wrap: every round makes progress *)

Lemma breakPoint_bounds (remaining : str) (width : Z) :
  1 <= width -> 1 <= breakPoint remaining width <= width.
Proof.
  intros Hw. unfold breakPoint.
  pose proof (lastIndexOf_bounds remaining c_space width) as H. cbv zeta in H.
  destruct (lastIndexOf remaining c_space width =? -1) eqn:E1; simpl; [lia|].
  destruct (lastIndexOf remaining c_space width =? 0) eqn:E2; simpl; [lia|].
  apply Z.eqb_neq in E1, E2. lia.
Qed.

Lemma wrap_rest_shorter (remaining : str) (width : Z) :
  1 <= width -> width < len remaining ->
  len (wrap_rest remaining width) <= len remaining - breakPoint remaining width.
Proof.
  intros Hw Hlen. unfold wrap_rest.
  pose proof (breakPoint_bounds remaining width Hw) as Hb.
  rewrite slice_from_drop by lia.
  pose proof (length_trimStart (drop (Z.to_nat (breakPoint remaining width)) remaining)) as H.
  rewrite length_drop in H. unfold len in *. lia.
Qed.

Lemma wrap_line_short (remaining : str) (width : Z) :
  1 <= width ->
  len (trimEnd (slice remaining 0 (breakPoint remaining width))) <= width.
Proof.
  intros Hw. pose proof (breakPoint_bounds remaining width Hw) as Hb.
  rewrite slice_prefix by lia.
  pose proof (length_trimEnd (take (Z.to_nat (breakPoint remaining width)) remaining)) as H.
  rewrite length_take in H. unfold len. lia.
Qed.

Lemma wordWrap_loop_O (remaining : str) (width : Z) :
  wordWrap_loop O remaining width
  = if len remaining >? 0 then Throw RangeError else Ret [].
Proof. reflexivity. Qed.

Lemma wordWrap_loop_S (room : nat) (remaining : str) (width : Z) :
  wordWrap_loop (S room) remaining width
  = if len remaining >? 0 then
      if len remaining <=? width then Ret [remaining]
      else
        let* rest := wordWrap_loop room (wrap_rest remaining width) width in
        Ret (trimEnd (slice remaining 0 (breakPoint remaining width)) :: rest)
    else Ret [].
Proof. reflexivity. Qed.

Lemma wordWrap_loop_nil (room : nat) (width : Z) : wordWrap_loop room [] width = Ret [].
Proof. destruct room; reflexivity. Qed.

Lemma wordWrap_loop_terminates (room : nat) (remaining : str) (width : Z) :
  1 <= width -> (length remaining < room)%nat ->
  exists lines, wordWrap_loop room remaining width = Ret lines
                /\ Forall (fun L => len L <= width) lines.
Proof.
  intros Hw. revert remaining.
  induction room as [|room IH]; intros remaining Hf; [lia|].
  rewrite wordWrap_loop_S.
  destruct (len remaining >? 0) eqn:E0; [|eexists; split; [reflexivity|constructor]].
  destruct (len remaining <=? width) eqn:E1.
  - eexists; split; [reflexivity|]. constructor; [lia|constructor].
  - apply Z.leb_gt in E1.
    pose proof (wrap_rest_shorter remaining width Hw E1) as Hs.
    pose proof (breakPoint_bounds remaining width Hw) as Hb.
    destruct (IH (wrap_rest remaining width)) as (rest & Hrest & Hall).
    { unfold len in Hs. lia. }
    rewrite Hrest. cbn [bind].
    eexists; split; [reflexivity|].
    constructor; [apply wrap_line_short; exact Hw | exact Hall].
Qed.

(** ** Word wrap: the room of the result array

    [wordWrap] gives its loop room for a number of lines fixed in advance.
    The lemmas below show that the number is never what decides the
    outcome: a run that returns does so with any more room, and a run
    that uses up the room uses up any room. *)

Lemma wordWrap_loop_mono (room : nat) (remaining : str) (width : Z) (lines : list str) :
  wordWrap_loop room remaining width = Ret lines ->
  wordWrap_loop (S room) remaining width = Ret lines.
Proof.
  revert remaining lines. induction room as [|room IH]; intros remaining lines H.
  - rewrite wordWrap_loop_O in H. rewrite wordWrap_loop_S.
    destruct (len remaining >? 0); [discriminate|exact H].
  - rewrite wordWrap_loop_S in H. rewrite wordWrap_loop_S.
    destruct (len remaining >? 0); [|exact H].
    destruct (len remaining <=? width); [exact H|].
    destruct (wordWrap_loop room _ width) as [rest|e] eqn:E; [|discriminate].
    rewrite (IH _ _ E). exact H.
Qed.

Lemma wordWrap_loop_more (k room : nat) (remaining : str) (width : Z) (lines : list str) :
  wordWrap_loop room remaining width = Ret lines ->
  wordWrap_loop (k + room) remaining width = Ret lines.
Proof.
  intros H. induction k as [|k IH]; [exact H|]. apply wordWrap_loop_mono. exact IH.
Qed.

Lemma breakPoint_nonpos (remaining : str) (width : Z) :
  width <= 0 -> breakPoint remaining width = width.
Proof.
  intros Hw. unfold breakPoint.
  pose proof (lastIndexOf_bounds remaining c_space width) as H. cbv zeta in H.
  destruct (lastIndexOf remaining c_space width =? -1) eqn:E1; simpl; [reflexivity|].
  destruct (lastIndexOf remaining c_space width =? 0) eqn:E2; simpl; [reflexivity|].
  apply Z.eqb_neq in E1, E2. lia.
Qed.

Lemma slice_from_neg (s : str) (a : Z) :
  a < 0 -> slice_from s a = drop (Z.to_nat (len s + a)) s.
Proof.
  intros Ha. unfold slice_from, slice, rel_index. pose proof (len_nonneg s) as Hs.
  destruct (Z.ltb_spec (len s) 0) as [E|E]; [lia|].
  rewrite (Z.min_l (len s)) by lia.
  destruct (Z.ltb_spec a 0) as [E1|E1]; [|lia].
  replace (Z.to_nat (Z.max (len s + a) 0)) with (Z.to_nat (len s + a)) by lia.
  apply take_ge. rewrite length_drop. unfold len in *. lia.
Qed.

Lemma wrap_rest_nonpos (remaining : str) (width : Z) :
  width <= 0 ->
  wrap_rest remaining width
  = trimStart (drop (Z.to_nat (len remaining + width)) remaining)
  \/ wrap_rest remaining width = trimStart remaining.
Proof.
  intros Hw. unfold wrap_rest. rewrite breakPoint_nonpos by exact Hw.
  destruct (Z.eq_dec width 0) as [->|Hne].
  - right. rewrite slice_from_drop by lia. reflexivity.
  - left. rewrite slice_from_neg by lia. reflexivity.
Qed.

(** At a width of zero or less the second round leaves what the first
    round left. *)
Lemma wrap_rest_idem (remaining : str) (width : Z) :
  width <= 0 ->
  wrap_rest (wrap_rest remaining width) width = wrap_rest remaining width.
Proof.
  intros Hw. unfold wrap_rest. rewrite !breakPoint_nonpos by exact Hw.
  destruct (Z.eq_dec width 0) as [->|Hne].
  - rewrite !slice_from_drop by lia. simpl drop. apply trimStart_idem.
  - rewrite !slice_from_neg by lia.
    set (r1 := trimStart (drop (Z.to_nat (len remaining + width)) remaining)).
    assert (len r1 + width <= 0) as Hr1.
    { pose proof (length_trimStart (drop (Z.to_nat (len remaining + width)) remaining)) as H.
      rewrite length_drop in H. fold r1 in H. unfold len in *. lia. }
    replace (Z.to_nat (len r1 + width)) with O by lia. simpl drop.
    apply trimStart_idem.
Qed.

(** A run whose rounds leave the remaining text as it is pushes a line
    every round and uses up the room of the array, however much it is. *)
Lemma wordWrap_loop_fixpoint (remaining : str) (width : Z) :
  width <= 0 -> remaining <> [] -> wrap_rest remaining width = remaining ->
  forall room, wordWrap_loop room remaining width = Throw RangeError.
Proof.
  intros Hw Hne Hfix room.
  assert (0 < len remaining) as Hlen.
  { destruct remaining; [congruence|]. rewrite len_cons. pose proof (len_nonneg remaining). lia. }
  induction room as [|room IH].
  - rewrite wordWrap_loop_O. destruct (Z.gtb_spec (len remaining) 0); [reflexivity|lia].
  - rewrite wordWrap_loop_S.
    destruct (Z.gtb_spec (len remaining) 0) as [_|E]; [|lia].
    destruct (Z.leb_spec (len remaining) width) as [E|_]; [lia|].
    rewrite Hfix, IH. reflexivity.
Qed.

(** At a width of zero or less the outcome does not depend on the room,
    as long as there is room for one line. *)
Lemma wordWrap_loop_nonpos (room1 room2 : nat) (text : str) (width : Z) :
  width <= 0 ->
  wordWrap_loop (S room1) text width = wordWrap_loop (S room2) text width.
Proof.
  intros Hw. rewrite !wordWrap_loop_S.
  destruct (len text >? 0); [|reflexivity].
  destruct (len text <=? width); [reflexivity|].
  destruct (wrap_rest text width) as [|c r] eqn:E.
  - rewrite !wordWrap_loop_nil. reflexivity.
  - rewrite <- E.
    rewrite !(wordWrap_loop_fixpoint _ _ Hw) by (rewrite ?wrap_rest_idem, ?E; congruence).
    reflexivity.
Qed.

(** The room that [wordWrap] gives its loop is enough: with more room the
    outcome is the same. *)
Theorem wordWrap_room (text : str) (width : Z) (room : nat) :
  (3 + length text <= room)%nat ->
  wordWrap_loop room text width = wordWrap_loop (3 + length text) text width.
Proof.
  intros Hroom. destruct (Z.le_gt_cases 1 width) as [Hw|Hw].
  - destruct (wordWrap_loop_terminates (3 + length text) text width Hw)
      as (lines & Hl & _); [lia|].
    rewrite Hl. replace room with ((room - (3 + length text)) + (3 + length text))%nat
      by lia.
    apply wordWrap_loop_more, Hl.
  - destruct room as [|room]; [lia|].
    apply (wordWrap_loop_nonpos room (2 + length text)). lia.
Qed.

(** [wordWrap] raises exactly when its loop does with any room, and then
    it is the RangeError of the full array. *)
Theorem wordWrap_Throw_any_room (text : str) (width : Z) (e : error) :
  wordWrap text width = Throw e ->
  e = RangeError
  /\ width <= 0
  /\ forall room, wordWrap_loop room text width = Throw RangeError.
Proof.
  intros H. unfold wordWrap in H.
  destruct (Z.leb_spec (len text) width) as [E|E]; [discriminate|].
  destruct (Z.le_gt_cases 1 width) as [Hw|Hw].
  { destruct (wordWrap_loop_terminates (3 + length text) text width Hw) as (l & Hl & _);
      [lia|]. congruence. }
  assert (width <= 0) as Hw0 by lia.
  change (3 + length text)%nat with (S (2 + length text)) in H.
  rewrite wordWrap_loop_S in H.
  destruct (Z.gtb_spec (len text) 0) as [E0|E0]; [|discriminate].
  destruct (Z.leb_spec (len text) width) as [E1|_]; [lia|].
  destruct (wrap_rest text width) as [|c r] eqn:Er.
  { rewrite wordWrap_loop_nil in H. discriminate. }
  assert (forall room, wordWrap_loop room (wrap_rest text width) width = Throw RangeError)
    as Hdiv.
  { apply wordWrap_loop_fixpoint; [exact Hw0|congruence|apply wrap_rest_idem, Hw0]. }
  rewrite <- Er, Hdiv in H. cbn [bind] in H. injection H as <-.
  split; [reflexivity|]. split; [exact Hw0|].
  intros [|room].
  - rewrite wordWrap_loop_O. destruct (Z.gtb_spec (len text) 0); [reflexivity|lia].
  - rewrite wordWrap_loop_S.
    destruct (Z.gtb_spec (len text) 0) as [_|]; [|lia].
    destruct (Z.leb_spec (len text) width) as [|_]; [lia|].
    rewrite Hdiv. reflexivity.
Qed.

Theorem wordWrap_Ret_any_room (text : str) (width : Z) (lines : list str) :
  len text > width ->
  (wordWrap text width = Ret lines <->
   exists room, wordWrap_loop room text width = Ret lines).
Proof.
  intros Hlen. unfold wordWrap.
  destruct (Z.leb_spec (len text) width) as [E|_]; [lia|].
  split; [eauto|]. intros [room H].
  rewrite <- (wordWrap_room text width ((3 + length text) + room)) by lia.
  apply wordWrap_loop_more, H.
Qed.

(** ** The rendering returns *)

Lemma wordWrap_total (text : str) (width : Z) :
  1 <= width ->
  exists lines, wordWrap text width = Ret lines
                /\ Forall (fun L => len L <= width) lines.
Proof.
  intros Hw. unfold wordWrap.
  destruct (Z.leb_spec (len text) width) as [E|E].
  - eexists; split; [reflexivity|]. constructor; [exact E|constructor].
  - apply wordWrap_loop_terminates; [exact Hw|lia].
Qed.

Lemma wordWrapSegments_total (segments : list LineSegment) (width : Z) :
  1 <= width -> exists lines, wordWrapSegments segments width = Ret lines.
Proof.
  intros Hw. unfold wordWrapSegments.
  destruct (len (concat (map seg_text segments)) =? 0); [eauto|].
  destruct (wordWrap_total (concat (map seg_text segments)) width Hw) as (l & -> & _).
  simpl. eauto.
Qed.

Lemma render_quote_total (quoteLines : list str) (terminalWidth offset lineNumber : Z) :
  3 <= terminalWidth ->
  exists r, render_quote quoteLines terminalWidth offset lineNumber = Ret r.
Proof.
  intros Hw. revert offset lineNumber.
  induction quoteLines as [|quoteLine rest IH]; intros offset lineNumber; simpl; [eauto|].
  match goal with |- context [wordWrapSegments ?s ?w] =>
    destruct (wordWrapSegments_total s w ltac:(lia)) as (wl & ->) end.
  simpl. destruct (renumber _ wl lineNumber) as [here lineNumber'].
  destruct (IH (offset + (len quoteLine + 1)) lineNumber') as ([more final] & ->).
  simpl. eauto.
Qed.

Lemma render_list_total (ordered : bool) (listLines : list str)
    (terminalWidth offset itemNum lineNumber : Z) :
  3 <= terminalWidth ->
  exists r, render_list ordered listLines terminalWidth offset itemNum lineNumber = Ret r.
Proof.
  intros Hw. revert offset itemNum lineNumber.
  induction listLines as [|listLine rest IH]; intros offset itemNum lineNumber; simpl; [eauto|].
  destruct (is_blank listLine); [apply IH|].
  match goal with |- context [wordWrapSegments ?s ?w] =>
    destruct (wordWrapSegments_total s w ltac:(lia)) as (wl & ->) end.
  simpl. destruct (renumber _ wl lineNumber) as [here lineNumber'].
  match goal with |- context [render_list ordered rest terminalWidth ?o ?i ?l] =>
    destruct (IH o i l) as ([more final] & ->) end.
  simpl. eauto.
Qed.

Lemma renderBlock_total (block : Block) (terminalWidth lineNumber : Z) :
  4 <= terminalWidth ->
  exists r, renderBlock block terminalWidth lineNumber = Ret r.
Proof.
  intros Hw. unfold renderBlock. destruct (blk_type block).
  - match goal with |- context [wordWrapSegments ?s ?w] =>
      destruct (wordWrapSegments_total s w ltac:(lia)) as (wl & ->) end.
    simpl. eauto.
  - match goal with |- context [wordWrapSegments ?s ?w] =>
      destruct (wordWrapSegments_total s w ltac:(lia)) as (wl & ->) end.
    simpl. eauto.
  - eauto.
  - apply render_list_total. lia.
  - apply render_quote_total. lia.
  - unfold repeat_char. destruct (Z.ltb_spec (Z.min (terminalWidth - 4) 60) 0); [lia|].
    simpl. eauto.
  - eauto.
Qed.

Lemma renderBlocks_from_total (blocks : list Block) (terminalWidth lineNumber : Z) :
  4 <= terminalWidth ->
  exists lines, renderBlocks_from blocks terminalWidth lineNumber = Ret lines.
Proof.
  intros Hw. revert lineNumber.
  induction blocks as [|block rest IH]; intros lineNumber; simpl; [eauto|].
  destruct (renderBlock_total block terminalWidth lineNumber Hw) as ([here ln'] & ->).
  simpl. destruct (IH ln') as (more & ->). simpl. eauto.
Qed.

(** At width 0 a text that starts with a word is never shortened: the
    loop pushes an empty line every round until the array is full. *)
Lemma wordWrap_width_0_fills (text : str) :
  text <> [] -> no_leading_ws text ->
  forall room, wordWrap_loop room text 0 = Throw RangeError.
Proof.
  intros Hne Hlead. apply wordWrap_loop_fixpoint; [lia|exact Hne|].
  unfold wrap_rest. rewrite breakPoint_nonpos by lia.
  rewrite slice_from_drop by lia. simpl drop.
  destruct text as [|c text]; [congruence|]. simpl.
  rewrite (Hlead c eq_refl). reflexivity.
Qed.

(** ** White space at the ends of wrapped lines *)

Lemma trimStart_no_leading (s : str) : no_leading_ws (trimStart s).
Proof.
  induction s as [|c s IH]; simpl; [intros ? [=]|].
  destruct (is_ws c) eqn:E; [exact IH|]. intros c' [= <-]. exact E.
Qed.

Lemma trimEnd_no_trailing (s : str) : no_trailing_ws (trimEnd s).
Proof.
  induction s as [|c s IH]; simpl; [intros ? [=]|].
  destruct (trimEnd s) as [|c1 t] eqn:E.
  - destruct (is_ws c) eqn:Ec; [intros ? [=]|]. intros c' [= <-]. exact Ec.
  - intros c' H. apply IH. rewrite last_cons in H.
    destruct (last (c1 :: t)) eqn:El; [exact H|].
    apply last_None in El. discriminate.
Qed.

Lemma trimEnd_head (s : str) : no_leading_ws s -> no_leading_ws (trimEnd s).
Proof.
  destruct s as [|c s]; simpl; [intros _ ? [=]|].
  intros H. specialize (H c eq_refl).
  destruct (trimEnd s); [rewrite H|]; intros c' [= <-]; exact H.
Qed.

Lemma take_no_leading (n : nat) (s : str) : no_leading_ws s -> no_leading_ws (take n s).
Proof.
  intros H c Hc. apply H. destruct n, s; simpl in *; congruence.
Qed.

Lemma wordWrap_loop_ws (room : nat) (remaining : str) (width : Z) (lines : list str) :
  1 <= width ->
  wordWrap_loop room remaining width = Ret lines ->
  Forall no_trailing_ws (removelast lines)
  /\ Forall no_leading_ws (tail lines)
  /\ (no_leading_ws remaining -> Forall no_leading_ws lines).
Proof.
  intros Hw. revert remaining lines.
  induction room as [|room IH]; intros remaining lines H.
  { rewrite wordWrap_loop_O in H. destruct (len remaining >? 0); [discriminate|].
    injection H as <-. simpl. repeat split; constructor. }
  rewrite wordWrap_loop_S in H. destruct (len remaining >? 0).
  2:{ injection H as <-. simpl. repeat split; constructor. }
  destruct (len remaining <=? width).
  { injection H as <-. simpl. repeat split; try constructor; auto. }
  destruct (wordWrap_loop room _ width) as [rest|e] eqn:E; try discriminate.
  simpl in H. injection H as <-.
  destruct (IH _ _ E) as (Ht & Hl & Hall).
  specialize (Hall (trimStart_no_leading _)).
  pose proof (breakPoint_bounds remaining width Hw) as Hb.
  split; [|split].
  - destruct rest as [|r rest]; [constructor|].
    change (removelast (?a :: r :: rest)) with (a :: removelast (r :: rest)).
    constructor; [apply trimEnd_no_trailing|exact Ht].
  - exact Hall.
  - intros Hrem. constructor; [|exact Hall].
    apply trimEnd_head. rewrite slice_prefix by lia. apply take_no_leading, Hrem.
Qed.

Lemma wordWrap_ws (text : str) (width : Z) (lines : list str) :
  1 <= width ->
  wordWrap text width = Ret lines ->
  Forall no_trailing_ws (removelast lines) /\ Forall no_leading_ws (tail lines).
Proof.
  intros Hw H. unfold wordWrap in H. destruct (len text <=? width).
  - injection H as <-. simpl. split; constructor.
  - destruct (wordWrap_loop_ws _ _ _ _ Hw H) as (? & ? & _). auto.
Qed.

Lemma wordWrap_short (L : str) (width : Z) :
  len L <= width -> wordWrap L width = Ret [L].
Proof.
  intros H. unfold wordWrap. destruct (Z.leb_spec (len L) width); [reflexivity|lia].
Qed.

(** ** The block parser: lines into blocks *)

Lemma span_app {A : Type} (p : A -> bool) (l a b : list A) :
  span p l = (a, b) -> l = a ++ b.
Proof.
  revert a b. induction l as [|x l IH]; intros a b H; simpl in H.
  - injection H as <- <-. reflexivity.
  - destruct (p x).
    + destruct (span p l) as [a' b'] eqn:E. injection H as <- <-.
      simpl. f_equal. apply IH. reflexivity.
    + injection H as <- <-. reflexivity.
Qed.

Lemma join_app (sep : str) (g r : list str) :
  g <> [] -> r <> [] -> join sep (g ++ r) = join sep g ++ sep ++ join sep r.
Proof.
  intros Hg Hr. induction g as [|l g IH]; [congruence|].
  destruct g as [|l' g].
  - simpl. destruct r; [congruence|reflexivity].
  - change (join sep ((l :: l' :: g) ++ r)) with (l ++ sep ++ join sep ((l' :: g) ++ r)).
    rewrite IH by discriminate. simpl. rewrite <- !app_assoc. reflexivity.
Qed.

Lemma consumed_join (g : list str) :
  g <> [] -> consumed g = len (join [c_nl] g) + 1.
Proof.
  induction g as [|l g IH]; [congruence|]. intros _.
  destruct g as [|l' g]; [simpl; lia|].
  change (consumed (l :: l' :: g)) with (len l + 1 + consumed (l' :: g)).
  rewrite IH by discriminate.
  change (join [c_nl] (l :: l' :: g)) with (l ++ [c_nl] ++ join [c_nl] (l' :: g)).
  rewrite !len_app. change (len [c_nl]) with 1. lia.
Qed.

Lemma covers_step (g r : list str) (b : Block) (blocks : list Block) (offset : Z) :
  g <> [] ->
  blk_source b = join [c_nl] g ->
  blk_sourceOffset b = offset ->
  covers (offset + consumed g) r blocks ->
  covers offset (g ++ r) (b :: blocks).
Proof.
  intros Hg Hsrc Hoff (Hjoin & Hchain & Hnil). split; [|split].
  - destruct blocks as [|b' blocks].
    + assert (r = []) as -> by (apply Hnil; reflexivity).
      rewrite app_nil_r. simpl. exact Hsrc.
    + assert (r <> []) as Hr by (intros E; apply Hnil in E; discriminate).
      rewrite join_app by assumption.
      change (map blk_source (b :: b' :: blocks))
        with ([blk_source b] ++ map blk_source (b' :: blocks)).
      rewrite join_app by discriminate. simpl (join _ [_]).
      rewrite Hsrc, Hjoin. reflexivity.
  - simpl. split; [exact Hoff|].
    rewrite Hsrc. rewrite consumed_join in Hchain by exact Hg.
    replace (offset + len (join [c_nl] g) + 1) with (offset + (len (join [c_nl] g) + 1)) by lia.
    exact Hchain.
  - split; [|discriminate]. destruct g; [congruence|discriminate].
Qed.

Lemma span_length {A : Type} (p : A -> bool) (l a b : list A) :
  span p l = (a, b) -> (length b <= length l)%nat.
Proof.
  intros H. apply span_app in H. subst. rewrite length_app. lia.
Qed.

Lemma parseBlocks_loop_covers (fuel : nat) (lines : list str) (offset : Z) :
  (length lines <= fuel)%nat ->
  covers offset lines (parseBlocks_loop fuel lines offset).
Proof.
  revert lines offset. induction fuel as [|fuel IH]; intros lines offset Hf.
  - destruct lines; [|simpl in Hf; lia]. repeat split; auto.
  - destruct lines as [|line rest]; [repeat split; auto|].
    simpl in Hf.
    assert (forall b blocks, blk_source b = line -> blk_sourceOffset b = offset ->
              covers (offset + (len line + 1)) rest blocks ->
              covers offset (line :: rest) (b :: blocks)) as Hone.
    { intros b blocks Hs Ho Hc.
      apply (covers_step [line] rest); [discriminate|exact Hs|exact Ho|].
      simpl. replace (offset + (len line + 1 + 0)) with (offset + (len line + 1)) by lia.
      exact Hc. }
    cbn [parseBlocks_loop].
    destruct (is_blank line); [apply Hone; [reflexivity..|apply IH; lia]|].
    destruct (headingMatch line); [apply Hone; [reflexivity..|apply IH; lia]|].
    destruct (is_hr line); [apply Hone; [reflexivity..|apply IH; lia]|].
    destruct (startsWith fence line).
    { destruct (span _ rest) as [body rest1] eqn:Es.
      pose proof (span_app _ _ _ _ Es) as ->.
      destruct rest1 as [|c rest2].
      - rewrite app_nil_r in *.
        match goal with |- covers _ _ (?b :: ?bs) =>
          pose proof (covers_step (line :: body) [] b bs offset
                        ltac:(discriminate) eq_refl eq_refl) as H end.
        rewrite app_nil_r in H. apply H. apply IH. simpl. lia.
      - change (line :: body ++ c :: rest2) with ((line :: body) ++ [c] ++ rest2).
        rewrite app_assoc.
        apply (covers_step ((line :: body) ++ [c]) rest2);
          [discriminate|reflexivity|reflexivity|].
        apply IH. rewrite length_app in Hf. simpl in Hf. lia. }
    destruct (startsWith [c_gt] line).
    { destruct (span _ rest) as [more rest1] eqn:Es.
      pose proof (span_app _ _ _ _ Es) as ->.
      apply (covers_step (line :: more) rest1);
        [discriminate|reflexivity|reflexivity|].
      apply IH. rewrite length_app in Hf. lia. }
    destruct (starts_unordered line).
    { destruct (span _ rest) as [more rest1] eqn:Es.
      pose proof (span_app _ _ _ _ Es) as ->.
      apply (covers_step (line :: more) rest1);
        [discriminate|reflexivity|reflexivity|].
      apply IH. rewrite length_app in Hf. lia. }
    destruct (starts_ordered line).
    { destruct (span _ rest) as [more rest1] eqn:Es.
      pose proof (span_app _ _ _ _ Es) as ->.
      apply (covers_step (line :: more) rest1);
        [discriminate|reflexivity|reflexivity|].
      apply IH. rewrite length_app in Hf. lia. }
    destruct (span _ rest) as [more rest1] eqn:Es.
    pose proof (span_app _ _ _ _ Es) as ->.
    apply (covers_step (line :: more) rest1);
        [discriminate|reflexivity|reflexivity|].
    apply IH. rewrite length_app in Hf. lia.
Qed.

Lemma split_nl_nonempty (s : str) : split_nl s <> [].
Proof.
  induction s as [|c s IH]; simpl; [discriminate|].
  destruct (N.eqb c c_nl); [discriminate|].
  destruct (split_nl s); discriminate.
Qed.

Lemma join_split_nl (s : str) : join [c_nl] (split_nl s) = s.
Proof.
  induction s as [|c s IH]; [reflexivity|]. simpl.
  pose proof (split_nl_nonempty s) as Hne.
  destruct (split_nl s) as [|l ls]; [congruence|].
  destruct (N.eqb_spec c c_nl) as [->|_].
  - change (join [c_nl] ([] :: l :: ls)) with ([c_nl] ++ join [c_nl] (l :: ls)).
    rewrite IH. reflexivity.
  - destruct ls as [|l' ls]; simpl in *; rewrite <- IH; reflexivity.
Qed.

Lemma parseBlocks_covers (content : str) :
  covers 0 (split_nl content) (parseBlocks content).
Proof. unfold parseBlocks. apply parseBlocks_loop_covers. lia. Qed.

(** ** Pieces of a text and where they stand *)

Lemma located_middle (pre piece post : str) :
  located (pre ++ piece ++ post) (len pre) piece.
Proof.
  split; [apply len_nonneg|]. intros i c H. unfold len. rewrite Nat2Z.id.
  rewrite lookup_app_r by lia.
  replace (length pre + i - length pre)%nat with i by lia.
  apply lookup_app_l_Some. exact H.
Qed.

Lemma located_drop (text : str) (n : nat) (off : Z) (piece : str) :
  located (drop n text) off piece -> located text (Z.of_nat n + off) piece.
Proof.
  intros [H0 H]. split; [lia|]. intros i c Hi. specialize (H i c Hi).
  rewrite lookup_drop in H.
  replace (Z.to_nat (Z.of_nat n + off) + i)%nat with (n + (Z.to_nat off + i))%nat by lia.
  exact H.
Qed.

Lemma located_prefix (piece rest : str) : located (piece ++ rest) 0 piece.
Proof. apply (located_middle [] piece rest). Qed.

Lemma located_slice (text : str) (a b : Z) :
  0 <= a -> located text a (slice text a b).
Proof.
  intros Ha. split; [exact Ha|]. intros i c H.
  unfold slice, rel_index in H. destruct (Z.ltb_spec a 0); [lia|].
  apply lookup_take_Some in H as [H _]. rewrite lookup_drop in H.
  destruct (Z.le_gt_cases a (len text)).
  - rewrite Z.min_l in H by lia. exact H.
  - apply lookup_lt_Some in H. unfold len in *. lia.
Qed.

(** A part of a located piece is located, further on. *)
Lemma located_part (text : str) (off : Z) (piece : str) (a b : Z) :
  located text off piece -> 0 <= a ->
  located text (off + a) (slice piece a b).
Proof.
  intros [H0 H] Ha. split; [lia|]. intros i c Hi.
  destruct (located_slice piece a b Ha) as [_ Hs].
  specialize (H _ _ (Hs i c Hi)).
  replace (Z.to_nat (off + a) + i)%nat with (Z.to_nat off + (Z.to_nat a + i))%nat by lia.
  exact H.
Qed.

(** ** The inline pattern *)

Lemma startsWith_app (p s : str) : startsWith p s = true -> exists rest, s = p ++ rest.
Proof.
  revert s. induction p as [|a p IH]; intros s H; [exists s; reflexivity|].
  destruct s as [|b s]; simpl in H; [discriminate|].
  apply andb_true_iff in H as [Hab Hp]. apply N.eqb_eq in Hab as ->.
  destruct (IH s Hp) as [rest ->]. exists rest. reflexivity.
Qed.

Lemma lazy_until_app (delim s content : str) :
  lazy_until delim s = Some content ->
  content <> [] /\ exists rest, s = content ++ delim ++ rest.
Proof.
  revert content. induction s as [|c s IH]; intros content H; simpl in H; [discriminate|].
  destruct (is_line_terminator c); [discriminate|].
  destruct (startsWith delim s) eqn:E.
  - injection H as <-. split; [discriminate|].
    destruct (startsWith_app _ _ E) as [rest ->]. exists rest. reflexivity.
  - destruct (lazy_until delim s) as [content'|]; [|discriminate].
    injection H as <-. destruct (IH content' eq_refl) as [_ [rest ->]].
    split; [discriminate|]. exists rest. reflexivity.
Qed.

Lemma run_until_app (d : char) (s content : str) :
  run_until d s = Some content ->
  content <> [] /\ exists rest, s = content ++ d :: rest.
Proof.
  unfold run_until. intros H.
  destruct (Nat.leb_spec 1 (run_length (fun c => negb (N.eqb c d)) s)) as [Hk|]; [|discriminate].
  destruct (startsWith [d] (drop _ s)) eqn:E; [|discriminate].
  cbn [andb] in H. injection H as <-. apply startsWith_app in E as [rest E]. split.
  - intros Hnil. apply (f_equal length) in Hnil. rewrite length_take in Hnil.
    assert (length s = 0)%nat as Hs by (simpl in Hnil; lia).
    destruct s; [simpl in Hk; lia|discriminate].
  - exists rest. rewrite <- (take_drop (run_length (fun c => negb (N.eqb c d)) s) s) at 1.
    rewrite E. reflexivity.
Qed.

(** A match starts with its opening delimiter, then the group's text. *)
Lemma match_here_app (s : str) (k : InlineKind) (content : str) (n : Z) :
  match_here s = Some (k, content, n) ->
  content <> [] /\ n <= len s /\ len (opening k) + len content < n /\
  exists rest, s = opening k ++ content ++ rest.
Proof.
  unfold match_here. destruct s as [|c s1]; [discriminate|].
  destruct (N.eqb_spec c c_star) as [->|_].
  { destruct (match s1 with
              | [] => None
              | c2 :: s2 => if N.eqb c2 c_star then lazy_until [c_star; c_star] s2 else None
              end) as [cb|] eqn:Eb.
    - intros [= <- <- <-]. destruct s1 as [|c2 s2]; [discriminate|].
      destruct (N.eqb_spec c2 c_star) as [->|_]; [|discriminate].
      apply lazy_until_app in Eb as [Hne [rest ->]].
      split; [exact Hne|]. split; [len_solve|]. split; [len_solve|].
      exists ([c_star; c_star] ++ rest). reflexivity.
    - destruct (lazy_until [c_star] s1) as [ci|] eqn:Ei; [|discriminate].
      intros [= <- <- <-]. apply lazy_until_app in Ei as [Hne [rest ->]].
      split; [exact Hne|]. split; [len_solve|]. split; [len_solve|].
      exists ([c_star] ++ rest). reflexivity. }
  destruct (N.eqb_spec c c_backtick) as [->|_].
  { destruct (run_until c_backtick s1) as [cc|] eqn:Ec; [|discriminate].
    intros [= <- <- <-]. apply run_until_app in Ec as [Hne [rest ->]].
    split; [exact Hne|]. split; [len_solve|]. split; [len_solve|].
    exists (c_backtick :: rest). reflexivity. }
  destruct (N.eqb_spec c c_lbracket) as [->|_]; [|discriminate].
  destruct (run_until c_rbracket s1) as [cl|] eqn:El; [|discriminate].
  apply run_until_app in El as [Hne [rest ->]].
  replace (drop (S (length cl)) (cl ++ c_rbracket :: rest)) with rest.
  2:{ change (cl ++ c_rbracket :: rest) with (cl ++ [c_rbracket] ++ rest).
      rewrite app_assoc. rewrite drop_app_length'; [reflexivity|].
      rewrite length_app. simpl. lia. }
  destruct rest as [|c2 s2]; [discriminate|].
  destruct (N.eqb_spec c2 c_lparen) as [->|_]; [|discriminate].
  destruct (run_until c_rparen s2) as [url|] eqn:Eu; [|discriminate].
  intros [= <- <- <-]. apply run_until_app in Eu as [_ [rest ->]].
  split; [exact Hne|]. split; [len_solve|]. split; [len_solve|].
  eexists. reflexivity.
Qed.

Lemma exec_inline_spec (s : str) (idx index : Z) (k : InlineKind) (content : str) (n : Z) :
  exec_inline s idx = Some (index, k, content, n) ->
  idx <= index /\ index - idx <= len s /\
  match_here (drop (Z.to_nat (index - idx)) s) = Some (k, content, n).
Proof.
  revert idx. induction s as [|c s IH]; intros idx H.
  - simpl in H. discriminate.
  - cbn [exec_inline] in H. destruct (match_here (c :: s)) as [[[k' c'] n']|] eqn:E.
    + injection H as <- <- <- <-. rewrite Z.sub_diag. simpl drop.
      pose proof (len_nonneg (c :: s)). repeat split; try lia. exact E.
    + apply IH in H as (H1 & H2 & H3). rewrite len_cons.
      replace (Z.to_nat (index - idx)) with (S (Z.to_nat (index - (idx + 1)))) by lia.
      simpl drop. repeat split; try lia. exact H3.
Qed.

Lemma len_slice_in_range (s : str) (a b : Z) :
  0 <= a -> a <= b -> b <= len s -> len (slice s a b) = b - a.
Proof.
  intros. rewrite slice_in_range by lia. unfold len in *.
  rewrite length_take, length_drop. lia.
Qed.

Lemma kind_skip_opening (k : InlineKind) : kind_skip k = len (opening k).
Proof. destruct k; reflexivity. Qed.

Lemma parseInline_loop_ok (text : str) (base : Z) (style : SegmentStyle)
    (fuel : nat) (lastEnd : Z) (segs : list LineSegment) (final : Z) :
  0 <= lastEnd <= len text ->
  parseInline_loop fuel text base style lastEnd = (segs, final) ->
  lastEnd <= final <= len text /\ Forall (inline_ok text base style) segs.
Proof.
  revert lastEnd segs final.
  induction fuel as [|fuel IH]; intros lastEnd segs final Hle H.
  - injection H as <- <-. split; [lia|constructor].
  - cbn [parseInline_loop] in H.
    destruct (exec_inline (drop (Z.to_nat lastEnd) text) lastEnd)
      as [[[[index k] content] n]|] eqn:E.
    2:{ injection H as <- <-. split; [lia|constructor]. }
    apply exec_inline_spec in E as (Hidx & Hlen & Hm).
    assert (len (drop (Z.to_nat lastEnd) text) = len text - lastEnd) as Hd.
    { unfold len in *. rewrite length_drop. lia. }
    rewrite drop_drop in Hm.
    replace (Z.to_nat lastEnd + Z.to_nat (index - lastEnd))%nat
      with (Z.to_nat index) in Hm by lia.
    apply match_here_app in Hm as (Hne & Hn & Hskip & rest & Hsplit).
    assert (len (drop (Z.to_nat index) text) = len text - index) as Hd2.
    { unfold len in *. rewrite length_drop. lia. }
    pose proof (len_nonneg content) as Hc. pose proof (len_nonneg (opening k)) as Ho.
    destruct (parseInline_loop fuel text base style (index + n)) as [more final'] eqn:Er.
    injection H as <- <-.
    destruct (IH (index + n) more final' ltac:(lia) Er) as (Hfin & Hmore).
    split; [lia|].
    apply Forall_app. split.
    + destruct (Z.gtb_spec index lastEnd) as [Hgt|_]; [|constructor].
      constructor; [|constructor]. unfold inline_ok. cbn [seg_text seg_sourceOffset seg_sourceLength seg_style].
      replace (base + lastEnd - base) with lastEnd by lia.
      rewrite len_slice_in_range by lia.
      split; [reflexivity|]. split; [apply located_slice; lia|].
      split; [lia|left; reflexivity].
    + constructor; [|exact Hmore].
      unfold inline_ok. cbn [seg_text seg_sourceOffset seg_sourceLength seg_style].
      rewrite kind_skip_opening.
      replace (base + index + len (opening k) - base) with (index + len (opening k)) by lia.
      assert (located text index (opening k)) as Hopen.
      { replace index with (Z.of_nat (Z.to_nat index) + 0) by lia.
        apply located_drop. rewrite Hsplit. apply located_prefix. }
      assert (located text (index + len (opening k)) content) as Hcont.
      { replace (index + len (opening k))
          with (Z.of_nat (Z.to_nat index) + len (opening k)) by lia.
        apply located_drop. rewrite Hsplit. apply located_middle. }
      split; [reflexivity|]. split; [exact Hcont|]. split; [lia|].
      right. exists k. split; [reflexivity|]. rewrite kind_skip_opening.
      replace (index + len (opening k) - len (opening k)) with index by lia.
      exact Hopen.
Qed.

Theorem parseInline_ok (text : str) (base : Z) (style : SegmentStyle) :
  Forall (inline_ok text base style) (parseInline text base style).
Proof.
  unfold parseInline.
  destruct (parseInline_loop (length text) text base style 0) as [matched lastEnd] eqn:E.
  pose proof (len_nonneg text) as Ht.
  destruct (parseInline_loop_ok text base style (length text) 0 matched lastEnd
              ltac:(lia) E) as (Hfin & Hall).
  assert (Forall (inline_ok text base style)
            (matched ++
             (if lastEnd <? len text
              then [mkSegment (slice_from text lastEnd) (base + lastEnd)
                      (len (slice_from text lastEnd)) (plain_style style)]
              else []))) as Hsegs.
  { apply Forall_app. split; [exact Hall|].
    destruct (Z.ltb_spec lastEnd (len text)); [|constructor].
    constructor; [|constructor]. unfold inline_ok.
    cbn [seg_text seg_sourceOffset seg_sourceLength seg_style].
    replace (base + lastEnd - base) with lastEnd by lia.
    unfold slice_from. rewrite len_slice_in_range by lia.
    split; [reflexivity|]. split; [apply located_slice; lia|].
    split; [lia|left; reflexivity]. }
  destruct (matched ++ _) as [|s0 segs] eqn:Em; [|exact Hsegs].
  constructor; [|constructor]. unfold inline_ok.
  cbn [seg_text seg_sourceOffset seg_sourceLength seg_style].
  replace (base - base) with 0 by lia.
  split; [reflexivity|]. split; [|split; [lia|left; reflexivity]].
  split; [lia|]. intros i c Hi. exact Hi.
Qed.

(** ** The block parser covers the source *)

Lemma chained_offset_le (offset : Z) (blocks : list Block) (b : Block) :
  chained offset blocks -> In b blocks -> offset <= blk_sourceOffset b.
Proof.
  revert offset. induction blocks as [|b0 blocks IH]; intros offset Hc Hin; [destruct Hin|].
  destruct Hc as [Ho Hc]. destruct Hin as [->|Hin]; [lia|].
  specialize (IH _ Hc Hin). pose proof (len_nonneg (blk_source b0)). lia.
Qed.

Lemma chained_apart (offset : Z) (blocks : list Block) (i j : nat) (bi bj : Block) :
  chained offset blocks -> (i < j)%nat ->
  blocks !! i = Some bi -> blocks !! j = Some bj ->
  blk_sourceOffset bi + len (blk_source bi) < blk_sourceOffset bj.
Proof.
  revert offset i j. induction blocks as [|b0 blocks IH]; intros offset i j Hc Hij Hi Hj.
  - discriminate.
  - destruct Hc as [Ho Hc]. destruct j as [|j]; [lia|]. simpl in Hj.
    destruct i as [|i].
    + injection Hi as <-.
      assert (In bj blocks) as Hin by (apply list_elem_of_In, list_elem_of_lookup; eauto).
      pose proof (chained_offset_le _ _ _ Hc Hin). lia.
    + simpl in Hi. apply (IH _ i j Hc); [lia|assumption..].
Qed.

Lemma chained_located (offset : Z) (blocks : list Block) (b : Block) :
  chained offset blocks -> In b blocks ->
  located (join [c_nl] (map blk_source blocks)) (blk_sourceOffset b - offset)
    (blk_source b).
Proof.
  revert offset. induction blocks as [|b0 blocks IH]; intros offset Hc Hin; [destruct Hin|].
  destruct Hc as [Ho Hc]. destruct Hin as [->|Hin].
  - replace (blk_sourceOffset b - offset) with (len (@nil char)) by (unfold len; simpl; lia).
    destruct blocks as [|b1 blocks].
    + simpl. rewrite <- (app_nil_r (blk_source b)) at 1. apply (located_middle [] _ []).
    + change (join [c_nl] (map blk_source (b :: b1 :: blocks)))
        with ([] ++ blk_source b ++ [c_nl] ++ join [c_nl] (map blk_source (b1 :: blocks))).
      apply located_middle.
  - destruct blocks as [|b1 blocks]; [destruct Hin|].
    specialize (IH _ Hc Hin).
    change (join [c_nl] (map blk_source (b0 :: b1 :: blocks)))
      with (blk_source b0 ++ [c_nl] ++ join [c_nl] (map blk_source (b1 :: blocks))).
    rewrite app_assoc.
    replace (blk_sourceOffset b - offset)
      with (Z.of_nat (length (blk_source b0 ++ [c_nl]))
            + (blk_sourceOffset b - (offset + len (blk_source b0) + 1))).
    2:{ rewrite length_app. unfold len. simpl. lia. }
    apply located_drop. rewrite drop_app_length. exact IH.
Qed.

Lemma located_fits (text : str) (off : Z) (piece : str) :
  located text off piece -> piece <> [] -> off + len piece <= len text.
Proof.
  intros [H0 H] Hne.
  destruct (piece !! (length piece - 1)%nat) as [c|] eqn:E.
  - apply H in E. apply lookup_lt_Some in E.
    assert (length piece <> 0)%nat by (destruct piece; [congruence|discriminate]).
    unfold len. lia.
  - apply lookup_ge_None in E. destruct piece; [congruence|simpl in E; lia].
Qed.

Lemma located_slice_eq (text : str) (off : Z) (piece : str) :
  located text off piece -> slice text off (off + len piece) = piece.
Proof.
  intros Hloc. destruct piece as [|c0 piece'] eqn:Ep.
  - destruct Hloc as [H0 _]. unfold slice, rel_index, len. simpl length.
    rewrite Z.add_0_r. destruct (off <? 0); rewrite Z.sub_diag; reflexivity.
  - rewrite <- Ep in *. assert (piece <> []) as Hne by (rewrite Ep; discriminate).
    clear Ep. pose proof (located_fits _ _ _ Hloc Hne) as Hfit.
    destruct Hloc as [H0 H]. pose proof (len_nonneg piece).
    rewrite slice_in_range by lia. apply list_eq. intros i.
    replace (Z.to_nat (off + len piece - off)) with (length piece) by (unfold len; lia).
    destruct (piece !! i) as [c|] eqn:E.
    + pose proof (lookup_lt_Some _ _ _ E) as Hi.
      rewrite lookup_take_lt by lia. rewrite lookup_drop. apply H. exact E.
    + apply lookup_ge_None in E. apply lookup_ge_None. rewrite length_take. lia.
Qed.

(** C2 (as amended).  The blocks of [parseBlocks] come in source order and
    do not overlap: the first starts at offset 0 and each next one starts
    one character (the newline) after the end of the one before; every
    block's source text is the part of the input at its span; and the
    source texts joined with newlines, not merely concatenated, give back
    the input. *)
Theorem parseBlocks_spans (content : str) :
  join [c_nl] (map blk_source (parseBlocks content)) = content
  /\ chained 0 (parseBlocks content)
  /\ (forall b, In b (parseBlocks content) ->
        slice content (blk_sourceOffset b)
          (blk_sourceOffset b + len (blk_source b)) = blk_source b)
  /\ (forall (i j : nat) bi bj, (i < j)%nat ->
        parseBlocks content !! i = Some bi -> parseBlocks content !! j = Some bj ->
        blk_sourceOffset bi + len (blk_source bi) < blk_sourceOffset bj).
Proof.
  destruct (parseBlocks_covers content) as (Hjoin & Hchain & _).
  rewrite join_split_nl in Hjoin.
  split; [exact Hjoin|]. split; [exact Hchain|]. split.
  - intros b Hin. apply located_slice_eq.
    pose proof (chained_located _ _ _ Hchain Hin) as H.
    rewrite Hjoin, Z.sub_0_r in H. exact H.
  - intros i j bi bj. apply (chained_apart 0). exact Hchain.
Qed.

Lemma parseBlocks_spans_witness :
  join [c_nl] (map blk_source (parseBlocks (lit "# a" ++ [c_nl] ++ lit "b")))
  = lit "# a" ++ [c_nl] ++ lit "b"
  /\ map blk_sourceOffset (parseBlocks (lit "# a" ++ [c_nl] ++ lit "b")) = [0; 4]
  /\ slice (lit "# a" ++ [c_nl] ++ lit "b") 4 (4 + len (lit "b")) = lit "b".
Proof.
  destruct (parseBlocks_spans (lit "# a" ++ [c_nl] ++ lit "b")) as (Hjoin & _ & Hslice & _).
  split; [exact Hjoin|]. split; [reflexivity|].
  apply (Hslice (mkBlock paragraph (lit "b") 4 None None)).
  right. left. reflexivity.
Defined.

(** The claim as stated fails: plain concatenation loses the newlines
    between blocks. *)
Lemma parseBlocks_concat_loses_newlines :
  let content := lit "# a" ++ [c_nl] ++ lit "b" in
  concat (map blk_source (parseBlocks content)) = lit "# ab"
  /\ concat (map blk_source (parseBlocks content)) <> content.
Proof. vm_compute. split; [reflexivity|discriminate]. Qed.

(** ** The inline parser's offsets *)





(** ** Word wrap *)

(** C5.  Wrapping "aaaa bbbb cccc" at width 9 gives the two lines
    "aaaa bbbb" and "cccc"; in [wordWrapSegments] the first line covers the
    offsets 0 to 8 (length 9), the second starts at offset 10, and no
    segment of either line covers offset 9, the space at the break. *)
Theorem wordWrap_break_space_dropped :
  wordWrap (lit "aaaa bbbb cccc") 9 = Ret [lit "aaaa bbbb"; lit "cccc"]
  /\ wordWrapSegments (parseInline (lit "aaaa bbbb cccc") 0 no_style) 9
     = Ret [mkLine 1 0 9 [mkSegment (lit "aaaa bbbb") 0 9 MARKDOWN_STYLES.body] 0 false;
            mkLine 2 10 4 [mkSegment (lit "cccc") 10 4 MARKDOWN_STYLES.body] 0 false]
  /\ Forall (fun line =>
               Forall (fun seg =>
                         9 < seg_sourceOffset seg
                         \/ seg_sourceOffset seg + seg_sourceLength seg <= 9)
                 (line_segments line))
       [mkLine 1 0 9 [mkSegment (lit "aaaa bbbb") 0 9 MARKDOWN_STYLES.body] 0 false;
        mkLine 2 10 4 [mkSegment (lit "cccc") 10 4 MARKDOWN_STYLES.body] 0 false].
Proof.
  split; [vm_compute; reflexivity|].
  split; [vm_compute; reflexivity|].
  repeat constructor; cbn; lia.
Qed.

(** C8 (as amended).  For a width of at least 1 [wordWrap] returns, every
    line it returns has at most [w] characters, and wrapping such a line
    again at the same width gives back that line alone.  Every line but the
    last has no trailing white space and every line but the first has no
    leading white space.  A text of at most [w] characters is returned as
    the one line, with the white space it starts and ends with. *)
Theorem wordWrap_rewrap (s : str) (w : Z) :
  1 <= w ->
  exists lines,
    wordWrap s w = Ret lines
    /\ (forall L, In L lines -> len L <= w /\ wordWrap L w = Ret [L])
    /\ Forall no_trailing_ws (removelast lines)
    /\ Forall no_leading_ws (tail lines)
    /\ (len s <= w -> lines = [s]).
Proof.
  intros Hw. destruct (wordWrap_total s w Hw) as (lines & Hret & Hshort).
  exists lines. split; [exact Hret|]. split; [|split; [|split]].
  - intros L HL. rewrite Forall_forall in Hshort.
    assert (len L <= w) as HLw by (apply Hshort, list_elem_of_In, HL).
    split; [exact HLw|apply wordWrap_short, HLw].
  - apply (wordWrap_ws s w lines Hw Hret).
  - apply (wordWrap_ws s w lines Hw Hret).
  - intros Hs. rewrite (wordWrap_short s w Hs) in Hret. injection Hret as <-.
    reflexivity.
Qed.

Lemma wordWrap_rewrap_witness :
  1 <= 9 /\
  exists lines,
    wordWrap (lit "aaaa bbbb cccc") 9 = Ret lines
    /\ (forall L, In L lines -> len L <= 9 /\ wordWrap L 9 = Ret [L])
    /\ Forall no_trailing_ws (removelast lines)
    /\ Forall no_leading_ws (tail lines)
    /\ (len (lit "aaaa bbbb cccc") <= 9 -> lines = [lit "aaaa bbbb cccc"]).
Proof. split; [lia|apply (wordWrap_rewrap (lit "aaaa bbbb cccc") 9); lia]. Defined.

(** The claim as stated fails: the last line keeps a trailing space. *)
Lemma wordWrap_keeps_trailing_space :
  1 <= 5
  /\ wordWrap (lit "aaaa bbbb ") 5 = Ret [lit "aaaa"; lit "bbbb "]
  /\ last (lit "bbbb ") = Some c_space
  /\ ~ (forall lines, wordWrap (lit "aaaa bbbb ") 5 = Ret lines ->
        forall L, In L lines ->
          wordWrap L 5 = Ret [L] /\ len L <= 5
          /\ head L <> Some c_space /\ last L <> Some c_space).
Proof.
  split; [lia|]. split; [vm_compute; reflexivity|]. split; [reflexivity|].
  intros H. specialize (H [lit "aaaa"; lit "bbbb "] ltac:(vm_compute; reflexivity)
                          (lit "bbbb ") ltac:(right; left; reflexivity)).
  destruct H as (_ & _ & _ & H). apply H. reflexivity.
Qed.

(** C10 (as amended).  For a width of at least 1 [wordWrap] returns: every
    round of its loop breaks at an index between 1 and the width and so
    leaves a strictly shorter text.  The render pipeline returns for every
    terminal width of at least 4.  The bound on the width is needed: at
    width 0 a round on the text "a" breaks at index 0 and leaves the text
    as it is, so the loop pushes an empty line every round and the call
    ends when the array is full, with the RangeError of the push. *)
Theorem wordWrap_terminates :
  (forall s w, 1 <= w -> exists lines, wordWrap s w = Ret lines)
  /\ (forall remaining w, 1 <= w -> w < len remaining ->
        1 <= breakPoint remaining w <= w
        /\ len (wrap_rest remaining w) < len remaining)
  /\ (forall content terminalWidth, 4 <= terminalWidth ->
        exists lines, renderBlocks (parseBlocks content) terminalWidth = Ret lines)
  /\ (breakPoint (lit "a") 0 = 0
      /\ wrap_rest (lit "a") 0 = lit "a"
      /\ wordWrap (lit "a") 0 = Throw RangeError
      /\ forall room, wordWrap_loop room (lit "a") 0 = Throw RangeError).
Proof.
  split; [|split; [|split]].
  - intros s w Hw. destruct (wordWrap_total s w Hw) as (lines & H & _). eauto.
  - intros remaining w Hw Hlen.
    pose proof (breakPoint_bounds remaining w Hw).
    pose proof (wrap_rest_shorter remaining w Hw Hlen). lia.
  - intros content tw Hw. apply renderBlocks_from_total. exact Hw.
  - split; [reflexivity|]. split; [reflexivity|]. split; [reflexivity|].
    apply wordWrap_width_0_fills; [discriminate|].
    intros c [= <-]. reflexivity.
Qed.

Lemma wordWrap_terminates_witness :
  (1 <= 9 /\ exists lines, wordWrap (lit "aaaa bbbb cccc") 9 = Ret lines)
  /\ (9 < len (lit "aaaa bbbb cccc")
      /\ 1 <= breakPoint (lit "aaaa bbbb cccc") 9 <= 9
      /\ len (wrap_rest (lit "aaaa bbbb cccc") 9) < len (lit "aaaa bbbb cccc"))
  /\ (4 <= 4 /\ exists lines, renderBlocks (parseBlocks (lit "- abc")) 4 = Ret lines).
Proof.
  destruct wordWrap_terminates as (H1 & H2 & H3 & _).
  split; [split; [lia|apply H1; lia]|].
  split; [split; [vm_compute; reflexivity|apply H2; [lia|vm_compute; reflexivity]]|].
  split; [lia|apply H3; lia].
Defined.

(** The claim as stated fails: the pipeline is not total for all positive
    widths.  At terminal width 2 a list item is wrapped at width 0, where
    no round shortens the text: the loop pushes a line every round until
    the array is full and the push raises.  At terminal width 3 a rule
    repeats its character a negative number of times, which raises. *)
Lemma render_not_total_below_4 :
  renderBlocks (parseBlocks (lit "- abc")) 2 = Throw RangeError
  /\ wrap_rest ([c_bullet; c_space] ++ lit "abc") 0 = [c_bullet; c_space] ++ lit "abc"
  /\ (forall room,
        wordWrap_loop room ([c_bullet; c_space] ++ lit "abc") 0 = Throw RangeError)
  /\ renderBlocks (parseBlocks (lit "---")) 3 = Throw RangeError
  /\ ~ (forall content terminalWidth, 1 <= terminalWidth ->
          exists lines, renderBlocks (parseBlocks content) terminalWidth = Ret lines).
Proof.
  split; [vm_compute; reflexivity|]. split; [reflexivity|]. split.
  { apply wordWrap_width_0_fills; [discriminate|]. intros c [= <-]. reflexivity. }
  split; [vm_compute; reflexivity|].
  intros H. destruct (H (lit "---") 3 ltac:(lia)) as [lines Hl].
  vm_compute in Hl. discriminate Hl.
Qed.

(** ** From a terminal position to a source offset *)

Lemma insert_by_In {A : Type} (key : A -> Z) (x y : A) (l : list A) :
  In y (insert_by key x l) <-> y = x \/ In y l.
Proof.
  induction l as [|z l IH]; simpl; [intuition congruence|].
  destruct (key x <=? key z); simpl; [intuition congruence|].
  rewrite IH. intuition congruence.
Qed.

Lemma sort_by_In {A : Type} (key : A -> Z) (y : A) (l : list A) :
  In y (sort_by key l) <-> In y l.
Proof.
  induction l as [|x l IH]; simpl; [reflexivity|].
  rewrite insert_by_In, IH. intuition congruence.
Qed.

Lemma insert_by_sorted {A : Type} (key : A -> Z) (x : A) (l : list A) :
  StronglySorted (fun a b => key a <= key b) l ->
  StronglySorted (fun a b => key a <= key b) (insert_by key x l).
Proof.
  induction 1 as [|z l Hs IH Hall]; simpl.
  - constructor; constructor.
  - destruct (Z.leb_spec (key x) (key z)).
    + constructor; [constructor; assumption|].
      constructor; [assumption|].
      eapply Forall_impl; [exact Hall|]. simpl. intros; lia.
    + constructor; [exact IH|].
      apply Forall_forall. intros y Hy. apply list_elem_of_In, insert_by_In in Hy.
      destruct Hy as [->|Hy]; [lia|].
      rewrite Forall_forall in Hall. apply Hall, list_elem_of_In, Hy.
Qed.

Lemma sort_by_sorted {A : Type} (key : A -> Z) (l : list A) :
  StronglySorted (fun a b => key a <= key b) (sort_by key l).
Proof.
  induction l as [|x l IH]; simpl; [constructor|]. apply insert_by_sorted, IH.
Qed.

Lemma unique_In (seen xs : list Z) (x : Z) :
  In x (unique seen xs) <-> In x xs /\ ~ In x seen.
Proof.
  revert seen. induction xs as [|y xs IH]; intros seen; simpl; [tauto|].
  destruct (existsb (Z.eqb y) seen) eqn:E.
  - apply existsb_exists in E as (z & Hz & Hyz). apply Z.eqb_eq in Hyz as <-.
    rewrite IH. split; [tauto|]. intros [[->|H] Hn]; tauto.
  - assert (~ In y seen) as Hy.
    { intros Hin. apply not_true_iff_false in E. apply E.
      apply existsb_exists. exists y. split; [exact Hin|apply Z.eqb_refl]. }
    simpl. rewrite IH. simpl. split.
    + intros [->|[H1 H2]]; [tauto|]. split; [tauto|]. tauto.
    + intros [[->|H1] H2]; [tauto|].
      destruct (Z.eq_dec y x) as [->|Hne]; [tauto|]. right. tauto.
Qed.

(** [closest] returns the first element at the least distance. *)
Lemma closest_first {A : Type} (dist : A -> Z) (x0 : A) (xs : list A) :
  exists pre post,
    x0 :: xs = pre ++ closest dist x0 xs :: post
    /\ (forall q, In q pre -> dist (closest dist x0 xs) < dist q)
    /\ (forall q, In q post -> dist (closest dist x0 xs) <= dist q).
Proof.
  unfold closest.
  assert (forall xs prev pre0 post0,
            (forall q, In q pre0 -> dist prev < dist q) ->
            (forall q, In q post0 -> dist prev <= dist q) ->
            let r := fold_left (fun prev curr => if dist curr <? dist prev then curr else prev) xs prev in
            exists pre post,
              pre0 ++ prev :: post0 ++ xs = pre ++ r :: post
              /\ (forall q, In q pre -> dist r < dist q)
              /\ (forall q, In q post -> dist r <= dist q)) as Hgen.
  { clear. induction xs as [|x xs IH]; intros prev pre0 post0 Hpre Hpost; simpl.
    - exists pre0, post0. rewrite app_nil_r. auto.
    - destruct (Z.ltb_spec (dist x) (dist prev)) as [Hlt|Hge].
      + destruct (IH x (pre0 ++ prev :: post0) [] ) as (pre & post & Heq & H1 & H2).
        * intros q Hq. apply in_app_or in Hq as [Hq|[<-|Hq]]; [|lia|].
          -- specialize (Hpre q Hq). lia.
          -- specialize (Hpost q Hq). lia.
        * intros q [].
        * exists pre, post. split; [|auto]. rewrite <- Heq. simpl.
          rewrite <- !app_assoc. simpl. reflexivity.
      + destruct (IH prev pre0 (post0 ++ [x])) as (pre & post & Heq & H1 & H2).
        * exact Hpre.
        * intros q Hq. apply in_app_or in Hq as [Hq|[<-|[]]]; [auto|lia].
        * exists pre, post. split; [|auto]. rewrite <- Heq.
          rewrite <- !app_assoc. reflexivity. }
  destruct (Hgen xs x0 [] []) as (pre & post & Heq & H1 & H2); [intros ? []..|].
  exists pre, post. simpl in Heq. auto.
Qed.

Lemma closest_least {A : Type} (dist : A -> Z) (x0 : A) (xs : list A) :
  In (closest dist x0 xs) (x0 :: xs)
  /\ forall q, In q (x0 :: xs) -> dist (closest dist x0 xs) <= dist q.
Proof.
  destruct (closest_first dist x0 xs) as (pre & post & Heq & H1 & H2).
  rewrite Heq. split; [apply in_or_app; right; left; reflexivity|].
  intros q Hq. apply in_app_or in Hq as [Hq|[<-|Hq]]; [specialize (H1 q Hq)|..]; try lia.
  apply H2, Hq.
Qed.

Lemma minimum_least (o : Z) (os : list Z) :
  In (minimum o os) (o :: os) /\ forall q, In q (o :: os) -> minimum o os <= q.
Proof.
  unfold minimum. revert o. induction os as [|x os IH]; intros o; simpl.
  - split; [auto|]. intros q [<-|[]]. lia.
  - destruct (IH (Z.min o x)) as [Hin Hle]. split.
    + destruct Hin as [Hin|Hin]; [|auto].
      rewrite <- Hin. destruct (Z.min_spec o x) as [[_ ->]|[_ ->]]; auto.
    + intros q [<-|[<-|Hq]].
      * specialize (Hle (Z.min o x) (or_introl eq_refl)). lia.
      * specialize (Hle (Z.min o x) (or_introl eq_refl)). lia.
      * apply Hle. right. exact Hq.
Qed.

Lemma maximum_greatest (o : Z) (os : list Z) :
  In (maximum o os) (o :: os) /\ forall q, In q (o :: os) -> q <= maximum o os.
Proof.
  unfold maximum. revert o. induction os as [|x os IH]; intros o; simpl.
  - split; [auto|]. intros q [<-|[]]. lia.
  - destruct (IH (Z.max o x)) as [Hin Hle]. split.
    + destruct Hin as [Hin|Hin]; [|auto].
      rewrite <- Hin. destruct (Z.max_spec o x) as [[_ ->]|[_ ->]]; auto.
    + intros q [<-|[<-|Hq]].
      * specialize (Hle (Z.max o x) (or_introl eq_refl)). lia.
      * specialize (Hle (Z.max o x) (or_introl eq_refl)). lia.
      * apply Hle. right. exact Hq.
Qed.


Lemma find_first {A : Type} (f : A -> bool) (l : list A) (p : A) :
  List.find f l = Some p ->
  exists pre post, l = pre ++ p :: post /\ f p = true
                   /\ forall q, In q pre -> f q = false.
Proof.
  induction l as [|a l IH]; simpl; [discriminate|].
  destruct (f a) eqn:E.
  - intros [= <-]. exists [], l. repeat split; [exact E|intros ? []].
  - intros H. destruct (IH H) as (pre & post & -> & Hp & Hpre).
    exists (a :: pre), post. repeat split; [exact Hp|].
    intros q [<-|Hq]; [exact E|apply Hpre, Hq].
Qed.

Lemma sorted_after {A : Type} (R : A -> A -> Prop) (pre post : list A) (r : A) :
  StronglySorted R (pre ++ r :: post) -> forall q, In q post -> R r q.
Proof.
  induction pre as [|a pre IH]; simpl; intros H q Hq.
  - apply StronglySorted_inv in H as [_ H]. rewrite Forall_forall in H.
    apply H, list_elem_of_In, Hq.
  - apply StronglySorted_inv in H as [H _]. apply (IH H q Hq).
Qed.

Lemma exact_at_spec (x y : Z) (p : PositionMapping) :
  (pm_terminalRow p =? y) && (pm_terminalCol p =? x) = true <-> exact_at x y p.
Proof. unfold exact_at. rewrite andb_true_iff, !Z.eqb_eq. reflexivity. Qed.

(** On a non-empty position map [terminalToOffset] always returns an
    offset: that of the first entry at exactly (row, col) if there is one;
    otherwise, if the row has entries, that of an entry of the row whose
    column is nearest; otherwise the row nearest to [y] is taken, the
    smaller row on equal distance, and the result is the least offset of
    that row when [y] is above it and the greatest when [y] is below. *)
Lemma terminalToOffset_cases (x y : Z) (positionMap : list PositionMapping) :
  positionMap <> [] ->
  exists offset,
    terminalToOffset x y positionMap = Ret (Some offset)
    /\ ((exists p, first_exact x y positionMap p /\ offset = pm_sourceOffset p)
        \/ ((forall q, In q positionMap -> ~ exact_at x y q)
            /\ exists p, nearest_col x y positionMap p /\ offset = pm_sourceOffset p)
        \/ ((forall q, In q positionMap -> pm_terminalRow q <> y)
            /\ exists r, nearest_row y positionMap r
                 /\ ((y < r /\ min_offset_on_row positionMap r offset)
                     \/ (r < y /\ max_offset_on_row positionMap r offset)))).
Proof.
  intros Hne. unfold terminalToOffset.
  destruct (List.find _ positionMap) as [exact|] eqn:Efind.
  { exists (pm_sourceOffset exact). split; [reflexivity|]. left. exists exact.
    split; [|reflexivity].
    apply find_first in Efind as (pre & post & -> & Hp & Hpre).
    exists pre, post. split; [reflexivity|]. split; [apply exact_at_spec, Hp|].
    intros q Hq Hex. apply exact_at_spec in Hex. rewrite (Hpre q Hq) in Hex. discriminate. }
  assert (forall q, In q positionMap -> ~ exact_at x y q) as Hnoexact.
  { intros q Hq Hex. apply exact_at_spec in Hex.
    rewrite (find_none _ _ Efind q Hq) in Hex. discriminate. }
  destruct (List.filter (on_row y) positionMap) as [|e0 es] eqn:Erow.
  2:{ eexists. split; [reflexivity|]. right. left. split; [exact Hnoexact|].
      eexists. split; [|reflexivity].
      destruct (closest_least (fun p => Z.abs (pm_terminalCol p - x)) e0 es) as [Hin Hle].
      rewrite <- Erow in Hin, Hle. apply filter_In in Hin as [Hin Hrow].
      split; [exact Hin|]. split; [apply Z.eqb_eq, Hrow|].
      intros q Hq Hqrow. apply Hle, filter_In. split; [exact Hq|apply Z.eqb_eq, Hqrow]. }
  assert (forall q, In q positionMap -> pm_terminalRow q <> y) as Hnorow.
  { intros q Hq Hqy.
    assert (In q (List.filter (on_row y) positionMap)) as Hin
      by (apply filter_In; split; [exact Hq|apply Z.eqb_eq, Hqy]).
    rewrite Erow in Hin. destruct Hin. }
  set (rows := sort_by (fun r => r) (unique [] (map pm_terminalRow positionMap))).
  assert (forall r, In r rows <-> exists p, In p positionMap /\ pm_terminalRow p = r) as Hrows.
  { intros r. unfold rows. rewrite sort_by_In, unique_In, in_map_iff.
    split; [intros [(p & Hp & Hin) _]; eauto|].
    intros (p & Hin & Hp). split; [eauto|intros []]. }
  pose proof (sort_by_sorted (fun r => r) (unique [] (map pm_terminalRow positionMap))) as Hsorted.
  fold rows in Hsorted.
  destruct rows as [|r0 rs] eqn:Erows.
  { exfalso. destruct positionMap as [|p0 pm]; [congruence|].
    apply (proj2 (Hrows (pm_terminalRow p0))). exists p0. split; [left|]; reflexivity. }
  set (r := closest (fun r => Z.abs (r - y)) r0 rs).
  destruct (closest_first (fun r => Z.abs (r - y)) r0 rs) as (pre & post & Heq & Hpre & Hpost).
  fold r in Heq, Hpre, Hpost.
  assert (In r (r0 :: rs)) as Hr by (rewrite Heq; apply in_or_app; right; left; reflexivity).
  assert (nearest_row y positionMap r) as Hnear.
  { split; [apply Hrows, Hr|]. intros q Hq.
    assert (In (pm_terminalRow q) (r0 :: rs)) as Hqr by (apply Hrows; eauto).
    rewrite Heq in Hqr. apply in_app_or in Hqr as [Hqr|[Hqr|Hqr]].
    - specialize (Hpre _ Hqr). simpl in Hpre. lia.
    - rewrite <- Hqr. lia.
    - specialize (Hpost _ Hqr). simpl in Hpost. split; [lia|]. intros _.
      rewrite Heq in Hsorted. apply (sorted_after _ _ _ _ Hsorted _ Hqr). }
  destruct (map pm_sourceOffset (List.filter (on_row r) positionMap)) as [|o os] eqn:Eoffs.
  { exfalso. destruct (proj1 (Hrows r) Hr) as (p & Hp & Hpr).
    assert (In (pm_sourceOffset p) (map pm_sourceOffset (List.filter (on_row r) positionMap))) as Hin.
    { apply in_map, filter_In. split; [exact Hp|apply Z.eqb_eq, Hpr]. }
    rewrite Eoffs in Hin. destruct Hin. }
  assert (forall o', In o' (o :: os) <->
            exists p, In p positionMap /\ pm_terminalRow p = r /\ pm_sourceOffset p = o') as Hoffs.
  { intros o'. rewrite <- Eoffs, in_map_iff. split.
    - intros (p & Hp & Hin). apply filter_In in Hin as [Hin Hrow].
      exists p. repeat split; [exact Hin|apply Z.eqb_eq, Hrow|exact Hp].
    - intros (p & Hin & Hrow & Hp). exists p. split; [exact Hp|].
      apply filter_In. split; [exact Hin|apply Z.eqb_eq, Hrow]. }
  destruct (Z.ltb_spec y r) as [Hlt|Hge].
  - eexists. split; [reflexivity|]. right. right. split; [exact Hnorow|].
    exists r. split; [exact Hnear|]. left. split; [exact Hlt|].
    destruct (minimum_least o os) as [Hin Hle]. split; [apply Hoffs, Hin|].
    intros q Hq Hqr. apply Hle, Hoffs. eauto.
  - eexists. split; [reflexivity|]. right. right. split; [exact Hnorow|].
    exists r. split; [exact Hnear|]. right. split.
    + destruct (proj1 (Hrows r) Hr) as (p & Hp & Hpr). specialize (Hnorow p Hp). lia.
    + destruct (maximum_greatest o os) as [Hin Hle]. split; [apply Hoffs, Hin|].
      intros q Hq Hqr. apply Hle, Hoffs. eauto.
Qed.

(** C6.  On a non-empty position map [terminalToOffset] always returns an
    offset (so it returns [null] on no map but, at most, the empty one):
    that of the first entry at exactly (row, col) if there is one;
    otherwise, if the row has entries, that of an entry of the row whose
    column is nearest; otherwise the row nearest to [y] is taken, the
    smaller row on equal distance, and the result is the least offset of
    that row when [y] is above it and the greatest when [y] is below. *)
Theorem terminalToOffset_resolves (x y : Z) (positionMap : list PositionMapping) :
  positionMap <> [] ->
  exists offset,
    terminalToOffset x y positionMap = Ret (Some offset)
    /\ ((exists p, first_exact x y positionMap p /\ offset = pm_sourceOffset p)
        \/ ((forall q, In q positionMap -> ~ exact_at x y q)
            /\ exists p, nearest_col x y positionMap p /\ offset = pm_sourceOffset p)
        \/ ((forall q, In q positionMap -> pm_terminalRow q <> y)
            /\ exists r, nearest_row y positionMap r
                 /\ ((y < r /\ min_offset_on_row positionMap r offset)
                     \/ (r < y /\ max_offset_on_row positionMap r offset)))).
Proof. exact (terminalToOffset_cases x y positionMap). Qed.

Lemma terminalToOffset_resolves_witness :
  [mkPosition 1 1 0; mkPosition 1 2 1; mkPosition 3 1 4] <> []
  /\ exists offset,
       terminalToOffset 5 7 [mkPosition 1 1 0; mkPosition 1 2 1; mkPosition 3 1 4]
       = Ret (Some offset).
Proof.
  split; [discriminate|].
  destruct (terminalToOffset_resolves 5 7
              [mkPosition 1 1 0; mkPosition 1 2 1; mkPosition 3 1 4]
              ltac:(discriminate)) as (offset & H & _).
  exists offset. exact H.
Defined.

(** On an empty map the call does not return [null]: reducing the empty
    list of rows without an initial value raises. *)
Lemma terminalToOffset_empty (x y : Z) : terminalToOffset x y [] = Throw TypeError.
Proof. reflexivity. Qed.

Lemma terminalToOffset_null_only_if_empty (x y : Z) (positionMap : list PositionMapping) :
  terminalToOffset x y positionMap = Ret None -> positionMap = [].
Proof.
  intros H. destruct positionMap as [|p pm]; [reflexivity|].
  destruct (terminalToOffset_cases x y (p :: pm) ltac:(discriminate)) as (o & Ho & _).
  congruence.
Qed.


(** ** The selection controller *)

Section Controller.

Variable opts : Options.

(** The handlers return at once unless the hook is enabled. *)
Hypothesis enabled : opt_enabled opts = true.

Lemma run_app (es1 es2 : list MouseEvent) (c : Controller) :
  run opts (es1 ++ es2) c = run opts es2 (run opts es1 c).
Proof. unfold run. apply fold_left_app. Qed.

Lemma dispatch_press (c : Controller) (press : MouseEvent) (a : Z) :
  is_press press -> resolve opts press = Ret (Some a) ->
  dispatch opts c press
  = mkController (mkSelection true (Some a) (Some a) (Some a) (Some a)) true (notified c).
Proof.
  intros [Hm Hp] Hr. unfold dispatch, handler, handleClick.
  rewrite Hm, Hp, enabled, Hr. reflexivity.
Qed.

Lemma dispatch_move (c : Controller) (move : MouseEvent) (a b : Z) :
  is_move move -> mouseDownRef c = true ->
  sel_anchorOffset (selection c) = Some a -> resolve opts move = Ret (Some b) ->
  let c' := dispatch opts c move in
  selection c' = mkSelection true (Some a) (Some b) (Some (Z.min a b)) (Some (Z.max a b))
  /\ mouseDownRef c' = true.
Proof.
  intros Hm Hd Ha Hr. unfold dispatch, handler, handleMove.
  rewrite Hm, enabled, Hd, Hr. simpl. rewrite Ha. simpl. split; reflexivity.
Qed.

(** A move leaves the anchor and the button state as they are. *)
Lemma dispatch_move_keeps (c : Controller) (move : MouseEvent) :
  is_move move ->
  mouseDownRef (dispatch opts c move) = mouseDownRef c
  /\ sel_anchorOffset (selection (dispatch opts c move)) = sel_anchorOffset (selection c).
Proof.
  intros Hm. unfold dispatch, handler, handleMove. rewrite Hm.
  destruct (negb (opt_enabled opts) || negb (mouseDownRef c)); [split; reflexivity|].
  destruct (resolve opts move) as [[offset|]|]; simpl; try (split; reflexivity).
  destruct (sel_anchorOffset (selection c)) eqn:E; simpl;
    (split; [reflexivity|simpl; congruence]).
Qed.

Lemma run_moves (moves : list MouseEvent) (c : Controller) (a : Z) :
  Forall is_move moves ->
  mouseDownRef c = true -> sel_anchorOffset (selection c) = Some a ->
  let c' := run opts moves c in
  mouseDownRef c' = true
  /\ sel_anchorOffset (selection c') = Some a
  /\ (moves = [] -> c' = c)
  /\ (forall b d, moves <> [] -> resolve opts (List.last moves d) = Ret (Some b) ->
        sel_startOffset (selection c') = Some (Z.min a b)
        /\ sel_endOffset (selection c') = Some (Z.max a b)).
Proof.
  intros Hall Hd Ha. induction moves as [|m moves IH] using rev_ind.
  - simpl. repeat split; try assumption; intros; congruence.
  - apply Forall_app in Hall as [Hall Hm]. apply Forall_inv in Hm.
    destruct (IH Hall) as (Hd' & Ha' & _ & _). clear IH.
    cbv zeta. rewrite run_app. simpl.
    destruct (dispatch_move_keeps (run opts moves c) m Hm) as [Hk1 Hk2].
    split; [congruence|]. split; [congruence|].
    split; [intros Hnil; destruct moves; discriminate|].
    intros b0 d0 _ Hr. rewrite last_last in Hr.
    destruct (dispatch_move (run opts moves c) m a b0 Hm Hd' Ha' Hr) as [Hs _].
    rewrite Hs. split; reflexivity.
Qed.

Lemma dispatch_release (c : Controller) (release : MouseEvent) :
  is_release release ->
  sel_startOffset (selection (dispatch opts c release)) = sel_startOffset (selection c)
  /\ sel_endOffset (selection (dispatch opts c release)) = sel_endOffset (selection c).
Proof.
  intros [Hm Hp]. unfold dispatch, handler, handleRelease. rewrite Hm, Hp.
  destruct (negb (opt_enabled opts)); simpl; split; reflexivity.
Qed.

Lemma dispatch_ordered (c : Controller) (event : MouseEvent) :
  ordered (selection c) -> ordered (selection (dispatch opts c event)).
Proof.
  intros Hc. unfold dispatch, handler.
  destruct (ev_isMotion event); [|destruct (ev_pressed event)].
  - unfold handleMove.
    destruct (negb (opt_enabled opts) || negb (mouseDownRef c)); [exact Hc|].
    destruct (resolve opts event) as [[offset|]|]; simpl; try exact Hc.
    destruct (sel_anchorOffset (selection c)); simpl; [|exact Hc].
    intros s e [= <-] [= <-]. lia.
  - unfold handleClick. destruct (negb (opt_enabled opts)); [exact Hc|].
    destruct (resolve opts event) as [[offset|]|]; simpl; try exact Hc.
    intros s e [= <-] [= <-]. lia.
  - unfold handleRelease. destruct (negb (opt_enabled opts)); [exact Hc|].
    simpl. exact Hc.
Qed.

Lemma run_ordered (events : list MouseEvent) (c : Controller) :
  ordered (selection c) -> ordered (selection (run opts events c)).
Proof.
  revert c. induction events as [|e events IH]; intros c Hc; [exact Hc|].
  simpl. apply IH, dispatch_ordered, Hc.
Qed.

Lemma dispatch_release_notified (c : Controller) (release : MouseEvent) :
  opt_onSelectionChange opts = true -> is_release release ->
  (nonempty_range (selection c)
   /\ exists d,
        notified (dispatch opts c release) = notified c ++ [Some d]
        /\ sel_startOffset (selection c) = Some (ds_startOffset d)
        /\ sel_endOffset (selection c) = Some (ds_endOffset d))
  \/ (~ nonempty_range (selection c)
      /\ notified (dispatch opts c release) = notified c).
Proof.
  intros Hcb [Hm Hp]. unfold dispatch, handler, handleRelease.
  rewrite Hm, Hp, enabled. cbn [negb]. unfold getSelectionData. cbn [sel_startOffset sel_endOffset].
  destruct (sel_startOffset (selection c)) as [s|] eqn:Es;
    [destruct (sel_endOffset (selection c)) as [e|] eqn:Ee|].
  - destruct (Z.eqb_spec s e) as [->|Hne].
    + right. split; [|reflexivity]. intros (s' & e' & H1 & H2 & H3). congruence.
    + left. split; [exists s, e; auto|]. cbn [ds_startOffset ds_endOffset].
      destruct (Z.eqb_spec s e) as [|_]; [contradiction|]. cbn [negb].
      unfold notify. rewrite Hcb. eexists. split; [reflexivity|]. split; reflexivity.
  - right. split; [|reflexivity]. intros (s' & e' & H1 & H2 & H3). congruence.
  - right. split; [|reflexivity]. intros (s' & e' & H1 & H2 & H3). congruence.
Qed.

End Controller.

(** C7 (as amended).  [handleRelease] resolves no coordinate: where the
    pointer is released plays no part.  A press that resolves to [a], then
    any moves, the last of which resolves to [b] (with no move at all, [b]
    is [a]), then a release anywhere: the selection holds the pair
    (min a b, max a b).  And after any sequence of events the pair is in
    order whenever both ends are set. *)
Theorem selection_normalized (opts : Options) (c0 : Controller)
    (press release : MouseEvent) (moves : list MouseEvent) (a b : Z) :
  opt_enabled opts = true ->
  is_press press -> Forall is_move moves -> is_release release ->
  resolve opts press = Ret (Some a) ->
  resolve opts (List.last moves press) = Ret (Some b) ->
  (let c := run opts (press :: moves ++ [release]) c0 in
   sel_startOffset (selection c) = Some (Z.min a b)
   /\ sel_endOffset (selection c) = Some (Z.max a b))
  /\ (forall events, ordered (selection (run opts events initial)))
  /\ (forall c event, ordered (selection c) ->
        ordered (selection (dispatch opts c event))).
Proof.
  intros He Hp Hm Hr Ha Hb. split; [|split].
  - cbv zeta. change (press :: moves ++ [release]) with ([press] ++ moves ++ [release]).
    rewrite !run_app. simpl (run opts [press] c0). simpl (run opts [release] _).
    rewrite (dispatch_press opts He c0 press a Hp Ha).
    set (c1 := mkController _ true (notified c0)).
    destruct (run_moves opts He moves c1 a Hm eq_refl eq_refl) as (_ & _ & Hnil & Hlast).
    destruct (dispatch_release opts (run opts moves c1) release Hr) as [-> ->].
    destruct moves as [|m moves].
    + simpl in Hb. rewrite Ha in Hb. injection Hb as <-.
      rewrite Z.min_id, Z.max_id. split; reflexivity.
    + apply (Hlast b press); [discriminate|exact Hb].
  - intros events. apply run_ordered. intros s e [=].
  - intros c event. apply dispatch_ordered.
Qed.

Lemma selection_normalized_witness :
  let opts := mkOptions true [mkPosition 1 1 0; mkPosition 1 2 1; mkPosition 1 3 2]
                (lit "abc") 0 0 true in
  let press := mkMouseEvent 3 1 true false in
  let move := mkMouseEvent 1 1 true true in
  let release := mkMouseEvent 1 1 false false in
  resolve opts press = Ret (Some 2)
  /\ resolve opts move = Ret (Some 0)
  /\ sel_startOffset (selection (run opts [press; move; release] initial)) = Some 0
  /\ sel_endOffset (selection (run opts [press; move; release] initial)) = Some 2.
Proof.
  cbv zeta. split; [reflexivity|]. split; [reflexivity|].
  apply (proj1 (selection_normalized
                  (mkOptions true [mkPosition 1 1 0; mkPosition 1 2 1; mkPosition 1 3 2]
                     (lit "abc") 0 0 true)
                  initial (mkMouseEvent 3 1 true false) (mkMouseEvent 1 1 false false)
                  [mkMouseEvent 1 1 true true] 2 0
                  eq_refl (conj eq_refl eq_refl)
                  ltac:(repeat constructor)
                  (conj eq_refl eq_refl) eq_refl eq_refl)).
Defined.

(** The claim as stated fails.  A press on the third character and, with
    no move in between, a release on the first: the press resolves to 2 and
    the position of the release to 0, and the selection is left at (2, 2),
    not at (0, 2). *)
Lemma release_offset_not_used :
  resolve (mkOptions true [mkPosition 1 1 0; mkPosition 1 2 1; mkPosition 1 3 2]
             (lit "abc") 0 0 true) (mkMouseEvent 3 1 true false) = Ret (Some 2)
  /\ resolve (mkOptions true [mkPosition 1 1 0; mkPosition 1 2 1; mkPosition 1 3 2]
                (lit "abc") 0 0 true) (mkMouseEvent 1 1 false false) = Ret (Some 0)
  /\ is_press (mkMouseEvent 3 1 true false)
  /\ is_release (mkMouseEvent 1 1 false false)
  /\ selection
       (run (mkOptions true [mkPosition 1 1 0; mkPosition 1 2 1; mkPosition 1 3 2]
               (lit "abc") 0 0 true)
          [mkMouseEvent 3 1 true false; mkMouseEvent 1 1 false false] initial)
     = mkSelection false (Some 2) (Some 2) (Some 2) (Some 2)
  /\ ~ (sel_startOffset
         (selection
            (run (mkOptions true [mkPosition 1 1 0; mkPosition 1 2 1; mkPosition 1 3 2]
                    (lit "abc") 0 0 true)
               [mkMouseEvent 3 1 true false; mkMouseEvent 1 1 false false] initial))
       = Some (Z.min 2 0)
       /\ sel_endOffset
            (selection
               (run (mkOptions true [mkPosition 1 1 0; mkPosition 1 2 1; mkPosition 1 3 2]
                       (lit "abc") 0 0 true)
                  [mkMouseEvent 3 1 true false; mkMouseEvent 1 1 false false] initial))
          = Some (Z.max 2 0)).
Proof.
  split; [reflexivity|]. split; [reflexivity|].
  split; [split; reflexivity|]. split; [split; reflexivity|].
  split; [reflexivity|]. intros [H _]. vm_compute in H. discriminate H.
Qed.

(** C9.  With the callback given, a release invokes it exactly when the
    range of the state is set and not empty, and then with that range; a
    press released at once leaves start and end equal, has no selection
    data, and the release invokes nothing. *)
Theorem release_notifies_nonempty (opts : Options) (c : Controller)
    (release : MouseEvent) :
  opt_enabled opts = true -> opt_onSelectionChange opts = true ->
  is_release release ->
  ((nonempty_range (selection c)
    /\ exists d,
         notified (dispatch opts c release) = notified c ++ [Some d]
         /\ sel_startOffset (selection c) = Some (ds_startOffset d)
         /\ sel_endOffset (selection c) = Some (ds_endOffset d))
   \/ (~ nonempty_range (selection c)
       /\ notified (dispatch opts c release) = notified c))
  /\ (forall press a,
        is_press press -> resolve opts press = Ret (Some a) ->
        let c2 := run opts [press; release] c in
        sel_startOffset (selection c2) = Some a
        /\ sel_endOffset (selection c2) = Some a
        /\ getSelectionData (opt_content opts) (selection c2) = None
        /\ notified c2 = notified c).
Proof.
  intros He Hcb Hr. split; [apply dispatch_release_notified; assumption|].
  intros press a Hp Ha. cbv zeta. simpl.
  rewrite (dispatch_press opts He c press a Hp Ha).
  set (c1 := mkController _ true (notified c)).
  destruct (dispatch_release opts c1 release Hr) as [Hs Hen].
  rewrite Hs, Hen. split; [reflexivity|]. split; [reflexivity|]. split.
  - unfold getSelectionData. rewrite Hs, Hen. simpl. rewrite Z.eqb_refl. reflexivity.
  - destruct (dispatch_release_notified opts He c1 release Hcb Hr) as [[Hne _]|[_ H]].
    + destruct Hne as (s & e & [= <-] & [= <-] & Hne). congruence.
    + exact H.
Qed.

Lemma release_notifies_nonempty_witness :
  let opts := mkOptions true [mkPosition 1 1 0; mkPosition 1 2 1; mkPosition 1 3 2]
                (lit "abc") 0 0 true in
  let press := mkMouseEvent 3 1 true false in
  let release := mkMouseEvent 3 1 false false in
  resolve opts press = Ret (Some 2)
  /\ sel_startOffset (selection (run opts [press; release] initial)) = Some 2
  /\ sel_endOffset (selection (run opts [press; release] initial)) = Some 2
  /\ getSelectionData (opt_content opts)
       (selection (run opts [press; release] initial)) = None
  /\ notified (run opts [press; release] initial) = notified initial.
Proof.
  cbv zeta. split; [reflexivity|].
  apply (proj2 (release_notifies_nonempty
                  (mkOptions true [mkPosition 1 1 0; mkPosition 1 2 1; mkPosition 1 3 2]
                     (lit "abc") 0 0 true)
                  initial (mkMouseEvent 3 1 false false)
                  eq_refl eq_refl (conj eq_refl eq_refl))
           (mkMouseEvent 3 1 true false) 2 (conj eq_refl eq_refl) eq_refl).
Defined.


(** ** Every displayed character and its source offset *)

Section Segments.

(** The document being rendered. *)
Variable content : str.

Lemma located_shown (off : Z) (text : str) :
  located content off text -> shown_at content off text.
Proof.
  intros [H0 H]. split; [exact H0|]. intros i c Hi.
  exists c. split; [apply H, Hi|left; reflexivity].
Qed.

Lemma shown_at_located (base : Z) (text : str) (d : Z) (piece : str) :
  shown_at content base text -> located text d piece ->
  shown_at content (base + d) piece.
Proof.
  intros [H0 H] [Hd Hp]. split; [lia|]. intros i c Hi.
  destruct (H _ _ (Hp i c Hi)) as (c0 & Hc0 & Hs). exists c0. split; [|exact Hs].
  replace (Z.to_nat (base + d) + i)%nat with (Z.to_nat base + (Z.to_nat d + i))%nat by lia.
  exact Hc0.
Qed.

Lemma shown_at_part (off : Z) (text : str) (a b : Z) :
  shown_at content off text -> 0 <= a -> shown_at content (off + a) (slice text a b).
Proof.
  intros H Ha. apply (shown_at_located off text); [exact H|].
  apply located_slice, Ha.
Qed.

Lemma located_trans (base : Z) (text : str) (d : Z) (piece : str) :
  located content base text -> located text d piece ->
  located content (base + d) piece.
Proof.
  intros [H0 H] [Hd Hp]. split; [lia|]. intros i c Hi.
  replace (Z.to_nat (base + d) + i)%nat with (Z.to_nat base + (Z.to_nat d + i))%nat by lia.
  apply H, Hp, Hi.
Qed.

Lemma located_app_l (text : str) (off : Z) (a b : str) :
  located text off (a ++ b) -> located text off a.
Proof.
  intros [H0 H]. split; [exact H0|]. intros i c Hi. apply H.
  apply lookup_app_l_Some, Hi.
Qed.

Lemma located_app_r (text : str) (off : Z) (a b : str) :
  located text off (a ++ b) -> located text (off + len a) b.
Proof.
  intros [H0 H]. pose proof (len_nonneg a). split; [lia|]. intros i c Hi.
  replace (Z.to_nat (off + len a) + i)%nat with (Z.to_nat off + (length a + i))%nat
    by (unfold len; lia).
  apply H. rewrite lookup_app_r by lia.
  replace (length a + i - length a)%nat with i by lia. exact Hi.
Qed.

Lemma located_refl (text : str) : located text 0 text.
Proof. split; [lia|]. intros i c Hi. exact Hi. Qed.

(** *** Word wrap hands out parts of the segments it was given *)


Lemma line_parts_part (segments : list LineSegment)
    (segmentOffset lineTextStart lineTextEnd : Z) :
  Forall (part_of segments)
    (line_parts segments segmentOffset lineTextStart lineTextEnd).
Proof.
  assert (forall rest, (forall s, In s rest -> In s segments) ->
            forall so, Forall (part_of segments) (line_parts rest so lineTextStart lineTextEnd)) as H.
  { induction rest as [|segment rest IH]; intros Hsub so; simpl; [constructor|].
    apply Forall_app. split; [|apply IH; intros s Hs; apply Hsub; right; exact Hs].
    destruct (_ && _); [|constructor].
    destruct (_ >? _); [|constructor].
    constructor; [|constructor].
    exists segment, (Z.max so lineTextStart - so), (Z.min (so + len (seg_text segment)) lineTextEnd - so).
    split; [apply Hsub; left; reflexivity|]. split; [lia|]. reflexivity. }
  apply H. auto.
Qed.

Lemma wrapped_lines_part (segments : list LineSegment) (fullText : str)
    (wrappedLines : list str) (textOffset lineNumber : Z) :
  Forall (fun line => Forall (part_of segments) (line_segments line))
    (wrapped_lines segments fullText wrappedLines textOffset lineNumber).
Proof.
  revert textOffset lineNumber.
  induction wrappedLines as [|wl rest IH]; intros textOffset lineNumber; simpl; [constructor|].
  pose proof (line_parts_part segments 0 textOffset (textOffset + len wl)) as Hparts.
  destruct (line_parts segments 0 textOffset (textOffset + len wl)) as [|first more] eqn:E.
  - apply IH.
  - constructor; [exact Hparts|apply IH].
Qed.

Lemma part_ok (segments : list LineSegment) (seg' : LineSegment) :
  Forall (segment_ok content) segments -> part_of segments seg' ->
  segment_ok content seg'.
Proof.
  intros Hall (seg & a & b & Hin & Ha & ->) Hsrc.
  rewrite Forall_forall in Hall. specialize (Hall seg (proj2 (list_elem_of_In _ _) Hin)).
  unfold shows_source. cbn [seg_text seg_sourceOffset].
  apply shown_at_part; [|exact Ha]. apply Hall. exact Hsrc.
Qed.

Lemma wordWrapSegments_ok (segments : list LineSegment)
    (width : Z) (lines : list RenderedLine) :
  Forall (segment_ok content) segments ->
  wordWrapSegments segments width = Ret lines ->
  Forall (line_ok content) lines.
Proof.
  intros Hall H. unfold wordWrapSegments in H.
  destruct (len (concat (map seg_text segments)) =? 0).
  - injection H as <-. constructor; [|constructor]. constructor; [|constructor].
    intros Hsrc. exfalso. apply Hsrc. reflexivity.
  - destruct (wordWrap _ width) as [wrappedLines|]; try discriminate.
    simpl in H. injection H as <-.
    eapply Forall_impl; [apply wrapped_lines_part|].
    intros line Hparts. unfold line_ok.
    eapply Forall_impl; [exact Hparts|]. intros seg'. apply part_ok, Hall.
Qed.

Lemma renumber_ok (patch : RenderedLine -> RenderedLine)
    (wrapped : list RenderedLine) (lineNumber : Z) :
  (forall wl, line_segments (patch wl) = line_segments wl) ->
  Forall (line_ok content) wrapped ->
  Forall (line_ok content) (fst (renumber patch wrapped lineNumber)).
Proof.
  intros Hpatch. revert lineNumber.
  induction wrapped as [|wl rest IH]; intros lineNumber Hall; simpl; [constructor|].
  apply Forall_cons in Hall as [Hwl Hrest].
  specialize (IH (lineNumber + 1) Hrest).
  destruct (renumber patch rest (lineNumber + 1)) as [rest' final]. simpl in *.
  constructor; [|exact IH]. unfold line_ok in *. cbn [line_segments].
  rewrite Hpatch. exact Hwl.
Qed.

Lemma parseInline_shown (text : str) (base : Z) (style : SegmentStyle) :
  shown_at content base text ->
  Forall (shows_source content) (parseInline text base style).
Proof.
  intros Hshown. eapply Forall_impl; [apply parseInline_ok|].
  intros seg (_ & Hloc & _ & _). unfold shows_source.
  replace (seg_sourceOffset seg) with (base + (seg_sourceOffset seg - base)) by lia.
  apply (shown_at_located base text); assumption.
Qed.

Lemma parseInline_segments_ok (text : str) (base : Z) (style : SegmentStyle) :
  shown_at content base text ->
  Forall (segment_ok content) (parseInline text base style).
Proof.
  intros H. eapply Forall_impl; [apply parseInline_shown, H|].
  intros seg Hs _. exact Hs.
Qed.

(** *** What the markers leave is the end of the line *)

Lemma suffix_located (line pre text : str) :
  line = pre ++ text -> located line (len line - len text) text.
Proof.
  intros ->. rewrite len_app. replace (len pre + len text - len text) with (len pre) by lia.
  rewrite <- (app_nil_r text) at 1. apply located_middle.
Qed.

Lemma drop_suffix (n : nat) (s : str) : exists pre, s = pre ++ drop n s.
Proof. exists (take n s). symmetry. apply take_drop. Qed.

Lemma strip_quote_marker_suffix (quoteLine : str) :
  exists pre, quoteLine = pre ++ strip_quote_marker quoteLine.
Proof.
  unfold strip_quote_marker. destruct quoteLine as [|c s]; [exists []; reflexivity|].
  destruct (N.eqb c c_gt); [|exists []; reflexivity].
  destruct s as [|c2 s2]; [exists [c]; reflexivity|].
  destruct (is_ws c2); [exists [c; c2]|exists [c]]; reflexivity.
Qed.

Lemma strip_unordered_marker_suffix (s : str) :
  exists pre, s = pre ++ strip_unordered_marker s.
Proof.
  unfold strip_unordered_marker. destruct s as [|c s1]; [exists []; reflexivity|].
  destruct (_ && _); [|exists []; reflexivity].
  destruct (drop_suffix (run_length is_ws s1) s1) as [pre Hpre].
  exists (c :: pre). simpl. f_equal. exact Hpre.
Qed.

Lemma strip_ordered_marker_suffix (s : str) :
  exists pre, s = pre ++ strip_ordered_marker s.
Proof.
  unfold strip_ordered_marker.
  destruct (drop (run_length is_digit s) s) as [|c s1] eqn:E; [exists []; reflexivity|].
  destruct (_ && _); [|exists []; reflexivity].
  destruct (drop_suffix (run_length is_ws s1) s1) as [pre Hpre].
  exists (take (run_length is_digit s) s ++ c :: pre).
  rewrite <- (take_drop (run_length is_digit s) s) at 1. rewrite E.
  rewrite <- app_assoc. simpl. do 2 f_equal. exact Hpre.
Qed.

Lemma strip_list_markers_suffix (s : str) :
  exists pre, s = pre ++ strip_ordered_marker (strip_unordered_marker s).
Proof.
  destruct (strip_unordered_marker_suffix s) as [pre1 H1].
  destruct (strip_ordered_marker_suffix (strip_unordered_marker s)) as [pre2 H2].
  exists (pre1 ++ pre2). rewrite <- app_assoc, <- H2. exact H1.
Qed.

(** *** The lines of a block *)

Lemma join_located (ls : list str) (offset : Z) :
  located content offset (join [c_nl] ls) -> lines_located content offset ls.
Proof.
  revert offset. induction ls as [|l ls IH]; intros offset H; [exact I|].
  destruct ls as [|l' ls].
  - simpl in *. split; [exact H|exact I].
  - change (join [c_nl] (l :: l' :: ls)) with (l ++ [c_nl] ++ join [c_nl] (l' :: ls)) in H.
    split; [apply located_app_l in H; exact H|].
    apply IH. apply located_app_r in H. apply located_app_r in H.
    change (len [c_nl]) with 1 in H.
    replace (offset + (len l + 1)) with (offset + len l + 1) by lia. exact H.
Qed.

Lemma split_nl_located (source : str) (offset : Z) :
  located content offset source ->
  lines_located content offset (split_nl source).
Proof. intros H. apply join_located. rewrite join_split_nl. exact H. Qed.

Lemma render_code_ok (codeLines : list str) (offset lineNumber : Z) :
  lines_located content offset codeLines ->
  Forall (line_ok content) (fst (render_code codeLines offset lineNumber)).
Proof.
  revert offset lineNumber.
  induction codeLines as [|codeLine rest IH]; intros offset lineNumber Hl;
    cbn [render_code]; [constructor|].
  destruct Hl as [Hloc Hrest].
  destruct (startsWith fence codeLine); [apply IH, Hrest|].
  specialize (IH _ (lineNumber + 1) Hrest).
  destruct (render_code rest _ (lineNumber + 1)) as [more final]. cbn [fst] in *.
  constructor; [|exact IH]. constructor; [|constructor].
  intros _. apply located_shown. exact Hloc.
Qed.

(** A line drawn as a marker of the renderer's own followed by the inline
    segments of what the source marker leaves. *)
Lemma marked_line_ok (line text : str) (offset : Z) (marker : LineSegment)
    (style : SegmentStyle) (width : Z) (wrapped : list RenderedLine) :
  located content offset line ->
  (exists pre, line = pre ++ text) ->
  st_type (seg_style marker) = None ->
  wordWrapSegments
    (marker :: parseInline text (offset + (len line - len text)) style) width
  = Ret wrapped ->
  Forall (line_ok content) wrapped.
Proof.
  intros Hloc [pre Hpre] Hmark Hw.
  eapply wordWrapSegments_ok; [|exact Hw].
  constructor; [intros Hsrc; contradiction|].
  apply parseInline_segments_ok. apply located_shown.
  apply (located_trans offset line); [exact Hloc|].
  apply (suffix_located line pre text Hpre).
Qed.

Lemma render_quote_ok (terminalWidth : Z) (quoteLines : list str)
    (offset lineNumber : Z) (r : list RenderedLine * Z) :
  lines_located content offset quoteLines ->
  render_quote quoteLines terminalWidth offset lineNumber = Ret r ->
  Forall (line_ok content) (fst r).
Proof.
  revert offset lineNumber r.
  induction quoteLines as [|quoteLine rest IH]; intros offset lineNumber r Hl H;
    cbn [render_quote] in H.
  - injection H as <-. constructor.
  - destruct Hl as [Hloc Hrest].
    destruct (wordWrapSegments _ (terminalWidth - 2)) as [wrappedQuote|] eqn:Ew;
      try discriminate.
    cbn [bind] in H.
    pose proof (renumber_ok (set_span offset (len quoteLine)) wrappedQuote lineNumber
                  (fun wl => eq_refl)) as Hren.
    destruct (renumber _ wrappedQuote lineNumber) as [here lineNumber'].
    destruct (render_quote rest terminalWidth _ lineNumber') as [[more final]|] eqn:Er;
      try discriminate.
    cbn [bind] in H. injection H as <-. cbn [fst] in *.
    apply Forall_app. split; [|apply (IH _ _ _ Hrest Er)].
    apply Hren.
    eapply (marked_line_ok quoteLine);
      [exact Hloc|apply strip_quote_marker_suffix| |exact Ew]. reflexivity.
Qed.

Lemma render_list_ok (ordered : bool) (terminalWidth : Z)
    (listLines : list str) (offset itemNum lineNumber : Z)
    (r : list RenderedLine * Z) :
  lines_located content offset listLines ->
  render_list ordered listLines terminalWidth offset itemNum lineNumber = Ret r ->
  Forall (line_ok content) (fst r).
Proof.
  revert offset itemNum lineNumber r.
  induction listLines as [|listLine rest IH]; intros offset itemNum lineNumber r Hl H;
    cbn [render_list] in H.
  - injection H as <-. constructor.
  - destruct Hl as [Hloc Hrest].
    destruct (is_blank listLine); [apply (IH _ _ _ _ Hrest H)|].
    destruct (wordWrapSegments _ (terminalWidth - 2)) as [wrappedList|] eqn:Ew;
      try discriminate.
    cbn [bind] in H.
    pose proof (renumber_ok (set_span offset (len listLine)) wrappedList lineNumber
                  (fun wl => eq_refl)) as Hren.
    destruct (renumber _ wrappedList lineNumber) as [here lineNumber'].
    destruct (render_list ordered rest terminalWidth _ _ lineNumber')
      as [[more final]|] eqn:Er; try discriminate.
    cbn [bind] in H. injection H as <-. cbn [fst] in *.
    apply Forall_app. split; [|apply (IH _ _ _ _ Hrest Er)].
    apply Hren.
    eapply (marked_line_ok listLine);
      [exact Hloc|apply strip_list_markers_suffix| |exact Ew]. reflexivity.
Qed.

(** *** Paragraphs: the joined lines *)

Lemma join_space_split (s : str) : join [c_space] (split_nl s) = map unbreak s.
Proof.
  induction s as [|c s IH]; [reflexivity|]. cbn [split_nl map]. unfold unbreak at 1.
  pose proof (split_nl_nonempty s) as Hne.
  destruct (split_nl s) as [|l ls]; [congruence|].
  destruct (N.eqb c c_nl).
  - change (join [c_space] ([] :: l :: ls)) with ([c_space] ++ join [c_space] (l :: ls)).
    rewrite IH. reflexivity.
  - destruct ls as [|l' ls]; cbn [join app] in *; rewrite <- IH; reflexivity.
Qed.

Lemma unbreak_shown (source : str) (offset : Z) :
  located content offset source -> shown_at content offset (map unbreak source).
Proof.
  intros [H0 H]. split; [exact H0|]. intros i c Hi.
  rewrite list_lookup_fmap in Hi.
  destruct (source !! i) as [c0|] eqn:E; [|discriminate]. injection Hi as <-.
  exists c0. split; [apply H, E|]. unfold shows, unbreak.
  destruct (N.eqb_spec c0 c_nl); [right|left]; auto.
Qed.

(** *** Headings *)

Lemma run_length_take (p : char -> bool) (s : str) :
  Forall (fun c => p c = true) (take (run_length p s) s).
Proof.
  induction s as [|c s IH]; simpl; [constructor|].
  destruct (p c) eqn:E; simpl; [constructor; assumption|constructor].
Qed.

Lemma hashes_replicate (s : str) :
  Forall (fun c => is_hash c = true) s -> s = replicate (length s) c_hash.
Proof.
  induction 1 as [|c s Hc _ IH]; [reflexivity|]. simpl.
  apply N.eqb_eq in Hc. subst c. f_equal. exact IH.
Qed.

Lemma run_length_le (p : char -> bool) (s : str) : (run_length p s <= length s)%nat.
Proof. induction s as [|c s IH]; simpl; [lia|]. destruct (p c); simpl; lia. Qed.

Lemma tidy_heading_shape (line : str) (k : Z) :
  headingMatch line = Some k -> tidy_heading line = true ->
  k <> 0 /\ exists rest,
    line = heading_prefix k ++ rest /\ strip_heading_marker line = rest.
Proof.
  intros Hm Ht. unfold tidy_heading in Ht. rewrite Hm in Ht.
  unfold headingMatch in Hm. cbv zeta in Hm, Ht.
  set (n := run_length is_hash line) in *.
  destruct (Nat.leb_spec 1 n) as [H1|]; [|discriminate].
  destruct (Nat.leb_spec n 4) as [H4|]; [|discriminate].
  cbn [andb] in Hm.
  destruct (_ && _) eqn:E in Hm; [|discriminate].
  injection Hm as <-. split; [lia|].
  apply andb_true_iff in Ht as [Hsp Hw]. apply Nat.eqb_eq in Hw.
  apply startsWith_app in Hsp as [rest Hrest]. exists rest.
  assert (take n line = replicate n c_hash) as Htake.
  { pose proof (hashes_replicate _ (run_length_take is_hash line)) as H.
    fold n in H. rewrite length_take in H. pose proof (run_length_le is_hash line).
    fold n in H0. replace (n `min` length line)%nat with n in H by lia. exact H. }
  split.
  - rewrite <- (take_drop n line) at 1. rewrite Htake, Hrest.
    assert (n = 1 \/ n = 2 \/ n = 3 \/ n = 4)%nat as Hn by lia.
    destruct Hn as [Hn | [Hn | [Hn | Hn]]]; rewrite Hn; reflexivity.
  - unfold strip_heading_marker. fold n. rewrite Hw.
    destruct (Nat.leb_spec 1 n) as [_|]; [|lia]. cbn [Nat.leb andb].
    rewrite Hrest. reflexivity.
Qed.


Lemma renderBlock_ok (block : Block) (terminalWidth lineNumber : Z)
    (r : list RenderedLine * Z) :
  block_ok content block ->
  renderBlock block terminalWidth lineNumber = Ret r ->
  Forall (line_ok content) (fst r).
Proof.
  intros [Hloc Hhead] H. unfold renderBlock in H.
  destruct (blk_type block) eqn:Et.
  - (* heading *)
    destruct (Hhead eq_refl) as (k & Hk & Hm & Ht).
    destruct (tidy_heading_shape _ _ Hm Ht) as (Hk0 & rest & Hline & Hstrip).
    rewrite Hk, Hstrip in H.
    destruct (Z.eqb_spec k 0) as [|_]; [contradiction|].
    destruct (wordWrapSegments _ terminalWidth) as [wrapped|] eqn:Ew; try discriminate.
    cbn [bind] in H. injection H as <-.
    apply renumber_ok; [reflexivity|].
    eapply wordWrapSegments_ok; [|exact Ew].
    rewrite Hline in Hloc. constructor.
    + intros _. apply located_shown. cbn [seg_text seg_sourceOffset].
      apply located_app_l in Hloc. exact Hloc.
    + apply parseInline_segments_ok, located_shown.
      apply located_app_r in Hloc. exact Hloc.
  - (* paragraph *)
    destruct (wordWrapSegments _ terminalWidth) as [wrapped|] eqn:Ew; try discriminate.
    cbn [bind] in H. injection H as <-.
    apply renumber_ok; [reflexivity|].
    eapply wordWrapSegments_ok; [|exact Ew].
    apply parseInline_segments_ok. rewrite join_space_split.
    apply unbreak_shown, Hloc.
  - (* code block *)
    injection H as <-. apply render_code_ok, split_nl_located, Hloc.
  - (* list *)
    eapply render_list_ok; [|exact H]. apply split_nl_located, Hloc.
  - (* block quote *)
    eapply render_quote_ok; [|exact H]. apply split_nl_located, Hloc.
  - (* rule *)
    destruct (repeat_char _ _) as [rule|]; try discriminate.
    cbn [bind] in H. injection H as <-. cbn [fst].
    constructor; [|constructor]. constructor; [|constructor].
    intros Hsrc. exfalso. apply Hsrc. reflexivity.
  - (* blank *)
    injection H as <-. cbn [fst].
    constructor; [|constructor]. constructor; [|constructor].
    intros Hsrc. exfalso. apply Hsrc. reflexivity.
Qed.

(** The headings that [parseBlocks] makes carry the level of their line. *)
Lemma parseBlocks_loop_headings (good : str -> Prop) (fuel : nat)
    (lines : list str) (offset : Z) :
  Forall good lines ->
  Forall (fun b => blk_type b = heading ->
            exists k, blk_level b = Some k
                      /\ headingMatch (blk_source b) = Some k
                      /\ good (blk_source b))
    (parseBlocks_loop fuel lines offset).
Proof.
  revert lines offset. induction fuel as [|fuel IH]; intros lines offset Hgood.
  - destruct lines; constructor.
  - destruct lines as [|line rest]; [constructor|].
    apply Forall_cons in Hgood as [Hline Hrest].
    assert (forall a b, rest = a ++ b -> Forall good b) as Htail.
    { intros a b ->. apply Forall_app in Hrest as [_ ?]. assumption. }
    cbn [parseBlocks_loop].
    destruct (is_blank line).
    { constructor; [discriminate|apply IH, Hrest]. }
    destruct (headingMatch line) as [level|] eqn:Em.
    { constructor; [|apply IH, Hrest]. intros _. exists level. auto. }
    destruct (is_hr line).
    { constructor; [discriminate|apply IH, Hrest]. }
    destruct (startsWith fence line).
    { destruct (span _ rest) as [body rest1] eqn:Es.
      pose proof (span_app _ _ _ _ Es) as Hsplit.
      destruct rest1 as [|c rest2].
      - constructor; [discriminate|apply IH; constructor].
      - constructor; [discriminate|]. apply IH.
        apply (Htail (body ++ [c]) rest2). rewrite <- app_assoc. exact Hsplit. }
    destruct (startsWith [c_gt] line).
    { destruct (span _ rest) as [more rest1] eqn:Es.
      constructor; [discriminate|]. apply IH, (Htail more), (span_app _ _ _ _ Es). }
    destruct (starts_unordered line).
    { destruct (span _ rest) as [more rest1] eqn:Es.
      constructor; [discriminate|]. apply IH, (Htail more), (span_app _ _ _ _ Es). }
    destruct (starts_ordered line).
    { destruct (span _ rest) as [more rest1] eqn:Es.
      constructor; [discriminate|]. apply IH, (Htail more), (span_app _ _ _ _ Es). }
    destruct (span _ rest) as [more rest1] eqn:Es.
    constructor; [discriminate|]. apply IH, (Htail more), (span_app _ _ _ _ Es).
Qed.

(** *** A heading keeps its segments within its own span *)

Lemma line_parts_in_block (b : Block) (segments : list LineSegment)
    (segmentOffset lineTextStart lineTextEnd : Z) :
  Forall (in_block b) segments ->
  Forall (in_block b)
    (line_parts segments segmentOffset lineTextStart lineTextEnd).
Proof.
  revert segmentOffset.
  induction segments as [|segment rest IH]; intros so Hall; simpl; [constructor|].
  apply Forall_cons in Hall as [[Hlo Hhi] Hrest].
  apply Forall_app. split; [|apply IH, Hrest].
  destruct (_ && _); [|constructor].
  destruct (Z.gtb_spec (Z.min (so + len (seg_text segment)) lineTextEnd - so)
              (Z.max so lineTextStart - so)); [|constructor].
  constructor; [|constructor]. unfold in_block.
  cbn [seg_text seg_sourceOffset].
  rewrite len_slice_in_range by lia. lia.
Qed.

Lemma wrapped_lines_in_block (b : Block) (segments : list LineSegment)
    (fullText : str) (wrappedLines : list str) (textOffset lineNumber : Z) :
  Forall (in_block b) segments ->
  Forall (fun line => Forall (in_block b) (line_segments line))
    (wrapped_lines segments fullText wrappedLines textOffset lineNumber).
Proof.
  intros Hall. revert textOffset lineNumber.
  induction wrappedLines as [|wl rest IH]; intros textOffset lineNumber; simpl; [constructor|].
  pose proof (line_parts_in_block b segments 0 textOffset (textOffset + len wl) Hall) as Hparts.
  destruct (line_parts segments 0 textOffset (textOffset + len wl)) as [|first more] eqn:E.
  - apply IH.
  - constructor; [exact Hparts|apply IH].
Qed.

Lemma renumber_segments (Q : LineSegment -> Prop)
    (patch : RenderedLine -> RenderedLine)
    (wrapped : list RenderedLine) (lineNumber : Z) :
  (forall wl, line_segments (patch wl) = line_segments wl) ->
  Forall (fun line => Forall Q (line_segments line)) wrapped ->
  Forall (fun line => Forall Q (line_segments line))
    (fst (renumber patch wrapped lineNumber)).
Proof.
  intros Hpatch. revert lineNumber.
  induction wrapped as [|wl rest IH]; intros lineNumber Hall; simpl; [constructor|].
  apply Forall_cons in Hall as [Hwl Hrest].
  specialize (IH (lineNumber + 1) Hrest).
  destruct (renumber patch rest (lineNumber + 1)) as [rest' final]. simpl in *.
  constructor; [|exact IH]. cbn [line_segments].
  rewrite Hpatch. exact Hwl.
Qed.

(** The prefix that the renderer writes and the text it keeps are together
    no longer than the heading line. *)
Lemma heading_lengths (line : str) (k : Z) :
  headingMatch line = Some k ->
  k <> 0 /\ len (heading_prefix k) = k + 1
  /\ len (heading_prefix k) + len (strip_heading_marker line) <= len line.
Proof.
  intros Hm. unfold headingMatch in Hm. unfold strip_heading_marker.
  cbv zeta in Hm |- *.
  pose proof (run_length_le is_hash line) as Hn.
  pose proof (run_length_le is_ws (drop (run_length is_hash line) line)) as Hw.
  rewrite length_drop in Hw.
  set (n := run_length is_hash line) in *.
  set (w := run_length is_ws (drop n line)) in *.
  destruct (Nat.leb_spec 1 n) as [H1|]; [|discriminate].
  destruct (Nat.leb_spec n 4) as [H4|]; [|discriminate].
  destruct (Nat.leb_spec 1 w) as [Hw1|]; [|discriminate].
  cbn [andb] in Hm |- *.
  destruct (forallb _ _); [|discriminate]. injection Hm as <-.
  assert (len (heading_prefix (Z.of_nat n)) = Z.of_nat n + 1) as Hp.
  { assert (n = 1 \/ n = 2 \/ n = 3 \/ n = 4)%nat as Hn' by lia.
    destruct Hn' as [Hn' | [Hn' | [Hn' | Hn']]]; rewrite Hn'; reflexivity. }
  split; [lia|]. split; [exact Hp|]. rewrite Hp.
  unfold len. rewrite !length_drop. lia.
Qed.

Lemma renderBlock_heading_in_block (block : Block)
    (terminalWidth lineNumber : Z) (r : list RenderedLine * Z) (k : Z) :
  blk_type block = heading ->
  blk_level block = Some k -> headingMatch (blk_source block) = Some k ->
  renderBlock block terminalWidth lineNumber = Ret r ->
  Forall (fun line =>
            Forall (fun seg => from_source seg -> in_block block seg)
              (line_segments line)) (fst r).
Proof.
  intros Et Hk Hm H. unfold renderBlock in H. rewrite Et, Hk in H.
  destruct (heading_lengths _ _ Hm) as (Hk0 & Hp & Hlen).
  destruct (Z.eqb_spec k 0) as [|_]; [contradiction|].
  destruct (wordWrapSegments _ terminalWidth) as [wrapped|] eqn:Ew; try discriminate.
  cbn [bind] in H. injection H as <-.
  apply renumber_segments; [reflexivity|].
  unfold wordWrapSegments in Ew.
  destruct (len (concat _) =? 0).
  - injection Ew as <-. constructor; [|constructor]. constructor; [|constructor].
    intros Hsrc. exfalso. apply Hsrc. reflexivity.
  - destruct (wordWrap _ terminalWidth) as [wrappedLines|]; try discriminate.
    cbn [bind] in Ew. injection Ew as <-.
    eapply Forall_impl; [apply (wrapped_lines_in_block block)|].
    + constructor.
      * unfold in_block. cbn [seg_text seg_sourceOffset].
        pose proof (len_nonneg (strip_heading_marker (blk_source block))). lia.
      * eapply Forall_impl; [apply parseInline_ok|].
        intros seg (_ & [Hlo _] & Hhi & _). unfold in_block.
        pose proof (len_nonneg (heading_prefix k)). lia.
    + intros line Hl. eapply Forall_impl; [exact Hl|]. auto.
Qed.

(** *** Every block but an untidy heading displays the source *)

Lemma renderBlock_segments (block : Block) (terminalWidth lineNumber : Z)
    (r : list RenderedLine * Z) :
  block_located content block ->
  renderBlock block terminalWidth lineNumber = Ret r ->
  Forall (fun line =>
            Forall (fun seg => from_source seg ->
                      shows_source content seg
                      \/ (untidy_heading block /\ in_block block seg))
              (line_segments line)) (fst r).
Proof.
  intros [Hloc Hhead] H.
  assert (block_ok content block \/ untidy_heading block) as [Hok|Hun].
  { destruct (tidy_heading (blk_source block)) eqn:Ht.
    - left. split; [exact Hloc|]. intros Et.
      destruct (Hhead Et) as (k & Hk & Hm). exists k. auto.
    - destruct (blk_type block) eqn:Et;
        try (left; split; [exact Hloc|intros E; rewrite Et in E; discriminate E]).
      right. split; [exact Et|exact Ht]. }
  - eapply Forall_impl; [apply (renderBlock_ok _ _ _ _ Hok H)|].
    intros line Hl. eapply Forall_impl; [exact Hl|].
    intros seg Hs Hsrc. left. apply Hs, Hsrc.
  - destruct (Hhead (proj1 Hun)) as (k & Hk & Hm).
    eapply Forall_impl;
      [apply (renderBlock_heading_in_block _ _ _ _ _ (proj1 Hun) Hk Hm H)|].
    intros line Hl. eapply Forall_impl; [exact Hl|].
    intros seg Hs Hsrc. right. split; [exact Hun|apply Hs, Hsrc].
Qed.

Lemma renderBlocks_from_segments (blocks : list Block)
    (terminalWidth lineNumber : Z) (lines : list RenderedLine) :
  Forall (block_located content) blocks ->
  renderBlocks_from blocks terminalWidth lineNumber = Ret lines ->
  Forall (fun line =>
            Forall (fun seg => from_source seg ->
                      shows_source content seg
                      \/ exists b, In b blocks /\ untidy_heading b /\ in_block b seg)
              (line_segments line)) lines.
Proof.
  revert lineNumber lines.
  induction blocks as [|block rest IH]; intros lineNumber lines Hall H;
    cbn [renderBlocks_from] in H.
  - injection H as <-. constructor.
  - apply Forall_cons in Hall as [Hb Hrest].
    destruct (renderBlock block terminalWidth lineNumber) as [[here ln']|] eqn:Eb;
      try discriminate.
    cbn [bind] in H.
    destruct (renderBlocks_from rest terminalWidth ln') as [more|] eqn:Er;
      try discriminate.
    cbn [bind] in H. injection H as <-.
    apply Forall_app. split.
    + eapply Forall_impl; [apply (renderBlock_segments _ _ _ _ Hb Eb)|].
      intros line Hl. eapply Forall_impl; [exact Hl|].
      intros seg Hs Hsrc. destruct (Hs Hsrc) as [?|[Hun Hin]]; [left; assumption|].
      right. exists block. split; [left; reflexivity|]. auto.
    + eapply Forall_impl; [apply (IH _ _ Hrest Er)|].
      intros line Hl. eapply Forall_impl; [exact Hl|].
      intros seg Hs Hsrc. destruct (Hs Hsrc) as [?|(b & Hb' & Hun)]; [left; assumption|].
      right. exists b. split; [right; exact Hb'|exact Hun].
Qed.

Lemma parseBlocks_located : Forall (block_located content) (parseBlocks content).
Proof.
  destruct (parseBlocks_covers content) as (Hjoin & Hchain & _).
  rewrite join_split_nl in Hjoin.
  assert (Forall (fun _ : str => True) (split_nl content)) as Hgood.
  { apply Forall_forall. auto. }
  pose proof (parseBlocks_loop_headings _ (length (split_nl content)) _ 0 Hgood) as Hh.
  fold (parseBlocks content) in Hh.
  apply Forall_forall. intros b Hb. split.
  - pose proof (chained_located 0 _ b Hchain (proj1 (list_elem_of_In _ _) Hb)) as H.
    rewrite Hjoin, Z.sub_0_r in H. exact H.
  - rewrite Forall_forall in Hh. intros Et.
    destruct (Hh b Hb Et) as (k & Hk & Hm & _). exists k. auto.
Qed.

End Segments.

(** C1 (as amended).  For every document, the rendering returns at every
    terminal width of at least 4, and whenever it returns, every segment
    that [renderBlocks] makes of the blocks of [parseBlocks], that stands
    for source text (it carries an element type; the quote bar, the list
    bullet, the rule and the blank placeholder carry none) and that does not
    lie within a heading block whose hashes are followed by anything but
    exactly one space, satisfies the intra-segment mapping: character [i] of
    its text is the source character at [sourceOffset + i], or it is the
    space shown for the newline that stands there, inside a paragraph of
    several lines.  The segments of the other blocks are covered whatever
    headings the document has, and so are the lines of a code block that
    look like headings. *)
Theorem render_segments_show_source (content : str) (terminalWidth : Z) :
  (4 <= terminalWidth ->
   exists lines, renderBlocks (parseBlocks content) terminalWidth = Ret lines)
  /\ forall lines,
       renderBlocks (parseBlocks content) terminalWidth = Ret lines ->
       forall line seg (i : nat) (c : char),
         In line lines -> In seg (line_segments line) -> from_source seg ->
         ~ in_untidy_heading content seg ->
         seg_text seg !! i = Some c ->
         0 <= seg_sourceOffset seg
         /\ exists c0,
              charAt content (seg_sourceOffset seg + Z.of_nat i) = Some c0
              /\ shows c c0.
Proof.
  split; [apply renderBlocks_from_total|].
  intros lines H line seg i c Hline Hseg Hsrc Hnot Hi.
  pose proof (renderBlocks_from_segments content _ _ _ _
                (parseBlocks_located content) H) as Hall.
  rewrite Forall_forall in Hall.
  specialize (Hall line (proj2 (list_elem_of_In _ _) Hline)).
  rewrite Forall_forall in Hall.
  destruct (Hall seg (proj2 (list_elem_of_In _ _) Hseg) Hsrc)
    as [[H0 Hmap]|Hun].
  2: { exfalso. apply Hnot, Hun. }
  split; [exact H0|].
  destruct (Hmap i c Hi) as (c0 & Hc0 & Hshow). exists c0. split; [|exact Hshow].
  unfold charAt. destruct (Z.ltb_spec (seg_sourceOffset seg + Z.of_nat i) 0); [lia|].
  replace (Z.to_nat (seg_sourceOffset seg + Z.of_nat i))
    with (Z.to_nat (seg_sourceOffset seg) + i)%nat by lia.
  exact Hc0.
Qed.

(** In [untidy_document] the heading is the one untidy heading; the line of
    the code block that looks like it and the paragraph are mapped. *)
Lemma render_segments_show_source_witness :
  4 <= 12
  /\ (exists lines, renderBlocks (parseBlocks untidy_document) 12 = Ret lines)
  /\ map blk_type (parseBlocks untidy_document) = [heading; codeBlock; paragraph]
  /\ (exists lines line seg,
        renderBlocks (parseBlocks untidy_document) 12 = Ret lines
        /\ In line lines /\ In seg (line_segments line)
        /\ seg_text seg = lit "#  x" /\ from_source seg
        /\ ~ in_untidy_heading untidy_document seg)
  /\ forall lines,
       renderBlocks (parseBlocks untidy_document) 12 = Ret lines ->
       forall line seg (i : nat) (c : char),
         In line lines -> In seg (line_segments line) -> from_source seg ->
         ~ in_untidy_heading untidy_document seg ->
         seg_text seg !! i = Some c ->
         0 <= seg_sourceOffset seg
         /\ exists c0,
              charAt untidy_document (seg_sourceOffset seg + Z.of_nat i) = Some c0
              /\ shows c c0.
Proof.
  split; [lia|].
  destruct (render_segments_show_source untidy_document 12) as [Htotal Hmap].
  split; [apply Htotal; lia|]. split; [vm_compute; reflexivity|].
  split; [|exact Hmap].
  eexists _, _, _. split; [vm_compute; reflexivity|].
  split; [right; left; reflexivity|]. split; [left; reflexivity|].
  split; [reflexivity|]. split; [discriminate|].
  intros (b & Hb & [Et Ht] & [Hlo Hhi]).
  vm_compute in Hb. destruct Hb as [<-|[<-|[<-|[]]]];
    try discriminate Et. vm_compute in Hhi. apply Hhi. reflexivity.
Defined.

(** The claim as stated fails.  The bullet that stands for the item marker
    is not a source character: for "- a" the first segment shows the bullet
    at offset 0, where the source has a dash.  And a paragraph shows a space
    where its source has a newline. *)
Lemma render_shows_what_source_has_not :
  (exists lines line seg,
     renderBlocks (parseBlocks (lit "- a")) 80 = Ret lines
     /\ In line lines /\ In seg (line_segments line)
     /\ seg_text seg !! 0%nat = Some c_bullet
     /\ charAt (lit "- a") (seg_sourceOffset seg + 0) = Some c_dash
     /\ ~ maps_source (lit "- a") seg)
  /\ (exists lines line seg,
        renderBlocks (parseBlocks (lit "a" ++ [c_nl] ++ lit "b")) 80 = Ret lines
        /\ In line lines /\ In seg (line_segments line) /\ from_source seg
        /\ seg_text seg !! 1%nat = Some c_space
        /\ charAt (lit "a" ++ [c_nl] ++ lit "b") (seg_sourceOffset seg + 1) = Some c_nl
        /\ ~ maps_source (lit "a" ++ [c_nl] ++ lit "b") seg).
Proof.
  split.
  - eexists _, _, _. split; [vm_compute; reflexivity|].
    split; [left; reflexivity|]. split; [left; reflexivity|].
    split; [reflexivity|]. split; [reflexivity|].
    intros H. specialize (H 0%nat c_bullet eq_refl). vm_compute in H. discriminate H.
  - eexists _, _, _. split; [vm_compute; reflexivity|].
    split; [left; reflexivity|]. split; [left; reflexivity|].
    split; [discriminate|]. split; [reflexivity|]. split; [reflexivity|].
    intros H. specialize (H 1%nat c_space eq_refl). vm_compute in H. discriminate H.
Qed.

(** A heading whose marker is followed by two spaces: the text segment is
    given the offset right after "# ", one short of where the text is. *)
Lemma render_heading_two_spaces :
  exists line prefix text,
    renderBlocks (parseBlocks (lit "#  Hello")) 80 = Ret [line]
    /\ line_segments line = [prefix; text]
    /\ seg_text text = lit "Hello" /\ seg_sourceOffset text = 2
    /\ charAt (lit "#  Hello") 2 = Some c_space
    /\ charAt (lit "#  Hello") 3 = seg_text text !! 0%nat.
Proof.
  eexists _, _, _. split; [vm_compute; reflexivity|].
  repeat split.
Qed.


(** ** The loop bounds of the model are never reached *)

Lemma parseBlocks_loop_fuel (fuel1 fuel2 : nat) (lines : list str) (offset : Z) :
  (length lines <= fuel1)%nat -> (length lines <= fuel2)%nat ->
  parseBlocks_loop fuel1 lines offset = parseBlocks_loop fuel2 lines offset.
Proof.
  revert fuel2 lines offset.
  induction fuel1 as [|fuel1 IH]; intros fuel2 lines offset H1 H2.
  - destruct lines; [destruct fuel2; reflexivity|simpl in H1; lia].
  - destruct lines as [|line rest]; [destruct fuel2; reflexivity|].
    destruct fuel2 as [|fuel2]; [simpl in H2; lia|]. simpl in H1, H2.
    assert (forall a b, rest = a ++ b ->
              (length b <= fuel1)%nat /\ (length b <= fuel2)%nat) as Htail.
    { intros a b ->. rewrite length_app in H1, H2. lia. }
    cbn [parseBlocks_loop].
    destruct (is_blank line); [f_equal; apply IH; lia|].
    destruct (headingMatch line); [f_equal; apply IH; lia|].
    destruct (is_hr line); [f_equal; apply IH; lia|].
    destruct (startsWith fence line).
    { destruct (span _ rest) as [body rest1] eqn:Es.
      pose proof (span_app _ _ _ _ Es) as Hsplit.
      destruct rest1 as [|c rest2]; f_equal; apply IH; try (simpl; lia).
      - apply (Htail (body ++ [c])). rewrite <- app_assoc. exact Hsplit.
      - apply (Htail (body ++ [c])). rewrite <- app_assoc. exact Hsplit. }
    destruct (startsWith [c_gt] line).
    { destruct (span _ rest) as [more rest1] eqn:Es.
      f_equal. apply IH; apply (Htail more), (span_app _ _ _ _ Es). }
    destruct (starts_unordered line).
    { destruct (span _ rest) as [more rest1] eqn:Es.
      f_equal. apply IH; apply (Htail more), (span_app _ _ _ _ Es). }
    destruct (starts_ordered line).
    { destruct (span _ rest) as [more rest1] eqn:Es.
      f_equal. apply IH; apply (Htail more), (span_app _ _ _ _ Es). }
    destruct (span _ rest) as [more rest1] eqn:Es.
    f_equal. apply IH; apply (Htail more), (span_app _ _ _ _ Es).
Qed.

(** With more rounds than lines the loop gives what [parseBlocks] gives. *)
Lemma parseBlocks_any_fuel (content : str) (fuel : nat) :
  (length (split_nl content) <= fuel)%nat ->
  parseBlocks_loop fuel (split_nl content) 0 = parseBlocks content.
Proof. intros H. apply parseBlocks_loop_fuel; [exact H|lia]. Qed.

Lemma parseInline_loop_fuel (text : str) (base : Z) (style : SegmentStyle)
    (fuel1 fuel2 : nat) (lastEnd : Z) :
  0 <= lastEnd <= len text ->
  len text - lastEnd <= Z.of_nat fuel1 -> len text - lastEnd <= Z.of_nat fuel2 ->
  parseInline_loop fuel1 text base style lastEnd
  = parseInline_loop fuel2 text base style lastEnd.
Proof.
  assert (forall fuel from, len text <= from ->
            parseInline_loop fuel text base style from = ([], from)) as Hend.
  { intros [|fuel] from Hl; [reflexivity|]. cbn [parseInline_loop].
    replace (drop (Z.to_nat from) text) with (@nil char); [reflexivity|].
    symmetry. apply drop_ge. unfold len in *. lia. }
  revert fuel2 lastEnd. induction fuel1 as [|fuel1 IH]; intros fuel2 lastEnd Hle H1 H2.
  - rewrite (Hend fuel2) by lia. reflexivity.
  - destruct fuel2 as [|fuel2]; [rewrite (Hend (S fuel1)) by lia; reflexivity|].
    cbn [parseInline_loop].
    destruct (exec_inline (drop (Z.to_nat lastEnd) text) lastEnd)
      as [[[[index k] content] n]|] eqn:E; [|reflexivity].
    apply exec_inline_spec in E as (Hidx & Hlen & Hm).
    rewrite drop_drop in Hm.
    replace (Z.to_nat lastEnd + Z.to_nat (index - lastEnd))%nat
      with (Z.to_nat index) in Hm by lia.
    apply match_here_app in Hm as (_ & Hn & Hskip & _).
    assert (len (drop (Z.to_nat lastEnd) text) = len text - lastEnd) as Hd
      by (unfold len in *; rewrite length_drop; lia).
    assert (len (drop (Z.to_nat index) text) = len text - index) as Hd2
      by (unfold len in *; rewrite length_drop; lia).
    pose proof (len_nonneg content). pose proof (len_nonneg (opening k)).
    rewrite (IH fuel2) by lia. reflexivity.
Qed.

(** With more rounds than characters the loop gives what [parseInline] uses. *)
Lemma parseInline_any_fuel (text : str) (base : Z) (style : SegmentStyle)
    (fuel : nat) :
  (length text <= fuel)%nat ->
  parseInline_loop fuel text base style 0
  = parseInline_loop (length text) text base style 0.
Proof.
  intros H. pose proof (len_nonneg text).
  apply parseInline_loop_fuel; unfold len in *; lia.
Qed.


(** ** Overlays keep the characters and their offsets *)

Lemma tagged_app (a b : str) (offset : Z) :
  tagged (a ++ b) offset = tagged a offset ++ tagged b (offset + len a).
Proof.
  revert offset. induction a as [|c a IH]; intros offset; simpl.
  - unfold len. simpl. rewrite Z.add_0_r. reflexivity.
  - rewrite IH, len_cons. do 3 f_equal. lia.
Qed.

(** Two adjoining slices make one. *)
Lemma slice_slice (text : str) (a b c : Z) :
  0 <= a -> a <= b -> b <= c ->
  slice text a b ++ slice text b c = slice text a c.
Proof.
  intros Ha Hab Hbc. pose proof (len_nonneg text) as Hl.
  unfold slice, rel_index.
  destruct (Z.ltb_spec a 0); [lia|]. destruct (Z.ltb_spec b 0); [lia|].
  destruct (Z.ltb_spec c 0); [lia|].
  set (a' := Z.min a (len text)). set (b' := Z.min b (len text)).
  set (c' := Z.min c (len text)).
  assert (0 <= a' <= b' /\ b' <= c' <= len text) as Hb by lia.
  replace (drop (Z.to_nat b') text)
    with (drop (Z.to_nat (b' - a')) (drop (Z.to_nat a') text))
    by (rewrite drop_drop; f_equal; lia).
  replace (Z.to_nat (c' - a')) with (Z.to_nat (b' - a') + Z.to_nat (c' - b'))%nat by lia.
  rewrite <- take_take_drop. reflexivity.
Qed.

Lemma len_slice (text : str) (a b : Z) :
  0 <= a -> a <= b -> len (slice text a b) = Z.min b (len text) - Z.min a (len text).
Proof.
  intros Ha Hab. pose proof (len_nonneg text) as Hl.
  unfold slice, rel_index.
  destruct (Z.ltb_spec a 0); [lia|]. destruct (Z.ltb_spec b 0); [lia|].
  unfold len in *. rewrite length_take, length_drop. lia.
Qed.

Lemma tagged_slices (text : str) (offset a b c : Z) :
  0 <= a -> a <= b -> b <= c -> b <= len text ->
  tagged (slice text a b) (offset + a) ++ tagged (slice text b c) (offset + b)
  = tagged (slice text a c) (offset + a).
Proof.
  intros Ha Hab Hbc Hb. rewrite <- (slice_slice text a b c) by lia.
  rewrite tagged_app. rewrite len_slice by lia.
  do 2 f_equal. lia.
Qed.

Lemma slice_empty (text : str) (a b : Z) :
  0 <= b -> b <= a -> slice text a b = [].
Proof.
  intros Hb Hba. unfold slice, rel_index. destruct (Z.ltb_spec a 0); [lia|].
  destruct (Z.ltb_spec b 0); [lia|].
  replace (Z.to_nat _) with O by lia. reflexivity.
Qed.

Lemma slice_all (text : str) : slice text 0 (len text) = text.
Proof.
  pose proof (len_nonneg text). rewrite slice_in_range by lia.
  simpl drop. apply take_ge. unfold len. lia.
Qed.

Lemma characters_app (s1 s2 : list LineSegment) :
  characters (s1 ++ s2) = characters s1 ++ characters s2.
Proof. unfold characters. rewrite map_app, concat_app. reflexivity. Qed.

Lemma characters_concat (parts : list (list LineSegment)) :
  characters (concat parts) = concat (map characters parts).
Proof.
  induction parts as [|p parts IH]; [reflexivity|].
  simpl. rewrite characters_app, IH. reflexivity.
Qed.

Lemma characters_one (s : LineSegment) :
  characters [s] = tagged (seg_text s) (seg_sourceOffset s).
Proof. unfold characters. simpl. apply app_nil_r. Qed.

(** *** Selection *)

Lemma applySelection_segment_characters (start end_ : Z) (segment : LineSegment) :
  characters (applySelection_segment start end_ segment) = characters [segment].
Proof.
  unfold applySelection_segment.
  destruct (_ || _); [reflexivity|].
  set (text := seg_text segment). set (off := seg_sourceOffset segment).
  set (a := Z.max 0 (start - off)). set (b := Z.min (len text) (end_ - off)).
  destruct (Z.leb_spec b a) as [|Hab]; [reflexivity|].
  pose proof (len_nonneg text) as Hl.
  assert (0 <= a /\ a < b /\ b <= len text) as Hb by lia.
  rewrite len_slice_in_range by lia.
  destruct (Z.gtb_spec (b - a) 0) as [_|]; [|lia].
  rewrite !characters_app, characters_one. cbn [seg_text seg_sourceOffset].
  assert (characters (if a >? 0 then [mkSegment (slice text 0 a) off a (seg_style segment)] else [])
          = tagged (slice text 0 a) (off + 0)) as ->.
  { destruct (Z.gtb_spec a 0).
    - rewrite characters_one, Z.add_0_r. reflexivity.
    - rewrite slice_empty by lia. reflexivity. }
  assert (characters (if b <? len text
                      then [mkSegment (slice_from text b) (off + b) (len text - b) (seg_style segment)]
                      else [])
          = tagged (slice text b (len text)) (off + b)) as ->.
  { destruct (Z.ltb_spec b (len text)).
    - rewrite characters_one. reflexivity.
    - rewrite slice_empty by lia. reflexivity. }
  rewrite characters_one. cbn [seg_text seg_sourceOffset].
  rewrite app_assoc, tagged_slices by lia. rewrite tagged_slices by lia.
  rewrite slice_all, Z.add_0_r. reflexivity.
Qed.

Lemma applySelection_characters (segments : list LineSegment)
    (selectionStart selectionEnd : option Z) :
  characters (applySelection segments selectionStart selectionEnd)
  = characters segments.
Proof.
  unfold applySelection.
  destruct selectionStart as [s|]; [|reflexivity].
  destruct selectionEnd as [e|]; [|reflexivity].
  destruct (s =? e); [reflexivity|].
  rewrite characters_concat, map_map.
  induction segments as [|segment rest IH]; [reflexivity|].
  simpl. rewrite IH, applySelection_segment_characters.
  change (segment :: rest) with ([segment] ++ rest). rewrite characters_app. reflexivity.
Qed.

(** *** Diffs that come one after the other *)

Lemma ascending_filter (f : DocumentDiff -> bool) (diffs : list DocumentDiff) :
  ascending diffs -> ascending (List.filter f diffs).
Proof.
  intros [Hwf Hs]. split.
  - apply Forall_forall. intros d Hd. apply list_elem_of_In, filter_In in Hd as [Hd _].
    rewrite Forall_forall in Hwf. apply Hwf, list_elem_of_In, Hd.
  - induction Hs as [|d diffs Hs IH Hall]; simpl; [constructor|].
    apply Forall_cons in Hwf as [_ Hwf]. specialize (IH Hwf).
    destruct (f d); [|exact IH]. constructor; [exact IH|].
    apply Forall_forall. intros d' Hd'. apply list_elem_of_In, filter_In in Hd' as [Hd' _].
    rewrite Forall_forall in Hall. apply Hall, list_elem_of_In, Hd'.
Qed.

Lemma ascending_sorted (diffs : list DocumentDiff) :
  ascending diffs -> sort_by diff_startOffset diffs = diffs.
Proof.
  intros [Hwf Hs]. induction Hs as [|d diffs Hs IH Hall]; [reflexivity|].
  apply Forall_cons in Hwf as [Hd Hwf]. simpl. rewrite (IH Hwf).
  destruct diffs as [|d' diffs]; [reflexivity|]. simpl.
  apply Forall_cons in Hall as [Hdd' _].
  apply Forall_cons in Hwf as [Hd' _].
  destruct (Z.leb_spec (diff_startOffset d) (diff_startOffset d')); [reflexivity|lia].
Qed.

Lemma slice_clamp (text : str) (a b : Z) :
  0 <= a -> len text <= b -> slice text a b = slice text a (len text).
Proof.
  intros Ha Hb. pose proof (len_nonneg text). unfold slice, rel_index.
  destruct (Z.ltb_spec a 0); [lia|]. destruct (Z.ltb_spec b 0); [lia|].
  destruct (Z.ltb_spec (len text) 0); [lia|].
  rewrite (Z.min_r b) by lia. rewrite (Z.min_l (len text)) by lia. reflexivity.
Qed.

Lemma diff_parts_characters (segment : LineSegment) (diffs : list DocumentDiff)
    (textPos : Z) (parts : list LineSegment) (final : Z) :
  ascending diffs ->
  Forall (fun d => diff_endOffset d > seg_sourceOffset segment) diffs ->
  0 <= textPos <= len (seg_text segment) ->
  match diffs with
  | d :: _ => textPos <= Z.max 0 (diff_startOffset d - seg_sourceOffset segment)
  | [] => True
  end ->
  diff_parts segment (seg_sourceOffset segment) diffs textPos = (parts, final) ->
  textPos <= final <= len (seg_text segment)
  /\ characters parts
     = tagged (slice (seg_text segment) textPos final)
         (seg_sourceOffset segment + textPos).
Proof.
  set (text := seg_text segment). set (off := seg_sourceOffset segment).
  revert textPos parts final.
  induction diffs as [|d rest IH]; intros textPos parts final Hasc Hover Hpos Hfirst H.
  - injection H as <- <-. split; [lia|].
    rewrite slice_empty by lia. reflexivity.
  - cbn [diff_parts] in H. fold text off in H.
    set (a := Z.max 0 (diff_startOffset d - off)) in *.
    set (b := Z.min (len text) (diff_endOffset d - off)) in *.
    destruct Hasc as [Hwf Hs].
    apply Forall_cons in Hwf as [Hd Hwf]. apply Forall_cons in Hover as [Hdo Hover].
    apply StronglySorted_inv in Hs as [Hs Hnext].
    assert (0 <= b <= len text) as Hb by lia.
    assert (textPos <= b) as Htb by lia.
    destruct (diff_parts segment off rest b) as [more final'] eqn:Er.
    injection H as <- <-.
    destruct (IH b more final' (conj Hwf Hs) Hover Hb) as (Hfin & Hmore); [|exact Er|].
    { destruct rest as [|d' rest]; [exact I|].
      apply Forall_cons in Hnext as [Hdd' _]. lia. }
    split; [lia|].
    rewrite !characters_app, Hmore.
    assert (characters
              (if a >? textPos
               then [mkSegment (slice text textPos a) (off + textPos) (a - textPos)
                       (seg_style segment)]
               else [])
            ++ characters
                 (if b >? a
                  then [mkSegment (slice text a b) (off + a) (b - a)
                          (spread (seg_style segment) (DIFF_STYLES (diff_type d)))]
                  else [])
            = tagged (slice text textPos b) (off + textPos)) as Hhere.
    { assert (characters
                (if a >? textPos
                 then [mkSegment (slice text textPos a) (off + textPos) (a - textPos)
                         (seg_style segment)]
                 else [])
              = tagged (slice text textPos a) (off + textPos)) as ->.
      { destruct (Z.gtb_spec a textPos).
        - rewrite characters_one. reflexivity.
        - rewrite slice_empty by lia. reflexivity. }
      destruct (Z.gtb_spec b a) as [Hba|Hba].
      - rewrite characters_one. cbn [seg_text seg_sourceOffset].
        apply tagged_slices; lia.
      - cbn [characters map concat]. rewrite app_nil_r.
        destruct (Z.eq_dec a b) as [->|Hne]; [reflexivity|].
        assert (b = len text) as -> by lia.
        rewrite slice_clamp by lia. reflexivity. }
    rewrite app_assoc, Hhere. apply tagged_slices; lia.
Qed.

Lemma applyDiffs_segment_characters (diffs : list DocumentDiff) (segment : LineSegment) :
  ascending diffs ->
  characters (applyDiffs_segment diffs segment) = characters [segment].
Proof.
  intros Hasc. unfold applyDiffs_segment.
  set (off := seg_sourceOffset segment). set (text := seg_text segment).
  pose proof (ascending_filter (overlaps off (off + seg_sourceLength segment)) diffs Hasc)
    as Hfasc.
  assert (Forall (fun d => diff_endOffset d > off)
            (List.filter (overlaps off (off + seg_sourceLength segment)) diffs)) as Hover.
  { apply Forall_forall. intros d Hd. apply list_elem_of_In, filter_In in Hd as [_ Hd].
    unfold overlaps in Hd. apply andb_true_iff in Hd as [_ Hd]. lia. }
  destruct (List.filter _ diffs) as [|d0 overlapping] eqn:Ef; [reflexivity|].
  rewrite (ascending_sorted _ Hfasc).
  pose proof (len_nonneg text) as Hl.
  destruct (diff_parts segment off (d0 :: overlapping) 0) as [parts textPos] eqn:Ep.
  destruct (diff_parts_characters segment (d0 :: overlapping) 0 parts textPos
              Hfasc Hover) as (Hfin & Hparts);
    [fold text; lia|apply Z.le_max_l|exact Ep|].
  fold text off in Hfin, Hparts.
  rewrite characters_app, Hparts, characters_one.
  assert (characters
            (if textPos <? len text
             then [mkSegment (slice_from text textPos) (off + textPos)
                     (len text - textPos) (seg_style segment)]
             else [])
          = tagged (slice text textPos (len text)) (off + textPos)) as ->.
  { destruct (Z.ltb_spec textPos (len text)).
    - rewrite characters_one. reflexivity.
    - rewrite slice_empty by lia. reflexivity. }
  rewrite tagged_slices by lia. rewrite slice_all, Z.add_0_r. reflexivity.
Qed.

Lemma applyDiffs_characters (segments : list LineSegment) (diffs : list DocumentDiff) :
  ascending diffs -> characters (applyDiffs segments diffs) = characters segments.
Proof.
  intros Hasc. unfold applyDiffs. destruct diffs as [|d diffs]; [reflexivity|].
  rewrite characters_concat, map_map.
  induction segments as [|segment rest IH]; [reflexivity|].
  simpl. rewrite IH, (applyDiffs_segment_characters _ _ Hasc).
  change (segment :: rest) with ([segment] ++ rest). rewrite characters_app. reflexivity.
Qed.

(** Where the diff ranges are well formed and come one after the other,
    the two overlay passes keep every character and its source offset. *)
Lemma overlays_keep_characters (segments : list LineSegment)
    (diffs : list DocumentDiff) (selectionStart selectionEnd : option Z) :
  ascending diffs ->
  characters (applySelection (applyDiffs segments diffs) selectionStart selectionEnd)
  = characters segments.
Proof.
  intros Hasc. rewrite applySelection_characters. apply applyDiffs_characters, Hasc.
Qed.

Lemma characters_text (segments : list LineSegment) :
  map fst (characters segments) = concat (map seg_text segments).
Proof.
  assert (forall text offset, map fst (tagged text offset) = text) as Htag.
  { induction text as [|c text IH]; intros offset; simpl; [reflexivity|].
    rewrite IH. reflexivity. }
  induction segments as [|s rest IH]; [reflexivity|].
  change (s :: rest) with ([s] ++ rest).
  rewrite characters_app, map_app, IH, characters_one, Htag. reflexivity.
Qed.

(** C3 (the code at the failing input).  Two diff ranges that overlap each
    other on one segment make [applyDiffs] emit the characters they share
    twice: the six characters "abcdef" come out as "abcd" and "cdef". *)
Theorem applyDiffs_overlapping_diffs_duplicate :
  let segments := [mkSegment (lit "abcdef") 0 6 no_style] in
  let diffs := [mkDiff 0 4 d_delete; mkDiff 2 6 d_add] in
  let out := applySelection (applyDiffs segments diffs) None None in
  map seg_text out = [lit "abcd"; lit "cdef"]
  /\ map seg_sourceOffset out = [0; 2]
  /\ concat (map seg_text out) <> concat (map seg_text segments).
Proof. vm_compute. repeat split; discriminate. Qed.

(** ** The position map *)

Lemma place_app (o1 o2 : list Z) (w row col : Z) :
  place (o1 ++ o2) w row col
  = let '(e1, row1, col1) := place o1 w row col in
    let '(e2, row2, col2) := place o2 w row1 col1 in
    (e1 ++ e2, row2, col2).
Proof.
  revert row col. induction o1 as [|o o1 IH]; intros row col; simpl.
  - destruct (place o2 w row col) as [[e2 r2] c2]. reflexivity.
  - destruct (col >? w).
    + rewrite IH. destruct (place o1 w (row + 1) (1 + 1)) as [[e1 r1] c1].
      destruct (place o2 w r1 c1) as [[e2 r2] c2]. reflexivity.
    + rewrite IH. destruct (place o1 w row (col + 1)) as [[e1 r1] c1].
      destruct (place o2 w r1 c1) as [[e2 r2] c2]. reflexivity.
Qed.

Lemma map_chars_place (text : str) (sourceOffset i w row col : Z) :
  map_chars (length text) sourceOffset i w row col
  = place (map snd (tagged text (sourceOffset + i))) w row col.
Proof.
  revert i row col. induction text as [|c text IH]; intros i row col; simpl; [reflexivity|].
  destruct (col >? w).
  - rewrite IH. replace (sourceOffset + (i + 1)) with (sourceOffset + i + 1) by lia.
    reflexivity.
  - rewrite IH. replace (sourceOffset + (i + 1)) with (sourceOffset + i + 1) by lia.
    reflexivity.
Qed.

Lemma map_segments_place (segments : list LineSegment) (w row col : Z) :
  map_segments segments w row col
  = place (map snd (characters segments)) w row col.
Proof.
  revert row col. induction segments as [|s rest IH]; intros row col; [reflexivity|].
  change (s :: rest) with ([s] ++ rest) at 2.
  rewrite characters_app, map_app, place_app, characters_one.
  cbn [map_segments]. rewrite map_chars_place, Z.add_0_r.
  destruct (place _ w row col) as [[e1 r1] c1]. rewrite IH. reflexivity.
Qed.

Lemma place_offsets (offsets : list Z) (w row col : Z) :
  map pm_sourceOffset (fst (fst (place offsets w row col))) = offsets.
Proof.
  revert row col. induction offsets as [|o os IH]; intros row col; simpl; [reflexivity|].
  destruct (col >? w).
  - specialize (IH (row + 1) (1 + 1)).
    destruct (place os w (row + 1) (1 + 1)) as [[e r] c]. simpl in *. f_equal. exact IH.
  - specialize (IH row (col + 1)).
    destruct (place os w row (col + 1)) as [[e r] c]. simpl in *. f_equal. exact IH.
Qed.

Lemma buildPositionMap_offsets (lines : list RenderedLine) (startRow w : Z) :
  map pm_sourceOffset (buildPositionMap lines startRow w) = line_offsets lines.
Proof.
  revert startRow. induction lines as [|line rest IH]; intros startRow; [reflexivity|].
  cbn [buildPositionMap]. rewrite map_segments_place.
  pose proof (place_offsets (map snd (characters (line_segments line))) w startRow
                (1 + line_indent line)) as Hp.
  destruct (place _ w startRow (1 + line_indent line)) as [[here row1] col1].
  simpl in Hp. rewrite map_app, IH, Hp. reflexivity.
Qed.

(** The cells handed out from (row, col) on come in reading order, none
    before (row, col) and all before the cell reached at the end. *)
Lemma place_sorted (offsets : list Z) (w row col : Z) :
  let '(entries, rowN, colN) := place offsets w row col in
  StronglySorted cell_before entries
  /\ Forall (fun p => row < pm_terminalRow p
                      \/ (row = pm_terminalRow p /\ col <= pm_terminalCol p)) entries
  /\ Forall (fun p => pm_terminalRow p < rowN
                      \/ (pm_terminalRow p = rowN /\ pm_terminalCol p < colN)) entries
  /\ row <= rowN.
Proof.
  revert row col. induction offsets as [|o os IH]; intros row col; simpl.
  - repeat split; try constructor. lia.
  - assert (exists row1 col1,
              (if col >? w then (row + 1, 1) else (row, col)) = (row1, col1)
              /\ (row < row1 \/ (row = row1 /\ col <= col1))) as (row1 & col1 & -> & Hcell).
    { destruct (col >? w); eexists _, _; (split; [reflexivity|lia]). }
    specialize (IH row1 (col1 + 1)).
    destruct (place os w row1 (col1 + 1)) as [[more rowN] colN] eqn:Hplace.
    destruct IH as (Hs & Hlo & Hhi & Hrow).
    rewrite Forall_forall in Hlo. rewrite Forall_forall in Hhi.
    split; [|split; [|split]].
    + constructor; [exact Hs|]. apply Forall_forall. intros p Hp.
      specialize (Hlo p Hp). unfold cell_before. simpl. lia.
    + constructor; [simpl; lia|]. apply Forall_forall. intros p Hp.
      specialize (Hlo p Hp). lia.
    + constructor.
      * simpl. destruct os as [|o' os'].
        -- simpl in Hplace. injection Hplace as <- <- <-. lia.
        -- destruct (Z.le_gt_cases rowN row1); [|lia]. right. split; [lia|].
           assert (exists p, p ∈ more) as [p Hp].
           { simpl in Hplace. destruct (col1 + 1 >? w);
               destruct (place os' w _ _) as [[m r] c]; injection Hplace as <- <- <-;
               eexists; left. }
           specialize (Hlo p Hp). specialize (Hhi p Hp). lia.
      * apply Forall_forall. intros p Hp. specialize (Hhi p Hp). exact Hhi.
    + lia.
Qed.

Lemma cell_before_rows (p q : PositionMapping) :
  pm_terminalRow p < pm_terminalRow q -> cell_before p q.
Proof. intros H. left. exact H. Qed.

Lemma StronglySorted_app_intro {A : Type} (R : A -> A -> Prop) (l1 l2 : list A) :
  StronglySorted R l1 -> StronglySorted R l2 ->
  (forall a b, In a l1 -> In b l2 -> R a b) ->
  StronglySorted R (l1 ++ l2).
Proof.
  intros H1 H2 H. induction l1 as [|a l1 IH]; [exact H2|].
  apply StronglySorted_inv in H1 as [H1 Ha]. simpl. constructor.
  - apply IH; [exact H1|]. intros x y Hx Hy. apply H; [right; exact Hx|exact Hy].
  - apply Forall_app. split; [exact Ha|].
    apply Forall_forall. intros y Hy. apply H; [left; reflexivity|].
    apply list_elem_of_In, Hy.
Qed.

(** The whole map is in reading order, and none of its entries is above
    the row it starts at. *)
Lemma buildPositionMap_sorted_from (lines : list RenderedLine) (startRow w : Z) :
  StronglySorted cell_before (buildPositionMap lines startRow w)
  /\ Forall (fun p => startRow <= pm_terminalRow p) (buildPositionMap lines startRow w).
Proof.
  revert startRow. induction lines as [|line rest IH]; intros startRow.
  - split; constructor.
  - cbn [buildPositionMap]. rewrite map_segments_place.
    pose proof (place_sorted (map snd (characters (line_segments line))) w startRow
                  (1 + line_indent line)) as Hp.
    destruct (place _ w startRow (1 + line_indent line)) as [[here row1] col1].
    destruct Hp as (Hs & Hlo & Hhi & Hrow).
    destruct (IH (row1 + 1)) as [IHs IHlo].
    rewrite Forall_forall in Hlo. rewrite Forall_forall in Hhi.
    rewrite Forall_forall in IHlo.
    split.
    + apply StronglySorted_app_intro; [exact Hs|exact IHs|].
      intros a b Ha Hb. apply cell_before_rows.
      apply list_elem_of_In in Ha. apply list_elem_of_In in Hb.
      specialize (Hhi a Ha). specialize (IHlo b Hb). lia.
    + apply Forall_app. split; apply Forall_forall; intros p Hp.
      * specialize (Hlo p Hp). lia.
      * specialize (IHlo p Hp). lia.
Qed.

Lemma cell_before_differs (p q : PositionMapping) :
  cell_before p q ->
  (pm_terminalRow p =? pm_terminalRow q) && (pm_terminalCol p =? pm_terminalCol q)
  = false.
Proof.
  intros [H | [H1 H2]].
  - apply andb_false_iff. left. apply Z.eqb_neq. lia.
  - apply andb_false_iff. right. apply Z.eqb_neq. lia.
Qed.

Lemma find_sorted (l : list PositionMapping) (p : PositionMapping) :
  StronglySorted cell_before l -> In p l ->
  List.find (fun q => (pm_terminalRow q =? pm_terminalRow p)
                      && (pm_terminalCol q =? pm_terminalCol p)) l = Some p.
Proof.
  induction l as [|a l IH]; intros Hs Hin; [destruct Hin|].
  apply StronglySorted_inv in Hs as [Hs Ha]. simpl.
  destruct Hin as [-> | Hin].
  - rewrite !Z.eqb_refl. reflexivity.
  - rewrite Forall_forall in Ha. apply list_elem_of_In in Hin as Hin'.
    rewrite (cell_before_differs a p (Ha p Hin')). apply IH; assumption.
Qed.

(** X2. No two entries of the position map share a terminal cell: the
    cells come in strict reading order, whatever the width and the
    indents are. *)
Theorem buildPositionMap_cells_in_reading_order
    (lines : list RenderedLine) (startRow terminalWidth : Z) :
  StronglySorted cell_before (buildPositionMap lines startRow terminalWidth)
  /\ NoDup (map (fun p => (pm_terminalRow p, pm_terminalCol p))
              (buildPositionMap lines startRow terminalWidth)).
Proof.
  pose proof (buildPositionMap_sorted_from lines startRow terminalWidth) as [Hs _].
  split; [exact Hs|].
  induction Hs as [|a l Hs IH Ha]; [constructor|].
  simpl. constructor; [|exact IH].
  intros Hin. apply list_elem_of_fmap in Hin as (q & Heq & Hq).
  rewrite Forall_forall in Ha. specialize (Ha q Hq).
  injection Heq as Hr Hc. unfold cell_before in Ha. lia.
Qed.

(** X3. Round trip of the position map: the cell that [buildPositionMap]
    gives to a character resolves, through [terminalToOffset], to the
    source offset of that character. *)
Theorem terminalToOffset_buildPositionMap
    (lines : list RenderedLine) (startRow terminalWidth : Z) (p : PositionMapping) :
  In p (buildPositionMap lines startRow terminalWidth) ->
  terminalToOffset (pm_terminalCol p) (pm_terminalRow p)
    (buildPositionMap lines startRow terminalWidth)
  = Ret (Some (pm_sourceOffset p)).
Proof.
  intros Hin. unfold terminalToOffset.
  pose proof (buildPositionMap_sorted_from lines startRow terminalWidth) as [Hs _].
  rewrite (find_sorted _ p Hs Hin). reflexivity.
Qed.

(** X1. The position map has one entry for each displayed character, in
    display order, and the entry carries the character's source offset. *)
Theorem buildPositionMap_one_entry_per_character
    (lines : list RenderedLine) (startRow terminalWidth : Z) :
  map pm_sourceOffset (buildPositionMap lines startRow terminalWidth)
  = line_offsets lines
  /\ length (buildPositionMap lines startRow terminalWidth)
     = length (concat (map (fun line => concat (map seg_text (line_segments line)))
                        lines)).
Proof.
  split; [apply buildPositionMap_offsets|].
  rewrite <- (length_map pm_sourceOffset), buildPositionMap_offsets.
  unfold line_offsets. induction lines as [|line rest IH]; [reflexivity|].
  simpl. rewrite !length_app, IH, length_map.
  f_equal. rewrite <- (characters_text (line_segments line)), length_map. reflexivity.
Qed.

Lemma buildPositionMap_characters (lines1 lines2 : list RenderedLine) (startRow w : Z) :
  Forall2 (fun l1 l2 => characters (line_segments l1) = characters (line_segments l2)
                        /\ line_indent l1 = line_indent l2) lines1 lines2 ->
  buildPositionMap lines1 startRow w = buildPositionMap lines2 startRow w.
Proof.
  intros H. revert startRow. induction H as [|l1 l2 r1 r2 [Hc Hi] _ IH]; intros startRow;
    [reflexivity|].
  cbn [buildPositionMap]. rewrite !map_segments_place, Hc, Hi.
  destruct (place _ w startRow (1 + line_indent l2)) as [[here row1] col1].
  rewrite IH. reflexivity.
Qed.

(** X4. The overlays do not move anything on the screen: with diffs in
    ascending order, the lines as [MarkdownRenderer] displays them (diffs
    applied, then the selection) have the position map of the lines they
    come from. *)
Theorem buildPositionMap_ignores_overlays
    (lines : list RenderedLine) (diffs : list DocumentDiff)
    (selectionStart selectionEnd : option Z) (startRow terminalWidth : Z) :
  ascending diffs ->
  buildPositionMap (map (overlaid diffs selectionStart selectionEnd) lines)
    startRow terminalWidth
  = buildPositionMap lines startRow terminalWidth.
Proof.
  intros Hasc. apply buildPositionMap_characters.
  induction lines as [|line rest IH]; constructor; [|exact IH].
  split; [|reflexivity]. simpl.
  rewrite applySelection_characters. apply applyDiffs_characters, Hasc.
Qed.

Lemma terminalToOffset_buildPositionMap_witness :
  In (mkPosition 2 1 2)
    (buildPositionMap [mkLine 1 0 3 [mkSegment (lit "abc") 0 3 no_style] 0 false] 1 2)
  /\ terminalToOffset 1 2
       (buildPositionMap [mkLine 1 0 3 [mkSegment (lit "abc") 0 3 no_style] 0 false] 1 2)
     = Ret (Some 2).
Proof.
  split; [vm_compute; tauto|].
  apply (terminalToOffset_buildPositionMap
           [mkLine 1 0 3 [mkSegment (lit "abc") 0 3 no_style] 0 false] 1 2
           (mkPosition 2 1 2)).
  vm_compute. tauto.
Defined.

Lemma buildPositionMap_ignores_overlays_witness :
  ascending [mkDiff 0 2 d_delete; mkDiff 2 3 d_add]
  /\ buildPositionMap
       (map (overlaid [mkDiff 0 2 d_delete; mkDiff 2 3 d_add] (Some 4) (Some 1))
          [mkLine 1 0 6 [mkSegment (lit "abcdef") 0 6 no_style] 0 false]) 1 4
     = buildPositionMap
         [mkLine 1 0 6 [mkSegment (lit "abcdef") 0 6 no_style] 0 false] 1 4.
Proof.
  assert (ascending [mkDiff 0 2 d_delete; mkDiff 2 3 d_add]) as H.
  { split; repeat constructor; simpl; lia. }
  split; [exact H|].
  apply (buildPositionMap_ignores_overlays
           [mkLine 1 0 6 [mkSegment (lit "abcdef") 0 6 no_style] 0 false]
           [mkDiff 0 2 d_delete; mkDiff 2 3 d_add] (Some 4) (Some 1) 1 4 H).
Defined.

(** ** What the selection overlay highlights *)

Lemma tagged_range (text : str) (offset : Z) (c : char) (o : Z) :
  In (c, o) (tagged text offset) -> offset <= o < offset + len text.
Proof.
  revert offset. induction text as [|c' text IH]; intros offset; simpl; [intros []|].
  rewrite len_cons. intros [H | H].
  - injection H as _ <-. pose proof (len_nonneg text). lia.
  - apply IH in H. lia.
Qed.

Lemma styled_app (s1 s2 : list LineSegment) :
  styled_characters (s1 ++ s2) = styled_characters s1 ++ styled_characters s2.
Proof. unfold styled_characters. rewrite map_app, concat_app. reflexivity. Qed.

Lemma styled_one (s : LineSegment) :
  styled_characters [s] = map (fun co => (co, seg_style s)) (tagged (seg_text s) (seg_sourceOffset s)).
Proof. unfold styled_characters. simpl. apply app_nil_r. Qed.

Lemma highlight_outside (start end_ : Z) (text : str) (offset : Z) (style : SegmentStyle) :
  end_ <= offset \/ offset + len text <= start \/ end_ <= start \/ len text <= 0 ->
  map (highlight start end_) (map (fun co => (co, style)) (tagged text offset))
  = map (fun co => (co, style)) (tagged text offset).
Proof.
  intros H. rewrite map_map. apply map_ext_in. intros [c o] Hin.
  apply tagged_range in Hin. simpl.
  destruct (Z.leb_spec start o); destruct (Z.ltb_spec o end_); simpl; try reflexivity.
  lia.
Qed.

Lemma highlight_inside (start end_ : Z) (text : str) (offset : Z) (style : SegmentStyle) :
  start <= offset -> offset + len text <= end_ ->
  map (highlight start end_) (map (fun co => (co, style)) (tagged text offset))
  = map (fun co => (co, spread style SELECTION_STYLE)) (tagged text offset).
Proof.
  intros H1 H2. rewrite map_map. apply map_ext_in. intros [c o] Hin.
  apply tagged_range in Hin. simpl.
  destruct (Z.leb_spec start o); destruct (Z.ltb_spec o end_); simpl; try reflexivity; lia.
Qed.

Lemma applySelection_segment_styled (start end_ : Z) (segment : LineSegment) :
  seg_sourceLength segment = len (seg_text segment) ->
  styled_characters (applySelection_segment start end_ segment)
  = map (highlight start end_) (styled_characters [segment]).
Proof.
  intros Hlen. unfold applySelection_segment. rewrite Hlen.
  set (text := seg_text segment). set (off := seg_sourceOffset segment).
  set (st := seg_style segment).
  pose proof (len_nonneg text) as Hl.
  destruct (Z.leb_spec end_ off) as [H1|H1]; simpl orb.
  { rewrite !styled_one. symmetry. apply highlight_outside. fold text off. lia. }
  destruct (Z.geb_spec start (off + len text)) as [H2|H2].
  { rewrite !styled_one. symmetry. apply highlight_outside. fold text off. lia. }
  set (a := Z.max 0 (start - off)). set (b := Z.min (len text) (end_ - off)).
  destruct (Z.leb_spec b a) as [Hba|Hab].
  { rewrite !styled_one. symmetry. apply highlight_outside. fold text off.
    unfold a, b in Hba. lia. }
  assert (0 <= a /\ a < b /\ b <= len text) as Hb by lia.
  rewrite len_slice_in_range by lia.
  destruct (Z.gtb_spec (b - a) 0) as [_|]; [|lia].
  rewrite !styled_app, !styled_one. cbn [seg_text seg_sourceOffset seg_style].
  fold text off st.
  assert (styled_characters (if a >? 0 then [mkSegment (slice text 0 a) off a st] else [])
          = map (highlight start end_)
              (map (fun co => (co, st)) (tagged (slice text 0 a) (off + 0)))) as ->.
  { destruct (Z.gtb_spec a 0).
    - rewrite styled_one, Z.add_0_r. cbn [seg_text seg_sourceOffset seg_style].
      symmetry. apply highlight_outside. rewrite len_slice_in_range by lia. lia.
    - rewrite slice_empty by lia. reflexivity. }
  assert (styled_characters (if b <? len text
                  then [mkSegment (slice_from text b) (off + b) (len text - b) st]
                  else [])
          = map (highlight start end_)
              (map (fun co => (co, st)) (tagged (slice text b (len text)) (off + b)))) as ->.
  { destruct (Z.ltb_spec b (len text)).
    - rewrite styled_one. cbn [seg_text seg_sourceOffset seg_style].
      symmetry. apply highlight_outside. lia.
    - rewrite slice_empty by lia. reflexivity. }
  rewrite <- (highlight_inside start end_ (slice text a b) (off + a) st)
    by (rewrite ?len_slice_in_range by lia; lia).
  rewrite <- !List.map_app. f_equal. f_equal.
  rewrite app_assoc, tagged_slices by lia. rewrite tagged_slices by lia.
  rewrite slice_all, Z.add_0_r. reflexivity.
Qed.

Lemma applySelection_styled
    (segments : list LineSegment) (selectionStart selectionEnd : Z) :
  Forall (fun s => seg_sourceLength s = len (seg_text s)) segments ->
  styled_characters (applySelection segments (Some selectionStart) (Some selectionEnd))
  = map (highlight (Z.min selectionStart selectionEnd)
           (Z.max selectionStart selectionEnd))
      (styled_characters segments).
Proof.
  intros Hlen. unfold applySelection.
  destruct (Z.eqb_spec selectionStart selectionEnd) as [->|Hne].
  - rewrite Z.min_id, Z.max_id. symmetry.
    induction segments as [|s rest IH]; [reflexivity|].
    apply Forall_cons in Hlen as [_ Hrest].
    change (s :: rest) with ([s] ++ rest).
    rewrite styled_app, map_app, (IH Hrest), styled_one, highlight_outside by lia.
    reflexivity.
  - induction segments as [|s rest IH]; [reflexivity|].
    apply Forall_cons in Hlen as [Hs Hrest].
    change (s :: rest) with ([s] ++ rest) at 2.
    cbn [map concat]. rewrite !styled_app, map_app, (IH Hrest).
    rewrite applySelection_segment_styled by exact Hs. reflexivity.
Qed.

(** X5. What the selection overlay highlights: when every segment spans as
    many source characters as it displays, [applySelection] leaves every
    character and offset in place, puts the selection style on exactly
    the characters whose offset lies in [min, max) of the two ends, and
    leaves the style of every other character as it was. *)
Theorem applySelection_highlights_range
    (segments : list LineSegment) (selectionStart selectionEnd : Z) :
  Forall (fun s => seg_sourceLength s = len (seg_text s)) segments ->
  styled_characters (applySelection segments (Some selectionStart) (Some selectionEnd))
  = map (highlight (Z.min selectionStart selectionEnd)
           (Z.max selectionStart selectionEnd))
      (styled_characters segments).
Proof. exact (applySelection_styled segments selectionStart selectionEnd). Qed.

Lemma applySelection_highlights_range_witness :
  Forall (fun s => seg_sourceLength s = len (seg_text s))
    [mkSegment (lit "abc") 0 3 no_style; mkSegment (lit "def") 3 3 MARKDOWN_STYLES.bold]
  /\ styled_characters
       (applySelection
          [mkSegment (lit "abc") 0 3 no_style; mkSegment (lit "def") 3 3 MARKDOWN_STYLES.bold]
          (Some 4) (Some 2))
     = map (highlight (Z.min 4 2) (Z.max 4 2))
         (styled_characters
            [mkSegment (lit "abc") 0 3 no_style;
             mkSegment (lit "def") 3 3 MARKDOWN_STYLES.bold]).
Proof.
  assert (Forall (fun s => seg_sourceLength s = len (seg_text s))
            [mkSegment (lit "abc") 0 3 no_style;
             mkSegment (lit "def") 3 3 MARKDOWN_STYLES.bold]) as H.
  { repeat constructor. }
  split; [exact H|].
  apply (applySelection_highlights_range
           [mkSegment (lit "abc") 0 3 no_style;
            mkSegment (lit "def") 3 3 MARKDOWN_STYLES.bold] 4 2 H).
Defined.

(** ** What the diff overlay marks *)

Lemma diff_mark_ext (ds1 ds2 : list DocumentDiff) (text : str) (offset : Z)
    (style : SegmentStyle) :
  (forall o, offset <= o < offset + len text ->
     List.find (in_diff o) ds1 = List.find (in_diff o) ds2) ->
  map (diff_mark ds1) (map (fun co => (co, style)) (tagged text offset))
  = map (diff_mark ds2) (map (fun co => (co, style)) (tagged text offset)).
Proof.
  intros H. rewrite !map_map. apply map_ext_in. intros [c o] Hin.
  apply tagged_range in Hin. simpl. rewrite (H o Hin). reflexivity.
Qed.

Lemma diff_mark_nil (text : str) (offset : Z) (style : SegmentStyle) :
  map (diff_mark []) (map (fun co => (co, style)) (tagged text offset))
  = map (fun co => (co, style)) (tagged text offset).
Proof. rewrite map_map. apply map_ext. intros [c o]. reflexivity. Qed.

Lemma diff_mark_none (ds : list DocumentDiff) (text : str) (offset : Z)
    (style : SegmentStyle) :
  (forall o, offset <= o < offset + len text -> List.find (in_diff o) ds = None) ->
  map (diff_mark ds) (map (fun co => (co, style)) (tagged text offset))
  = map (fun co => (co, style)) (tagged text offset).
Proof.
  intros H. rewrite <- (diff_mark_nil text offset style) at 2.
  apply diff_mark_ext. intros o Ho. rewrite (H o Ho). reflexivity.
Qed.

Lemma diff_mark_head (d : DocumentDiff) (rest : list DocumentDiff) (text : str)
    (offset : Z) (style : SegmentStyle) :
  diff_startOffset d <= offset -> offset + len text <= diff_endOffset d ->
  map (diff_mark (d :: rest)) (map (fun co => (co, style)) (tagged text offset))
  = map (fun co => (co, spread style (DIFF_STYLES (diff_type d)))) (tagged text offset).
Proof.
  intros H1 H2. rewrite map_map. apply map_ext_in. intros [c o] Hin.
  apply tagged_range in Hin. simpl. unfold in_diff.
  destruct (Z.leb_spec (diff_startOffset d) o); [|lia].
  destruct (Z.ltb_spec o (diff_endOffset d)); [|lia]. reflexivity.
Qed.

Lemma find_none (o : Z) (ds : list DocumentDiff) :
  (forall d, In d ds -> o < diff_startOffset d \/ diff_endOffset d <= o) ->
  List.find (in_diff o) ds = None.
Proof.
  intros H. induction ds as [|d ds IH]; [reflexivity|]. simpl.
  destruct (in_diff o d) eqn:E.
  - unfold in_diff in E. apply andb_true_iff in E as [E1 E2].
    specialize (H d (or_introl eq_refl)). lia.
  - apply IH. intros d' Hd'. apply H. right. exact Hd'.
Qed.

Lemma find_filter (o : Z) (q : DocumentDiff -> bool) (ds : list DocumentDiff) :
  (forall d, in_diff o d = true -> q d = true) ->
  List.find (in_diff o) (List.filter q ds) = List.find (in_diff o) ds.
Proof.
  intros H. induction ds as [|d ds IH]; [reflexivity|]. simpl.
  destruct (q d) eqn:Eq; simpl.
  - rewrite IH. reflexivity.
  - destruct (in_diff o d) eqn:Ei; [|exact IH].
    rewrite (H d Ei) in Eq. discriminate.
Qed.

Lemma ascending_starts (d : DocumentDiff) (rest : list DocumentDiff) :
  ascending (d :: rest) ->
  forall d', In d' (d :: rest) -> diff_startOffset d <= diff_startOffset d'.
Proof.
  intros [Hwf Hs] d' [<- | Hin]; [lia|].
  apply Forall_cons in Hwf as [Hd _]. apply StronglySorted_inv in Hs as [_ Hall].
  rewrite Forall_forall in Hall. specialize (Hall d' (proj2 (list_elem_of_In _ _) Hin)).
  lia.
Qed.

Lemma diff_parts_styled (segment : LineSegment) (diffs : list DocumentDiff)
    (textPos : Z) (parts : list LineSegment) (final : Z) :
  ascending diffs ->
  Forall (fun d => diff_endOffset d > seg_sourceOffset segment
                  /\ diff_startOffset d
                     < seg_sourceOffset segment + len (seg_text segment)) diffs ->
  0 <= textPos <= len (seg_text segment) ->
  match diffs with
  | d :: _ => textPos <= Z.max 0 (diff_startOffset d - seg_sourceOffset segment)
  | [] => True
  end ->
  diff_parts segment (seg_sourceOffset segment) diffs textPos = (parts, final) ->
  textPos <= final <= len (seg_text segment)
  /\ styled_characters parts
     = map (diff_mark diffs)
         (map (fun co => (co, seg_style segment))
            (tagged (slice (seg_text segment) textPos final)
               (seg_sourceOffset segment + textPos)))
  /\ (diffs <> [] -> final < len (seg_text segment) ->
      forall d, In d diffs -> diff_endOffset d <= seg_sourceOffset segment + final).
Proof.
  set (text := seg_text segment). set (off := seg_sourceOffset segment).
  set (st := seg_style segment).
  revert textPos parts final.
  induction diffs as [|d rest IH]; intros textPos parts final Hasc Hover Hpos Hfirst H.
  - injection H as <- <-. split; [lia|]. split; [|congruence].
    rewrite slice_empty by lia. reflexivity.
  - cbn [diff_parts] in H. fold text off st in H.
    set (a := Z.max 0 (diff_startOffset d - off)) in *.
    set (b := Z.min (len text) (diff_endOffset d - off)) in *.
    pose proof (ascending_starts d rest Hasc) as Hstarts.
    destruct Hasc as [Hwf Hs].
    apply Forall_cons in Hwf as [Hd Hwf]. apply Forall_cons in Hover as [[Hdo Hdi] Hover].
    fold text off in Hdo, Hdi.
    apply StronglySorted_inv in Hs as [Hs Hnext].
    assert (0 <= b <= len text) as Hb by lia.
    assert (textPos <= b) as Htb by lia.
    assert (a <= b) as Hab by lia.
    destruct (diff_parts segment off rest b) as [more final'] eqn:Er.
    injection H as <- <-.
    destruct (IH b more final' (conj Hwf Hs) Hover Hb) as (Hfin & Hmore & Hends);
      [|exact Er|].
    { destruct rest as [|d' rest]; [exact I|].
      apply Forall_cons in Hnext as [Hdd' _]. lia. }
    split; [lia|]. split.
    + rewrite !styled_app, Hmore.
      rewrite <- (tagged_slices text off textPos b final') by lia.
      rewrite <- (tagged_slices text off textPos a b) by lia.
      rewrite !List.map_app, <- !app_assoc. f_equal; [|f_equal].
      * (* before the diff *)
        destruct (Z.gtb_spec a textPos) as [Hgt|Hle].
        -- rewrite styled_one. cbn [seg_text seg_sourceOffset seg_style].
           symmetry. apply diff_mark_none. intros o Ho.
           rewrite len_slice_in_range in Ho by lia. apply find_none.
           intros d' Hd'. specialize (Hstarts d' Hd'). lia.
        -- rewrite slice_empty by lia. reflexivity.
      * (* the diff *)
        destruct (Z.gtb_spec b a) as [Hgt|Hle].
        -- rewrite styled_one. cbn [seg_text seg_sourceOffset seg_style].
           symmetry. apply diff_mark_head; [lia|].
           rewrite len_slice_in_range by lia. lia.
        -- rewrite slice_empty by lia. reflexivity.
      * (* after the diff *)
        apply diff_mark_ext. intros o Ho. simpl.
        pose proof (len_slice_le text b final') as Hsl.
        destruct (in_diff o d) eqn:E; [|reflexivity].
        unfold in_diff in E. apply andb_true_iff in E as [E1 E2].
        rewrite len_slice_in_range in Ho by lia. lia.
    + intros _ Hlt d' [<- | Hd'].
      * destruct rest as [|d2 rest2].
        -- injection Er as _ <-. lia.
        -- apply Forall_cons in Hnext as [Hdd' _].
           apply Forall_cons in Hwf as [Hd2 _].
           specialize (Hends ltac:(discriminate) Hlt d2 (or_introl eq_refl)). lia.
      * destruct rest as [|d2 rest2]; [destruct Hd'|].
        apply (Hends ltac:(discriminate) Hlt d' Hd').
Qed.

Lemma applyDiffs_segment_styled (diffs : list DocumentDiff) (segment : LineSegment) :
  ascending diffs -> seg_sourceLength segment = len (seg_text segment) ->
  styled_characters (applyDiffs_segment diffs segment)
  = map (diff_mark diffs) (styled_characters [segment]).
Proof.
  intros Hasc Hlen. unfold applyDiffs_segment. rewrite Hlen.
  set (off := seg_sourceOffset segment). set (text := seg_text segment).
  set (st := seg_style segment).
  pose proof (ascending_filter (overlaps off (off + len text)) diffs Hasc) as Hfasc.
  assert (Forall (fun d => diff_endOffset d > off /\ diff_startOffset d < off + len text)
            (List.filter (overlaps off (off + len text)) diffs)) as Hover.
  { apply Forall_forall. intros d Hd. apply list_elem_of_In, filter_In in Hd as [_ Hd].
    unfold overlaps in Hd. apply andb_true_iff in Hd as [Hd1 Hd2]. lia. }
  assert (map (diff_mark diffs) (styled_characters [segment])
          = map (diff_mark (List.filter (overlaps off (off + len text)) diffs))
              (map (fun co => (co, st)) (tagged text off))) as ->.
  { rewrite styled_one. apply diff_mark_ext. intros o Ho. symmetry.
    apply find_filter. intros d Hd. unfold in_diff in Hd. unfold overlaps.
    apply andb_true_iff in Hd as [H1 H2]. apply andb_true_iff.
    fold text off in Ho. split; lia. }
  destruct (List.filter _ diffs) as [|d0 overlapping] eqn:Ef.
  { rewrite styled_one, diff_mark_nil. reflexivity. }
  rewrite (ascending_sorted _ Hfasc).
  pose proof (len_nonneg text) as Hl.
  destruct (diff_parts segment off (d0 :: overlapping) 0) as [parts textPos] eqn:Ep.
  destruct (diff_parts_styled segment (d0 :: overlapping) 0 parts textPos
              Hfasc Hover) as (Hfin & Hparts & Hends);
    [fold text; lia|apply Z.le_max_l|exact Ep|].
  fold text off st in Hfin, Hparts, Hends.
  rewrite styled_app, Hparts.
  assert (tagged text off
          = tagged (slice text 0 textPos) (off + 0)
            ++ tagged (slice text textPos (len text)) (off + textPos)) as ->.
  { rewrite tagged_slices by lia. rewrite slice_all, Z.add_0_r. reflexivity. }
  rewrite !List.map_app. f_equal.
  destruct (Z.ltb_spec textPos (len text)) as [Hlt|Hge].
  - rewrite styled_one. cbn [seg_text seg_sourceOffset seg_style]. fold st.
    unfold slice_from.
    symmetry. apply diff_mark_none. intros o Ho. apply find_none.
    intros d Hd. right. specialize (Hends ltac:(discriminate) Hlt d Hd). lia.
  - rewrite slice_empty by lia. reflexivity.
Qed.

Lemma applyDiffs_styled
    (segments : list LineSegment) (diffs : list DocumentDiff) :
  ascending diffs ->
  Forall (fun s => seg_sourceLength s = len (seg_text s)) segments ->
  styled_characters (applyDiffs segments diffs)
  = map (diff_mark diffs) (styled_characters segments).
Proof.
  intros Hasc Hlen. unfold applyDiffs.
  destruct diffs as [|d diffs].
  - induction segments as [|s rest IH]; [reflexivity|].
    apply Forall_cons in Hlen as [_ Hrest].
    change (s :: rest) with ([s] ++ rest).
    rewrite styled_app, List.map_app, <- (IH Hrest), styled_one, diff_mark_nil.
    reflexivity.
  - induction segments as [|s rest IH]; [reflexivity|].
    apply Forall_cons in Hlen as [Hs Hrest].
    change (s :: rest) with ([s] ++ rest) at 2.
    cbn [map concat]. rewrite !styled_app, List.map_app, (IH Hrest).
    rewrite applyDiffs_segment_styled by assumption. reflexivity.
Qed.

(** X6. What the diff overlay marks: for diff ranges that are well formed
    and come one after the other, on segments that span as many source
    characters as they display, [applyDiffs] leaves every character and
    offset in place, puts the style of a diff on exactly the characters
    whose offset lies in its range, and leaves the style of every other
    character as it was. *)
Theorem applyDiffs_marks_ranges
    (segments : list LineSegment) (diffs : list DocumentDiff) :
  ascending diffs ->
  Forall (fun s => seg_sourceLength s = len (seg_text s)) segments ->
  styled_characters (applyDiffs segments diffs)
  = map (diff_mark diffs) (styled_characters segments).
Proof. exact (applyDiffs_styled segments diffs). Qed.

Lemma applyDiffs_marks_ranges_witness :
  ascending [mkDiff 1 2 d_delete; mkDiff 2 5 d_add]
  /\ Forall (fun s => seg_sourceLength s = len (seg_text s))
       [mkSegment (lit "abc") 0 3 no_style; mkSegment (lit "def") 3 3 MARKDOWN_STYLES.bold]
  /\ styled_characters
       (applyDiffs
          [mkSegment (lit "abc") 0 3 no_style; mkSegment (lit "def") 3 3 MARKDOWN_STYLES.bold]
          [mkDiff 1 2 d_delete; mkDiff 2 5 d_add])
     = map (diff_mark [mkDiff 1 2 d_delete; mkDiff 2 5 d_add])
         (styled_characters
            [mkSegment (lit "abc") 0 3 no_style;
             mkSegment (lit "def") 3 3 MARKDOWN_STYLES.bold]).
Proof.
  assert (ascending [mkDiff 1 2 d_delete; mkDiff 2 5 d_add]) as Ha.
  { split; repeat constructor; simpl; lia. }
  assert (Forall (fun s => seg_sourceLength s = len (seg_text s))
            [mkSegment (lit "abc") 0 3 no_style;
             mkSegment (lit "def") 3 3 MARKDOWN_STYLES.bold]) as Hs.
  { repeat constructor. }
  split; [exact Ha|]. split; [exact Hs|].
  apply (applyDiffs_marks_ranges
           [mkSegment (lit "abc") 0 3 no_style;
            mkSegment (lit "def") 3 3 MARKDOWN_STYLES.bold]
           [mkDiff 1 2 d_delete; mkDiff 2 5 d_add] Ha Hs).
Defined.

(** ** Lines and columns of offsets *)

Lemma lineCol_loop_lines (chars : str) (n : nat) (line column : Z) :
  lineCol_loop chars n line column
  = let ls := split_nl (take n chars) in
    (line + Z.of_nat (length ls) - 1,
     (if (length ls =? 1)%nat then column else 1) + len (List.last ls [])).
Proof.
  revert n line column. induction chars as [|c cs IH]; intros n line column.
  - destruct n; simpl; unfold len; simpl; f_equal; lia.
  - destruct n as [|n]; [simpl; unfold len; simpl; f_equal; lia|].
    cbn [lineCol_loop take split_nl].
    pose proof (split_nl_nonempty (take n cs)) as Hne.
    destruct (N.eqb c c_nl).
    + rewrite IH. cbv zeta.
      destruct (split_nl (take n cs)) as [|l ls] eqn:E; [congruence|].
      cbn [length]. replace (S (S (length ls)) =? 1)%nat with false by reflexivity.
      change (List.last ([] :: l :: ls) []) with (List.last (l :: ls) (@nil char)).
      f_equal; [lia|]. destruct (S (length ls) =? 1)%nat; reflexivity.
    + rewrite IH. cbv zeta.
      destruct (split_nl (take n cs)) as [|l ls] eqn:E; [congruence|].
      cbn [length]. f_equal.
      destruct ls as [|l' ls'].
      * simpl. rewrite len_cons. lia.
      * change (List.last ((c :: l) :: l' :: ls') []) with (List.last (l' :: ls') (@nil char)).
        change (List.last (l :: l' :: ls') []) with (List.last (l' :: ls') (@nil char)).
        reflexivity.
Qed.

(** X7. The position of an offset is read off the lines of the text before
    it: the line is the number of those lines and the column is one more
    than the length of the last of them.  An offset past the end of the
    content counts as the end, a negative one as the start. *)
Theorem offsetToLineCol_lines (offset : Z) (content : str) :
  offsetToLineCol offset content
  = (Z.of_nat (length (split_nl (take (Z.to_nat offset) content))),
     1 + len (List.last (split_nl (take (Z.to_nat offset) content)) []))
  /\ (len content <= offset ->
      offsetToLineCol offset content = offsetToLineCol (len content) content)
  /\ (offset <= 0 -> offsetToLineCol offset content = (1, 1)).
Proof.
  split; [|split].
  - unfold offsetToLineCol. rewrite lineCol_loop_lines. cbv zeta.
    pose proof (split_nl_nonempty (take (Z.to_nat offset) content)) as Hne.
    destruct (split_nl (take (Z.to_nat offset) content)) as [|l ls]; [congruence|].
    f_equal; [lia|].
    destruct ls as [|l' ls']; [reflexivity|]. reflexivity.
  - intros H. unfold offsetToLineCol. rewrite !lineCol_loop_lines.
    rewrite !take_ge by (unfold len in *; lia). reflexivity.
  - intros H. unfold offsetToLineCol. replace (Z.to_nat offset) with O by lia.
    destruct content; reflexivity.
Qed.

Lemma lineCol_loop_add (chars : str) (n m : nat) (line column : Z) :
  lineCol_loop chars (n + m) line column
  = lineCol_loop (drop n chars) m
      (fst (lineCol_loop chars n line column))
      (snd (lineCol_loop chars n line column)).
Proof.
  revert chars line column. induction n as [|n IH]; intros chars line column.
  - destruct chars; reflexivity.
  - destruct chars as [|c cs].
    + simpl. destruct m; reflexivity.
    + cbn [Nat.add lineCol_loop drop]. destruct (N.eqb c c_nl); apply IH.
Qed.

Lemma lineCol_loop_grows (chars : str) (n : nat) (line column : Z) :
  line < fst (lineCol_loop chars n line column)
  \/ (line = fst (lineCol_loop chars n line column)
      /\ column <= snd (lineCol_loop chars n line column)).
Proof.
  revert n line column. induction chars as [|c cs IH]; intros n line column.
  - destruct n; simpl; lia.
  - destruct n as [|n]; [simpl; lia|]. cbn [lineCol_loop].
    destruct (N.eqb c c_nl).
    + specialize (IH n (line + 1) 1). lia.
    + specialize (IH n line (column + 1)). lia.
Qed.

Lemma lineCol_loop_moves (chars : str) (n : nat) (line column : Z) :
  chars <> [] ->
  position_before (line, column) (lineCol_loop chars (S n) line column).
Proof.
  intros Hne. destruct chars as [|c cs]; [congruence|]. cbn [lineCol_loop].
  unfold position_before. cbn [fst snd].
  destruct (N.eqb c c_nl).
  - pose proof (lineCol_loop_grows cs n (line + 1) 1). lia.
  - pose proof (lineCol_loop_grows cs n line (column + 1)). lia.
Qed.

Lemma offsetToLineCol_increasing (content : str) (s e : Z) :
  0 <= s -> s < e -> e <= len content ->
  position_before (offsetToLineCol s content) (offsetToLineCol e content).
Proof.
  intros H0 Hse He. unfold offsetToLineCol.
  replace (Z.to_nat e) with (Z.to_nat s + S (Z.to_nat (e - s - 1)))%nat by lia.
  rewrite lineCol_loop_add.
  destruct (lineCol_loop content (Z.to_nat s) 1 1) as [l c]. cbn [fst snd].
  apply lineCol_loop_moves. intros Hnil.
  apply (f_equal length) in Hnil. rewrite length_drop in Hnil.
  unfold len in He. simpl in Hnil. lia.
Qed.

Lemma offsetToLineCol_from_one (offset : Z) (content : str) :
  1 <= fst (offsetToLineCol offset content)
  /\ 1 <= snd (offsetToLineCol offset content).
Proof.
  unfold offsetToLineCol.
  assert (forall chars n line column, 1 <= line -> 1 <= column ->
            1 <= fst (lineCol_loop chars n line column)
            /\ 1 <= snd (lineCol_loop chars n line column)) as H.
  { induction chars as [|c cs IH]; intros n line column Hl Hc.
    - destruct n; simpl; lia.
    - destruct n as [|n]; [simpl; lia|]. cbn [lineCol_loop].
      destruct (N.eqb c c_nl); apply IH; lia. }
  apply H; lia.
Qed.

(** X8. Positions follow offsets: of two offsets inside the content the
    smaller one gets the earlier (line, column), so two different offsets
    never get the same position; lines and columns count from one. *)
Theorem offsetToLineCol_strictly_increasing (content : str) (s e : Z) :
  0 <= s -> s < e -> e <= len content ->
  position_before (offsetToLineCol s content) (offsetToLineCol e content)
  /\ 1 <= fst (offsetToLineCol s content) /\ 1 <= snd (offsetToLineCol s content).
Proof.
  intros H0 Hse He. split; [apply offsetToLineCol_increasing; assumption|].
  apply offsetToLineCol_from_one.
Qed.

(** X9. What a selection reports: for a range [start, end_) inside the
    content, [getSelectionData] gives the [end_ - start] characters the
    content has from [start] on, the two offsets as they are, and a start
    position that comes before the end position. *)
Theorem getSelectionData_range (content : str) (state : SelectionState) (s e : Z) :
  sel_startOffset state = Some s -> sel_endOffset state = Some e ->
  0 <= s -> s < e -> e <= len content ->
  exists d,
    getSelectionData content state = Some d
    /\ ds_selectedText d = take (Z.to_nat (e - s)) (drop (Z.to_nat s) content)
    /\ len (ds_selectedText d) = e - s
    /\ ds_startOffset d = s /\ ds_endOffset d = e
    /\ position_before (ds_startLine d, ds_startColumn d)
                       (ds_endLine d, ds_endColumn d).
Proof.
  intros Hs He H0 Hse Hlen. unfold getSelectionData. rewrite Hs, He.
  destruct (Z.eqb_spec s e); [lia|].
  eexists. split; [reflexivity|]. cbn.
  repeat split.
  - apply slice_in_range; lia.
  - apply len_slice_in_range; lia.
  - pose proof (offsetToLineCol_increasing content s e H0 Hse Hlen) as H.
    destruct (offsetToLineCol s content), (offsetToLineCol e content). exact H.
Qed.

Lemma offsetToLineCol_strictly_increasing_witness :
  0 <= 1 /\ 1 < 3 /\ 3 <= len (lit "ab" ++ [c_nl] ++ lit "cd")
  /\ position_before (offsetToLineCol 1 (lit "ab" ++ [c_nl] ++ lit "cd"))
       (offsetToLineCol 3 (lit "ab" ++ [c_nl] ++ lit "cd")).
Proof.
  split; [lia|]. split; [lia|]. split; [vm_compute; discriminate|].
  apply (proj1 (offsetToLineCol_strictly_increasing (lit "ab" ++ [c_nl] ++ lit "cd") 1 3
                  ltac:(lia) ltac:(lia) ltac:(vm_compute; discriminate))).
Defined.

Lemma getSelectionData_range_witness :
  exists d,
    getSelectionData (lit "ab" ++ [c_nl] ++ lit "cd")
      (mkSelection false (Some 4) (Some 1) (Some 1) (Some 4)) = Some d
    /\ ds_selectedText d
       = take (Z.to_nat (4 - 1)) (drop (Z.to_nat 1) (lit "ab" ++ [c_nl] ++ lit "cd"))
    /\ len (ds_selectedText d) = 4 - 1
    /\ ds_startOffset d = 1 /\ ds_endOffset d = 4
    /\ position_before (ds_startLine d, ds_startColumn d)
                       (ds_endLine d, ds_endColumn d).
Proof.
  apply (getSelectionData_range (lit "ab" ++ [c_nl] ++ lit "cd")
           (mkSelection false (Some 4) (Some 1) (Some 1) (Some 4)) 1 4
           eq_refl eq_refl ltac:(lia) ltac:(lia) ltac:(vm_compute; discriminate)).
Defined.

(** ** More on the selection controller *)

Lemma dispatch_move_button_up (opts : Options) (c : Controller) (move : MouseEvent) :
  is_move move -> mouseDownRef c = false -> dispatch opts c move = c.
Proof.
  intros Hm Hd. unfold dispatch, handler, handleMove. rewrite Hm, Hd.
  rewrite orb_true_r. reflexivity.
Qed.

Lemma run_moves_button_up (opts : Options) (moves : list MouseEvent) (c : Controller) :
  Forall is_move moves -> mouseDownRef c = false -> run opts moves c = c.
Proof.
  intros Hall Hd. induction Hall as [|m moves Hm _ IH]; [reflexivity|].
  simpl. rewrite (dispatch_move_button_up opts c m Hm Hd). exact IH.
Qed.

(** X10. Moves count only while the button is held: with the button up, as
    at the start, and after every release the enabled hook has handled,
    any number of moves leave the state and the notifications as they
    are. *)
Theorem moves_ignored_while_button_up
    (opts : Options) (c : Controller) (moves : list MouseEvent) :
  Forall is_move moves ->
  (mouseDownRef c = false -> run opts moves c = c)
  /\ run opts moves initial = initial
  /\ (forall release, opt_enabled opts = true -> is_release release ->
        run opts (release :: moves) c = dispatch opts c release).
Proof.
  intros Hall. split; [|split].
  - apply run_moves_button_up, Hall.
  - apply run_moves_button_up; [exact Hall|reflexivity].
  - intros release He [Hm Hp]. simpl. apply run_moves_button_up; [exact Hall|].
    unfold dispatch, handler, handleRelease. rewrite Hm, Hp, He. reflexivity.
Qed.

(** X11. A hook that is not enabled does nothing: no sequence of events
    changes its state or invokes the callback. *)
Theorem disabled_hook_is_inert
    (opts : Options) (events : list MouseEvent) (c : Controller) :
  opt_enabled opts = false -> run opts events c = c.
Proof.
  intros He. induction events as [|e events IH]; [reflexivity|].
  simpl. replace (dispatch opts c e) with c; [exact IH|].
  unfold dispatch, handler, handleMove, handleClick, handleRelease. rewrite He.
  destruct (ev_isMotion e); [reflexivity|]. destruct (ev_pressed e); reflexivity.
Qed.

Lemma dispatch_coherent (opts : Options) (c : Controller) (event : MouseEvent) :
  coherent c -> coherent (dispatch opts c event).
Proof.
  intros Hc. pose proof Hc as [Hsel Hoff]. unfold dispatch, handler.
  destruct (ev_isMotion event); [|destruct (ev_pressed event)].
  - unfold handleMove.
    destruct (negb (opt_enabled opts)); [exact Hc|].
    destruct (mouseDownRef c) eqn:Hd; cbn [negb orb]; [|exact Hc].
    destruct (resolve opts event) as [[offset|]|]; cbn [bind]; try exact Hc.
    destruct (sel_anchorOffset (selection c)) as [a|] eqn:Ha; [|exact Hc].
    split; [cbn; congruence|]. cbn. rewrite ?Ha. split; reflexivity.
  - unfold handleClick.
    destruct (negb (opt_enabled opts)); [exact Hc|].
    destruct (resolve opts event) as [[offset|]|]; cbn [bind]; try exact Hc.
    split; [reflexivity|]. cbn. lia.
  - unfold handleRelease.
    destruct (negb (opt_enabled opts)); [exact Hc|].
    split; [reflexivity|]. exact Hoff.
Qed.

(** X12. The state of the hook hangs together after any sequence of
    events: the selecting flag is set exactly while the button is held,
    the four offsets are unset together or set together, and start and
    end are the smaller and the larger of anchor and focus. *)
Theorem controller_state_coherent (opts : Options) (events : list MouseEvent) :
  coherent (run opts events initial)
  /\ (forall c event, coherent c -> coherent (dispatch opts c event)).
Proof.
  split; [|intros c event; apply dispatch_coherent].
  assert (forall c, coherent c -> coherent (run opts events c)) as H.
  { induction events as [|e events IH]; intros c Hc; [exact Hc|].
    simpl. apply IH, dispatch_coherent, Hc. }
  apply H. split; reflexivity.
Qed.

Lemma dispatch_notified (opts : Options) (c : Controller) (event : MouseEvent) :
  exists more,
    notified (dispatch opts c event) = notified c ++ more
    /\ (length more <= if may_notify event then 1 else 0)%nat.
Proof.
  unfold dispatch, handler, may_notify.
  destruct (ev_isMotion event); [|destruct (ev_pressed event)]; cbn [orb negb].
  - unfold handleMove.
    destruct (negb (opt_enabled opts) || negb (mouseDownRef c));
      [exists []; rewrite app_nil_r; split; [reflexivity|simpl; lia]|].
    destruct (resolve opts event) as [[offset|]|]; cbn [bind];
      try (exists []; rewrite app_nil_r; split; [reflexivity|simpl; lia]).
    destruct (sel_anchorOffset (selection c)) as [a|];
      [|exists []; rewrite app_nil_r; split; [reflexivity|simpl; lia]].
    cbn [notified]. unfold notify. destruct (opt_onSelectionChange opts).
    + eexists [_]. split; [reflexivity|simpl; lia].
    + exists []. rewrite app_nil_r. split; [reflexivity|simpl; lia].
  - unfold handleClick.
    destruct (negb (opt_enabled opts));
      [exists []; rewrite app_nil_r; split; [reflexivity|simpl; lia]|].
    destruct (resolve opts event) as [[offset|]|]; cbn [bind];
      exists []; rewrite app_nil_r; (split; [reflexivity|simpl; lia]).
  - unfold handleRelease.
    destruct (negb (opt_enabled opts));
      [exists []; rewrite app_nil_r; split; [reflexivity|simpl; lia]|].
    cbn [notified].
    destruct (getSelectionData _ _) as [d|];
      [|exists []; rewrite app_nil_r; split; [reflexivity|simpl; lia]].
    destruct (negb (ds_startOffset d =? ds_endOffset d));
      [|exists []; rewrite app_nil_r; split; [reflexivity|simpl; lia]].
    unfold notify. destruct (opt_onSelectionChange opts).
    + eexists [_]. split; [reflexivity|simpl; lia].
    + exists []. rewrite app_nil_r. split; [reflexivity|simpl; lia].
Qed.

(** X13. The callback is invoked at most once for each move or release and
    never for a press: what a sequence of events adds to the
    notifications comes after the earlier ones and is no longer than the
    number of its moves and releases. *)
Theorem notifications_at_most_one_per_event
    (opts : Options) (events : list MouseEvent) (c : Controller) :
  exists more,
    notified (run opts events c) = notified c ++ more
    /\ (length more <= length (List.filter may_notify events))%nat.
Proof.
  revert c. induction events as [|e events IH]; intros c.
  - exists []. rewrite app_nil_r. split; [reflexivity|simpl; lia].
  - simpl. destruct (IH (dispatch opts c e)) as (more2 & H2 & L2).
    destruct (dispatch_notified opts c e) as (more1 & H1 & L1).
    exists (more1 ++ more2). rewrite H2, H1, app_assoc. split; [reflexivity|].
    rewrite length_app. destruct (may_notify e); simpl; lia.
Qed.

(** X14. While the button is held, a move that resolves to an offset
    invokes the callback once: with null when the offset is the anchor,
    otherwise with the range between the anchor and the offset, smaller
    end first, and the text the content has there. *)
Theorem move_notifies_range
    (opts : Options) (c : Controller) (move : MouseEvent) (a b : Z) :
  opt_enabled opts = true -> opt_onSelectionChange opts = true ->
  is_move move -> mouseDownRef c = true ->
  sel_anchorOffset (selection c) = Some a ->
  resolve opts move = Ret (Some b) ->
  exists data,
    notified (dispatch opts c move) = notified c ++ [data]
    /\ (a = b -> data = None)
    /\ (a <> b ->
        exists d, data = Some d
          /\ ds_startOffset d = Z.min a b /\ ds_endOffset d = Z.max a b
          /\ ds_selectedText d = slice (opt_content opts) (Z.min a b) (Z.max a b)).
Proof.
  intros He Hcb Hm Hd Ha Hr. unfold dispatch, handler, handleMove.
  rewrite Hm, He, Hd, Hr. cbn [negb orb bind]. rewrite Ha. cbn [notified].
  unfold notify. rewrite Hcb. eexists. split; [reflexivity|].
  unfold getSelectionData. cbn [sel_startOffset sel_endOffset].
  destruct (Z.eqb_spec (Z.min a b) (Z.max a b)) as [Heq|Hne].
  - split; [reflexivity|]. intros Hab. lia.
  - split; [intros ->; lia|]. intros _. eexists. split; [reflexivity|].
    cbn. repeat split.
Qed.

Lemma moves_ignored_while_button_up_witness :
  Forall is_move [mkMouseEvent 2 1 true true; mkMouseEvent 3 1 false true]
  /\ run (mkOptions true [mkPosition 1 1 0; mkPosition 1 2 1; mkPosition 1 3 2]
            (lit "abc") 0 0 true)
       [mkMouseEvent 2 1 true true; mkMouseEvent 3 1 false true] initial
     = initial.
Proof.
  assert (Forall is_move [mkMouseEvent 2 1 true true; mkMouseEvent 3 1 false true]) as H.
  { repeat constructor. }
  split; [exact H|].
  apply (proj1 (proj2 (moves_ignored_while_button_up
                         (mkOptions true
                            [mkPosition 1 1 0; mkPosition 1 2 1; mkPosition 1 3 2]
                            (lit "abc") 0 0 true)
                         initial
                         [mkMouseEvent 2 1 true true; mkMouseEvent 3 1 false true] H))).
Defined.

Lemma disabled_hook_is_inert_witness :
  opt_enabled (mkOptions false [mkPosition 1 1 0; mkPosition 1 2 1] (lit "ab") 0 0 true)
  = false
  /\ run (mkOptions false [mkPosition 1 1 0; mkPosition 1 2 1] (lit "ab") 0 0 true)
       [mkMouseEvent 1 1 true false; mkMouseEvent 2 1 true true;
        mkMouseEvent 2 1 false false] initial
     = initial.
Proof.
  split; [reflexivity|].
  apply (disabled_hook_is_inert
           (mkOptions false [mkPosition 1 1 0; mkPosition 1 2 1] (lit "ab") 0 0 true)
           [mkMouseEvent 1 1 true false; mkMouseEvent 2 1 true true;
            mkMouseEvent 2 1 false false] initial eq_refl).
Defined.

Lemma move_notifies_range_witness :
  let opts := mkOptions true [mkPosition 1 1 0; mkPosition 1 2 1; mkPosition 1 3 2]
                (lit "abc") 0 0 true in
  let c := mkController (mkSelection true (Some 2) (Some 2) (Some 2) (Some 2)) true [] in
  let move := mkMouseEvent 1 1 true true in
  resolve opts move = Ret (Some 0)
  /\ exists data,
       notified (dispatch opts c move) = notified c ++ [data]
       /\ (2 = 0 -> data = None)
       /\ (2 <> 0 ->
           exists d, data = Some d
             /\ ds_startOffset d = Z.min 2 0 /\ ds_endOffset d = Z.max 2 0
             /\ ds_selectedText d = slice (opt_content opts) (Z.min 2 0) (Z.max 2 0)).
Proof.
  cbv zeta. split; [reflexivity|].
  apply (move_notifies_range
           (mkOptions true [mkPosition 1 1 0; mkPosition 1 2 1; mkPosition 1 3 2]
              (lit "abc") 0 0 true)
           (mkController (mkSelection true (Some 2) (Some 2) (Some 2) (Some 2)) true [])
           (mkMouseEvent 1 1 true true) 2 0
           eq_refl eq_refl eq_refl eq_refl eq_refl eq_refl).
Defined.

(** ** The segments of the inline parser *)

Lemma match_here_markup (s : str) :
  match head s with Some c => is_markup c = false | None => True end ->
  match_here s = None.
Proof.
  destruct s as [|c s]; [reflexivity|]. simpl head. unfold is_markup. intros H.
  apply orb_false_iff in H as [H Hb]. apply orb_false_iff in H as [Hs Hk].
  unfold match_here. rewrite Hs, Hk, Hb. reflexivity.
Qed.

Lemma exec_inline_plain (s : str) (idx : Z) :
  Forall (fun c => is_markup c = false) s -> exec_inline s idx = None.
Proof.
  intros H. revert idx. induction H as [|c s Hc _ IH]; intros idx; [reflexivity|].
  cbn [exec_inline]. rewrite (match_here_markup (c :: s) Hc). apply IH.
Qed.

(** X15. A text with no star, backtick or opening bracket is one plain
    segment: the whole text, at the base offset, as long as the text. *)
Theorem parseInline_plain_text (text : str) (baseOffset : Z) (baseStyle : SegmentStyle) :
  Forall (fun c => is_markup c = false) text ->
  parseInline text baseOffset baseStyle
  = [mkSegment text baseOffset (len text) (plain_style baseStyle)].
Proof.
  intros H. unfold parseInline.
  assert (parseInline_loop (length text) text baseOffset baseStyle 0 = ([], 0)) as ->.
  { destruct text as [|c text]; [reflexivity|].
    cbn [length parseInline_loop]. change (Z.to_nat 0) with O. rewrite drop_0.
    rewrite (exec_inline_plain _ 0 H). reflexivity. }
  cbn [app]. destruct (Z.ltb_spec 0 (len text)) as [Hlt|Hge]; [|reflexivity].
  rewrite slice_from_drop by lia. change (Z.to_nat 0) with O. rewrite drop_0, Z.add_0_r.
  reflexivity.
Qed.

Lemma parseInline_loop_order (text : str) (base : Z) (style : SegmentStyle)
    (fuel : nat) (lastEnd : Z) (segs : list LineSegment) (final : Z) :
  0 <= lastEnd <= len text ->
  parseInline_loop fuel text base style lastEnd = (segs, final) ->
  lastEnd <= final <= len text
  /\ StronglySorted segment_before segs
  /\ Forall (fun s => seg_text s <> []
                      /\ base + lastEnd <= seg_sourceOffset s
                      /\ seg_sourceOffset s + len (seg_text s) < base + final) segs.
Proof.
  revert lastEnd segs final.
  induction fuel as [|fuel IH]; intros lastEnd segs final Hle H.
  - injection H as <- <-. split; [lia|]. split; constructor.
  - cbn [parseInline_loop] in H.
    destruct (exec_inline (drop (Z.to_nat lastEnd) text) lastEnd)
      as [[[[index k] content] n]|] eqn:E.
    2:{ injection H as <- <-. split; [lia|]. split; constructor. }
    apply exec_inline_spec in E as (Hidx & Hlen & Hm).
    assert (len (drop (Z.to_nat lastEnd) text) = len text - lastEnd) as Hd.
    { unfold len in *. rewrite length_drop. lia. }
    rewrite drop_drop in Hm.
    replace (Z.to_nat lastEnd + Z.to_nat (index - lastEnd))%nat
      with (Z.to_nat index) in Hm by lia.
    apply match_here_app in Hm as (Hne & Hn & Hskip & rest & Hsplit).
    assert (len (drop (Z.to_nat index) text) = len text - index) as Hd2.
    { unfold len in *. rewrite length_drop. lia. }
    pose proof (len_nonneg content) as Hc. pose proof (len_nonneg (opening k)) as Ho.
    assert (1 <= kind_skip k) as Hk by (destruct k; simpl; lia).
    pose proof (kind_skip_opening k) as Hko.
    destruct (parseInline_loop fuel text base style (index + n)) as [more final'] eqn:Er.
    injection H as <- <-.
    destruct (IH (index + n) more final' ltac:(lia) Er) as (Hfin & Hsorted & Hmore).
    split; [lia|].
    set (styled := mkSegment content (base + index + kind_skip k) (len content)
                     (spread style (kind_style k))).
    assert (StronglySorted segment_before (styled :: more)) as Hs1.
    { constructor; [exact Hsorted|]. eapply Forall_impl; [exact Hmore|].
      intros s (_ & Hlo & _). unfold segment_before, styled. cbn. lia. }
    assert (Forall (fun s => seg_text s <> []
                      /\ base + lastEnd <= seg_sourceOffset s
                      /\ seg_sourceOffset s + len (seg_text s) < base + final')
              (styled :: more)) as Hf1.
    { constructor; [unfold styled; cbn; repeat split; [exact Hne|lia|lia]|].
      eapply Forall_impl; [exact Hmore|]. intros s (H1 & H2 & H3).
      repeat split; [exact H1|lia|lia]. }
    destruct (Z.gtb_spec index lastEnd) as [Hgt|_]; [|split; assumption].
    cbn [app]. split.
    + constructor; [exact Hs1|]. constructor.
      * unfold segment_before, styled. cbn. rewrite len_slice_in_range by lia. lia.
      * eapply Forall_impl; [exact Hmore|]. intros s (_ & Hlo & _).
        unfold segment_before. cbn. rewrite len_slice_in_range by lia. lia.
    + constructor; [|exact Hf1]. cbn. rewrite len_slice_in_range by lia.
      repeat split; [|lia|lia].
      intros Hnil. apply (f_equal len) in Hnil.
      rewrite len_slice_in_range in Hnil by lia. unfold len in Hnil. simpl in Hnil. lia.
Qed.

(** X16. The segments of [parseInline] come in source order and never
    overlap: the text of each one ends before the next one starts, with at
    least the delimiter between them; and for a text that is not empty no
    segment is empty. *)
Theorem parseInline_segments_in_order
    (text : str) (baseOffset : Z) (baseStyle : SegmentStyle) :
  StronglySorted segment_before (parseInline text baseOffset baseStyle)
  /\ (text <> [] ->
      Forall (fun s => seg_text s <> []) (parseInline text baseOffset baseStyle)).
Proof.
  unfold parseInline.
  destruct (parseInline_loop (length text) text baseOffset baseStyle 0)
    as [matched lastEnd] eqn:E.
  pose proof (len_nonneg text) as Ht.
  destruct (parseInline_loop_order text baseOffset baseStyle (length text) 0 matched
              lastEnd ltac:(lia) E) as (Hfin & Hsorted & Hall).
  set (tail := if lastEnd <? len text
               then [mkSegment (slice_from text lastEnd) (baseOffset + lastEnd)
                       (len (slice_from text lastEnd)) (plain_style baseStyle)]
               else []).
  assert (StronglySorted segment_before (matched ++ tail)
          /\ Forall (fun s => seg_text s <> []) (matched ++ tail)) as [Hs Hn].
  { split.
    - clear E. induction Hsorted as [|s l Hl IH Hs]; simpl.
      + unfold tail. destruct (_ <? _); repeat constructor.
      + apply Forall_cons in Hall as [(_ & _ & Hhi) Hall].
        constructor; [apply IH, Hall|]. apply Forall_app. split; [exact Hs|].
        unfold tail. destruct (_ <? _); repeat constructor.
        unfold segment_before. cbn. lia.
    - apply Forall_app. split.
      + eapply Forall_impl; [exact Hall|]. intros s (H & _). exact H.
      + unfold tail. destruct (Z.ltb_spec lastEnd (len text)); repeat constructor.
        cbn. rewrite slice_from_drop by lia. intros Hnil.
        apply (f_equal length) in Hnil. rewrite length_drop in Hnil.
        unfold len in *. simpl in Hnil. lia. }
  fold tail. destruct (matched ++ tail) as [|s l] eqn:Em.
  - split; [repeat constructor|]. intros Hne. repeat constructor. exact Hne.
  - split; [exact Hs|]. intros _. exact Hn.
Qed.

Lemma parseInline_plain_text_witness :
  Forall (fun c => is_markup c = false) (lit "a_b (c)")
  /\ parseInline (lit "a_b (c)") 5 no_style
     = [mkSegment (lit "a_b (c)") 5 (len (lit "a_b (c)")) (plain_style no_style)].
Proof.
  assert (Forall (fun c => is_markup c = false) (lit "a_b (c)")) as H.
  { repeat constructor. }
  split; [exact H|].
  apply (parseInline_plain_text (lit "a_b (c)") 5 no_style H).
Defined.

(** ** More on the block parser *)

Lemma span_all {A : Type} (p : A -> bool) (body tail : list A) :
  Forall (fun x => p x = true) body ->
  match tail with [] => True | x :: _ => p x = false end ->
  span p (body ++ tail) = (body, tail).
Proof.
  intros Hb Ht. induction Hb as [|x body Hx _ IH]; simpl.
  - destruct tail as [|x tail]; [reflexivity|]. simpl. rewrite Ht. reflexivity.
  - rewrite Hx, IH. reflexivity.
Qed.

Lemma fence_line_class (line : str) :
  startsWith fence line = true ->
  is_blank line = false /\ headingMatch line = None /\ is_hr line = false.
Proof.
  intros H. apply startsWith_app in H as [rest ->]. simpl.
  split; [|split; reflexivity].
  unfold is_blank, trim. simpl.
  destruct (trimEnd rest); reflexivity.
Qed.

Lemma span_true {A : Type} (p : A -> bool) (l a b : list A) :
  span p l = (a, b) -> Forall (fun x => p x = true) a.
Proof.
  revert a b. induction l as [|x l IH]; intros a b H; simpl in H.
  - injection H as <- <-. constructor.
  - destruct (p x) eqn:E.
    + destruct (span p l) as [a' b']. injection H as <- <-.
      constructor; [exact E|]. apply (IH a' b' eq_refl).
    + injection H as <- <-. constructor.
Qed.

Lemma span_stop {A : Type} (p : A -> bool) (l rest a b : list A) :
  match rest with [] => True | x :: _ => p x = false end ->
  span p l = (a, b) -> span p (l ++ rest) = (a, b ++ rest).
Proof.
  intros Hrest. revert a b. induction l as [|x l IH]; intros a b H; simpl in H |- *.
  - injection H as <- <-. destruct rest as [|y rest]; [reflexivity|].
    simpl. rewrite Hrest. reflexivity.
  - destruct (p x).
    + destruct (span p l) as [a' b']. injection H as <- <-.
      rewrite (IH a' b' eq_refl). reflexivity.
    + injection H as <- <-. reflexivity.
Qed.

Lemma consumed_app (a b : list str) : consumed (a ++ b) = consumed a + consumed b.
Proof. induction a as [|l a IH]; simpl; [reflexivity|]. rewrite IH. lia. Qed.

Lemma fence_lines_app (a b : list str) :
  fence_lines (a ++ b) = (fence_lines a + fence_lines b)%nat.
Proof. unfold fence_lines. rewrite List.filter_app, length_app. reflexivity. Qed.

Lemma fence_lines_none (a : list str) :
  Forall (fun l => startsWith fence l = false) a -> fence_lines a = 0%nat.
Proof.
  unfold fence_lines. induction 1 as [|l a Hl _ IH]; [reflexivity|].
  cbn [List.filter]. rewrite Hl. exact IH.
Qed.

(** A line that starts with a fence continues no quote, list or paragraph. *)
Lemma fence_line_stops (line : str) :
  startsWith fence line = true ->
  quote_continues line = false
  /\ (starts_unordered line || starts_ws line) = false
  /\ (starts_ordered line || starts_ws line) = false
  /\ (negb (is_blank line) && negb (paragraph_breaker line)) = false.
Proof.
  intros H. pose proof H as H'. apply startsWith_app in H' as [rest ->].
  unfold quote_continues, quote_breaker, paragraph_breaker. rewrite H.
  rewrite !orb_true_r. simpl. rewrite !andb_false_r.
  repeat split; reflexivity.
Qed.

(** The first fence line of lines that have one. *)
Lemma first_fence (ls : list str) :
  (1 <= fence_lines ls)%nat ->
  exists body c more,
    ls = body ++ c :: more
    /\ Forall (fun l => startsWith fence l = false) body
    /\ startsWith fence c = true
    /\ fence_lines ls = S (fence_lines more).
Proof.
  induction ls as [|l ls IH]; intros H; [unfold fence_lines in H; simpl in H; lia|].
  destruct (startsWith fence l) eqn:E.
  - exists [], l, ls. split; [reflexivity|]. split; [constructor|]. split; [exact E|].
    unfold fence_lines. cbn [List.filter]. rewrite E. reflexivity.
  - assert (fence_lines (l :: ls) = fence_lines ls) as Hc.
    { unfold fence_lines. cbn [List.filter]. rewrite E. reflexivity. }
    rewrite Hc in H. destruct (IH H) as (body & c & more & -> & Hb & Hcf & Hn).
    exists (l :: body), c, more. split; [reflexivity|].
    split; [constructor; assumption|]. split; [exact Hcf|]. rewrite Hc. exact Hn.
Qed.

Lemma fence_lines_continue (p : str -> bool) (pre taken left : list str) :
  (forall l, startsWith fence l = true -> p l = false) ->
  span p pre = (taken, left) ->
  pre = taken ++ left /\ fence_lines left = fence_lines pre.
Proof.
  intros Hp Hs. pose proof (span_app _ _ _ _ Hs) as ->. split; [reflexivity|].
  rewrite fence_lines_app, (fence_lines_none taken); [reflexivity|].
  eapply Forall_impl; [apply (span_true _ _ _ _ Hs)|].
  intros l Hl. destruct (startsWith fence l) eqn:E; [|reflexivity].
  pose proof (Hp l E) as Hf. cbv beta in Hl. congruence.
Qed.

Lemma span_stop_fence (p : str -> bool) (pre rest taken left : list str) :
  (forall l, startsWith fence l = true -> p l = false) ->
  match rest with [] => True | f :: _ => startsWith fence f = true end ->
  span p pre = (taken, left) -> span p (pre ++ rest) = (taken, left ++ rest).
Proof.
  intros Hp Hrest. apply span_stop. destruct rest as [|f rest]; [exact I|].
  apply Hp, Hrest.
Qed.

(** The lines before a fence that opens a block are parsed by themselves:
    an even number of fence lines among them leaves no block open. *)
Lemma parseBlocks_loop_split (n : nat) :
  forall (pre rest : list str) (offset : Z),
  (length pre <= n)%nat ->
  Nat.even (fence_lines pre) = true ->
  match rest with [] => True | f :: _ => startsWith fence f = true end ->
  parseBlocks_loop (length (pre ++ rest)) (pre ++ rest) offset
  = parseBlocks_loop (length pre) pre offset
    ++ parseBlocks_loop (length rest) rest (offset + consumed pre).
Proof.
  induction n as [|n IH]; intros pre rest offset Hn Hev Hrest.
  - destruct pre; [|simpl in Hn; lia]. simpl. rewrite Z.add_0_r. reflexivity.
  - destruct pre as [|line pre]; [simpl; rewrite Z.add_0_r; reflexivity|].
    simpl in Hn.
    assert (forall taken left b,
              pre = taken ++ left -> Nat.even (fence_lines left) = true ->
              b :: parseBlocks_loop (length (pre ++ rest)) (left ++ rest)
                     (offset + consumed (line :: taken))
              = (b :: parseBlocks_loop (length pre) left
                        (offset + consumed (line :: taken)))
                ++ parseBlocks_loop (length rest) rest
                     (offset + consumed (line :: pre))) as Hcont.
    { intros taken left b -> Hl. simpl app. f_equal.
      rewrite (parseBlocks_loop_fuel _ (length (left ++ rest)))
        by (rewrite !length_app; clear; lia).
      rewrite (parseBlocks_loop_fuel (length (taken ++ left)) (length left))
        by (rewrite ?length_app; clear; lia).
      rewrite IH; [|clear -Hn; rewrite length_app in Hn; lia|exact Hl|exact Hrest].
      f_equal. f_equal.
      rewrite consumed_app.
      change (consumed (line :: taken)) with (len line + 1 + consumed taken).
      clear. lia. }
    change (length ((line :: pre) ++ rest)) with (S (length (pre ++ rest))).
    change ((line :: pre) ++ rest) with (line :: (pre ++ rest)).
    change (length (line :: pre)) with (S (length pre)).
    cbn [parseBlocks_loop].
    destruct (startsWith fence line) eqn:Ef.
    + destruct (fence_line_class line Ef) as (Hb & Hh & Hr). rewrite Hb, Hh, Hr.
      assert (fence_lines (line :: pre) = S (fence_lines pre)) as Hc.
      { unfold fence_lines. cbn [List.filter]. rewrite Ef. reflexivity. }
      rewrite Hc in Hev.
      assert (1 <= fence_lines pre)%nat as H1.
      { destruct (fence_lines pre); [discriminate Hev|lia]. }
      destruct (first_fence pre H1) as (body & c & more & Hpre & Hbody & Hcf & Hm).
      rewrite Hm in Hev. cbn [Nat.even] in Hev.
      assert (forall tl, span (fun l => negb (startsWith fence l)) (body ++ c :: tl)
                         = (body, c :: tl)) as Hspan.
      { intros tl. apply span_all.
        - eapply Forall_impl; [exact Hbody|]. intros l ->. reflexivity.
        - rewrite Hcf. reflexivity. }
      assert (span (fun l => negb (startsWith fence l)) (pre ++ rest)
              = (body, c :: more ++ rest)) as Hs1.
      { rewrite Hpre, <- app_assoc. apply Hspan. }
      assert (span (fun l => negb (startsWith fence l)) pre = (body, c :: more))
        as Hs2.
      { rewrite Hpre. apply Hspan. }
      rewrite Hs1, Hs2.
      apply (Hcont (body ++ [c]) more); [|exact Hev].
      rewrite Hpre, <- app_assoc. reflexivity.
    + assert (fence_lines (line :: pre) = fence_lines pre) as Hc.
      { unfold fence_lines. cbn [List.filter]. rewrite Ef. reflexivity. }
      rewrite Hc in Hev.
      assert (offset + (len line + 1) = offset + consumed [line]) as Hone
        by (simpl; lia).
      destruct (is_blank line).
      { rewrite Hone. apply (Hcont [] pre); [reflexivity|exact Hev]. }
      destruct (headingMatch line).
      { rewrite Hone. apply (Hcont [] pre); [reflexivity|exact Hev]. }
      destruct (is_hr line).
      { rewrite Hone. apply (Hcont [] pre); [reflexivity|exact Hev]. }
      destruct (startsWith [c_gt] line).
      { destruct (span quote_continues pre) as [more left] eqn:Es.
        rewrite (span_stop_fence _ pre rest more left
                   (fun l H => proj1 (fence_line_stops l H)) Hrest Es).
        destruct (fence_lines_continue _ pre more left
                    (fun l H => proj1 (fence_line_stops l H)) Es) as [Hp Hl].
        apply (Hcont more left); [exact Hp|rewrite Hl; exact Hev]. }
      destruct (starts_unordered line).
      { destruct (span _ pre) as [more left] eqn:Es.
        rewrite (span_stop_fence _ pre rest more left
                   (fun l H => proj1 (proj2 (fence_line_stops l H))) Hrest Es).
        destruct (fence_lines_continue _ pre more left
                    (fun l H => proj1 (proj2 (fence_line_stops l H))) Es) as [Hp Hl].
        apply (Hcont more left); [exact Hp|rewrite Hl; exact Hev]. }
      destruct (starts_ordered line).
      { destruct (span _ pre) as [more left] eqn:Es.
        rewrite (span_stop_fence _ pre rest more left
                   (fun l H => proj1 (proj2 (proj2 (fence_line_stops l H)))) Hrest Es).
        destruct (fence_lines_continue _ pre more left
                    (fun l H => proj1 (proj2 (proj2 (fence_line_stops l H)))) Es)
          as [Hp Hl].
        apply (Hcont more left); [exact Hp|rewrite Hl; exact Hev]. }
      destruct (span _ pre) as [more left] eqn:Es.
      rewrite (span_stop_fence _ pre rest more left
                 (fun l H => proj2 (proj2 (proj2 (fence_line_stops l H)))) Hrest Es).
      destruct (fence_lines_continue _ pre more left
                  (fun l H => proj2 (proj2 (proj2 (fence_line_stops l H)))) Es)
        as [Hp Hl].
      apply (Hcont more left); [exact Hp|rewrite Hl; exact Hev].
Qed.

(** X17. A line that starts with a fence and has an even number of such
    lines before it opens a code block at its own offset: the lines before
    it are parsed by themselves, the block takes every line up to the next
    line that starts with a fence, that line included, whatever the lines
    between are, and the parser goes on after it.  A fence that is never
    closed takes the rest of the document, and when it is the first line
    the content is one code block. *)
Theorem parseBlocks_fence (content : str) (pre : list str) (open : str)
    (body tail : list str) :
  split_nl content = pre ++ open :: body ++ tail ->
  Nat.even (fence_lines pre) = true ->
  startsWith fence open = true ->
  Forall (fun l => startsWith fence l = false) body ->
  match tail with [] => True | closing :: _ => startsWith fence closing = true end ->
  parseBlocks content
  = parseBlocks_loop (length pre) pre 0
    ++ mkBlock codeBlock (join [c_nl] (open :: body ++ take 1 tail))
         (consumed pre) None None
       :: parseBlocks_loop (length (drop 1 tail)) (drop 1 tail)
            (consumed pre + consumed (open :: body ++ take 1 tail))
  /\ (pre = [] -> tail = [] ->
      parseBlocks content = [mkBlock codeBlock content 0 None None]).
Proof.
  intros Hsplit Hpre Hopen Hbody Htail.
  destruct (fence_line_class open Hopen) as (Hb & Hh & Hr).
  assert (span (fun l => negb (startsWith fence l)) (body ++ tail) = (body, tail)) as Hspan.
  { apply span_all.
    - eapply Forall_impl; [exact Hbody|]. intros l ->. reflexivity.
    - destruct tail as [|c r]; [exact I|]. rewrite Htail. reflexivity. }
  assert (parseBlocks content
          = parseBlocks_loop (length pre) pre 0
            ++ mkBlock codeBlock (join [c_nl] (open :: body ++ take 1 tail))
                 (consumed pre) None None
               :: parseBlocks_loop (length (drop 1 tail)) (drop 1 tail)
                    (consumed pre + consumed (open :: body ++ take 1 tail))) as Hall.
  { unfold parseBlocks. rewrite Hsplit.
    rewrite (parseBlocks_loop_split (length pre) pre (open :: body ++ tail) 0
               (le_n _) Hpre Hopen).
    f_equal. rewrite Z.add_0_l.
    change (length (open :: body ++ tail)) with (S (length (body ++ tail))).
    cbn [parseBlocks_loop]. rewrite Hb, Hh, Hr, Hopen, Hspan.
    destruct tail as [|c r].
    - cbn [take drop]. f_equal.
      apply parseBlocks_loop_fuel; clear; simpl; lia.
    - change (drop 1 (c :: r)) with r. change (take 1 (c :: r)) with [c]. f_equal.
      apply parseBlocks_loop_fuel; clear; [|lia].
      rewrite length_app. simpl. lia. }
  split; [exact Hall|].
  intros -> ->. rewrite Hall. cbn [take drop length parseBlocks_loop app consumed foldr].
  rewrite app_nil_r in *. cbn [app] in Hsplit.
  rewrite <- Hsplit, join_split_nl. reflexivity.
Qed.

Lemma parseBlocks_loop_length (fuel : nat) (lines : list str) (offset : Z) :
  (length (parseBlocks_loop fuel lines offset) <= length lines)%nat.
Proof.
  revert lines offset. induction fuel as [|fuel IH]; intros lines offset; [simpl; lia|].
  destruct lines as [|line rest]; [simpl; lia|].
  assert (forall b rest1 off, (length rest1 <= length rest)%nat ->
            (length (b :: parseBlocks_loop fuel rest1 off) <= length (line :: rest))%nat)
    as Hstep.
  { intros b rest1 off Hle. cbn [length]. specialize (IH rest1 off). lia. }
  cbn [parseBlocks_loop].
  destruct (is_blank line); [apply Hstep; lia|].
  destruct (headingMatch line); [apply Hstep; lia|].
  destruct (is_hr line); [apply Hstep; lia|].
  destruct (startsWith fence line).
  { destruct (span _ rest) as [body rest1] eqn:E. apply span_length in E.
    destruct rest1 as [|c r]; apply Hstep; simpl in *; lia. }
  destruct (startsWith [c_gt] line).
  { destruct (span _ rest) as [more rest1] eqn:E. apply span_length in E.
    apply Hstep, E. }
  destruct (starts_unordered line).
  { destruct (span _ rest) as [more rest1] eqn:E. apply span_length in E.
    apply Hstep, E. }
  destruct (starts_ordered line).
  { destruct (span _ rest) as [more rest1] eqn:E. apply span_length in E.
    apply Hstep, E. }
  destruct (span _ rest) as [more rest1] eqn:E. apply span_length in E.
  apply Hstep, E.
Qed.

(** X18. The parser makes at least one block and at most as many blocks as
    the content has lines; the empty content is one blank block. *)
Theorem parseBlocks_count (content : str) :
  (1 <= length (parseBlocks content) <= length (split_nl content))%nat
  /\ parseBlocks [] = [mkBlock blank [] 0 None None].
Proof.
  split; [|reflexivity]. unfold parseBlocks. split; [|apply parseBlocks_loop_length].
  pose proof (split_nl_nonempty content) as Hne.
  destruct (parseBlocks_loop_covers (length (split_nl content)) (split_nl content) 0
              ltac:(lia)) as (_ & _ & Hnil).
  destruct (parseBlocks_loop _ _ 0); [|simpl; lia].
  exfalso. apply Hne, Hnil. reflexivity.
Qed.

Lemma parseBlocks_fence_witness :
  split_nl fenced_document
  = [lit "a"] ++ lit "```js" :: [lit "# x"; lit "- y"] ++ [lit "```"; lit "b"]
  /\ Nat.even (fence_lines [lit "a"]) = true
  /\ parseBlocks fenced_document
     = [mkBlock paragraph (lit "a") 0 None None;
        mkBlock codeBlock
          (lit "```js" ++ [c_nl] ++ lit "# x" ++ [c_nl] ++ lit "- y" ++ [c_nl]
           ++ lit "```") 2 None None;
        mkBlock paragraph (lit "b") 20 None None].
Proof.
  split; [reflexivity|]. split; [reflexivity|].
  exact (eq_trans
           (proj1 (parseBlocks_fence fenced_document
                     [lit "a"] (lit "```js") [lit "# x"; lit "- y"] [lit "```"; lit "b"]
                     eq_refl eq_refl eq_refl ltac:(repeat constructor) eq_refl))
           eq_refl).
Defined.

(** ** Word wrap drops white space only *)

Lemma trimStart_split (s : str) : exists g, all_ws g /\ s = g ++ trimStart s.
Proof.
  induction s as [|c s (g & Hg & IH)]; [exists []; split; [constructor|reflexivity]|].
  simpl. destruct (is_ws c) eqn:E.
  - exists (c :: g). split; [constructor; assumption|]. simpl. f_equal. exact IH.
  - exists []. split; [constructor|reflexivity].
Qed.

Lemma trimEnd_split (s : str) : exists g, all_ws g /\ s = trimEnd s ++ g.
Proof.
  induction s as [|c s (g & Hg & IH)]; [exists []; split; [constructor|reflexivity]|].
  simpl. destruct (trimEnd s) as [|c1 t] eqn:Et.
  - destruct (is_ws c) eqn:E.
    + exists (c :: g). split; [constructor; assumption|]. simpl. f_equal. exact IH.
    + exists g. split; [exact Hg|]. simpl. f_equal. exact IH.
  - exists g. split; [exact Hg|]. simpl. f_equal. exact IH.
Qed.

Lemma all_ws_app (g1 g2 : str) : all_ws g1 -> all_ws g2 -> all_ws (g1 ++ g2).
Proof. intros H1 H2. apply Forall_app. split; assumption. Qed.

Lemma slice_cut (s : str) (bp : Z) : slice s 0 bp ++ slice_from s bp = s.
Proof.
  pose proof (len_nonneg s) as Hl. unfold slice_from, slice.
  assert (rel_index (len s) 0 = 0) as -> by (unfold rel_index; simpl; lia).
  assert (rel_index (len s) (len s) = len s) as ->.
  { unfold rel_index. destruct (Z.ltb_spec (len s) 0); lia. }
  assert (0 <= rel_index (len s) bp <= len s) as Hk.
  { unfold rel_index. destruct (Z.ltb_spec bp 0); lia. }
  set (k := rel_index (len s) bp) in *.
  rewrite Z.sub_0_r. change (Z.to_nat 0) with O. rewrite drop_0.
  rewrite (take_ge (drop (Z.to_nat k) s)) by (rewrite length_drop; unfold len in *; lia).
  apply take_drop.
Qed.

Lemma wordWrap_loop_weave (room : nat) (remaining : str) (width : Z) (lines : list str) :
  wordWrap_loop room remaining width = Ret lines ->
  exists gaps, Forall all_ws gaps /\ weave lines gaps = remaining.
Proof.
  revert remaining lines. induction room as [|room IH]; intros remaining lines H.
  { rewrite wordWrap_loop_O in H.
    destruct (Z.gtb_spec (len remaining) 0) as [Hpos|Hzero]; [discriminate|].
    injection H as <-. exists []. split; [constructor|].
    symmetry. apply len_nil_inv. pose proof (len_nonneg remaining). lia. }
  cbn [wordWrap_loop] in H.
  destruct (Z.gtb_spec (len remaining) 0) as [Hpos|Hzero].
  2:{ injection H as <-. exists []. split; [constructor|].
      symmetry. apply len_nil_inv. pose proof (len_nonneg remaining). lia. }
  destruct (len remaining <=? width).
  { injection H as <-. exists []. split; [constructor|]. simpl. apply app_nil_r. }
  destruct (wordWrap_loop room _ width) as [rest|] eqn:E; try discriminate.
  injection H as <-.
  destruct (IH _ _ E) as (gaps & Hgaps & Hweave).
  destruct (trimEnd_split (slice remaining 0 (breakPoint remaining width)))
    as (g1 & Hg1 & H1).
  destruct (trimStart_split (slice_from remaining (breakPoint remaining width)))
    as (g2 & Hg2 & H2).
  exists ((g1 ++ g2) :: gaps). split; [constructor; [apply all_ws_app|]; assumption|].
  cbn [weave]. rewrite Hweave, <- app_assoc, <- H2, app_assoc, <- H1.
  apply slice_cut.
Qed.

(** X19. Word wrap drops nothing but white space: for a width of at least
    1 the text is the returned lines put back together with a run of
    white space, possibly empty, after each line; so every character that
    is not white space is on some line, in the order of the text. *)
Theorem wordWrap_drops_white_space_only (text : str) (width : Z) :
  1 <= width ->
  exists lines gaps,
    wordWrap text width = Ret lines
    /\ Forall all_ws gaps
    /\ weave lines gaps = text.
Proof.
  intros Hw. destruct (wordWrap_total text width Hw) as (lines & Hret & _).
  exists lines. unfold wordWrap in Hret.
  destruct (len text <=? width) eqn:E.
  - injection Hret as <-. exists []. unfold wordWrap. rewrite E.
    split; [reflexivity|]. split; [constructor|]. simpl. apply app_nil_r.
  - destruct (wordWrap_loop_weave _ _ _ _ Hret) as (gaps & Hg & Hweave).
    exists gaps. unfold wordWrap. rewrite E. split; [exact Hret|]. split; assumption.
Qed.

(** ** Word wrap at a width that is not positive *)

Lemma trimStart_last (s : str) (c : char) :
  last s = Some c -> is_ws c = false -> trimStart s <> [].
Proof.
  induction s as [|x s IH]; intros Hl Hc; [discriminate|].
  simpl. destruct (is_ws x) eqn:E; [|discriminate].
  destruct s as [|y s]; [simpl in Hl; congruence|].
  apply IH; [|exact Hc]. rewrite last_cons in Hl.
  destruct (last (y :: s)) eqn:El; [exact Hl|].
  apply last_None in El. discriminate.
Qed.

Lemma last_drop (s : str) (n : nat) :
  (n < length s)%nat -> last (drop n s) = last s.
Proof.
  intros Hn. rewrite !last_lookup, length_drop, lookup_drop. f_equal. lia.
Qed.

(** X20. At a width of zero or less the loop of [wordWrap] makes no
    progress after its first round.  For a text that is not empty: when
    only white space is left after the first break, the first line alone
    is returned; otherwise every further round leaves the remaining text
    as it is and pushes another line, so the call ends when the array is
    full, with the RangeError of the push, whatever room the array has;
    and that is so whenever the last character of the text is not white
    space. *)
Theorem wordWrap_nonpositive_width (text : str) (width : Z) :
  width <= 0 -> text <> [] ->
  (wrap_rest text width = [] ->
   wordWrap text width = Ret [trimEnd (slice text 0 width)])
  /\ (wrap_rest text width <> [] ->
      wrap_rest (wrap_rest text width) width = wrap_rest text width
      /\ wordWrap text width = Throw RangeError
      /\ forall room, wordWrap_loop room text width = Throw RangeError)
  /\ (forall c, last text = Some c -> is_ws c = false ->
      wrap_rest text width <> []).
Proof.
  intros Hw Hne.
  assert (0 < len text) as Hlen.
  { destruct text; [congruence|]. rewrite len_cons. pose proof (len_nonneg text). lia. }
  split; [|split].
  - intros Hnil. unfold wordWrap.
    destruct (Z.leb_spec (len text) width) as [|_]; [lia|].
    change (3 + length text)%nat with (S (2 + length text)).
    rewrite wordWrap_loop_S.
    destruct (Z.gtb_spec (len text) 0) as [_|]; [|lia].
    destruct (Z.leb_spec (len text) width) as [|_]; [lia|].
    rewrite Hnil, wordWrap_loop_nil.
    rewrite (breakPoint_nonpos text width Hw). reflexivity.
  - intros Hrest.
    pose proof (wordWrap_loop_fixpoint _ _ Hw Hrest (wrap_rest_idem text width Hw)) as Hdiv.
    assert (forall room, wordWrap_loop room text width = Throw RangeError) as Hall.
    { intros [|room].
      - rewrite wordWrap_loop_O. destruct (Z.gtb_spec (len text) 0); [reflexivity|lia].
      - rewrite wordWrap_loop_S.
        destruct (Z.gtb_spec (len text) 0) as [_|]; [|lia].
        destruct (Z.leb_spec (len text) width) as [|_]; [lia|].
        rewrite Hdiv. reflexivity. }
    split; [apply wrap_rest_idem, Hw|]. split; [|exact Hall].
    unfold wordWrap. destruct (Z.leb_spec (len text) width) as [|_]; [lia|]. apply Hall.
  - intros c Hl Hc.
    unfold wrap_rest. rewrite breakPoint_nonpos by exact Hw.
    destruct (Z.eq_dec width 0) as [->|Hneg].
    + rewrite slice_from_drop by lia. apply (trimStart_last _ c); assumption.
    + rewrite slice_from_neg by lia. apply (trimStart_last _ c); [|exact Hc].
      rewrite last_drop; [exact Hl|]. unfold len in *. lia.
Qed.

Lemma wordWrap_drops_white_space_only_witness :
  1 <= 5
  /\ exists lines gaps,
       wordWrap (lit "aaaa  bbbb") 5 = Ret lines
       /\ Forall all_ws gaps
       /\ weave lines gaps = lit "aaaa  bbbb".
Proof.
  split; [lia|].
  apply (wordWrap_drops_white_space_only (lit "aaaa  bbbb") 5 ltac:(lia)).
Defined.

Lemma wordWrap_nonpositive_width_witness :
  -1 <= 0 /\ lit "ab" <> []
  /\ last (lit "ab") = Some 98%N /\ is_ws 98%N = false
  /\ wrap_rest (lit "ab") (-1) = lit "b"
  /\ wordWrap (lit "ab") (-1) = Throw RangeError
  /\ forall room, wordWrap_loop room (lit "ab") (-1) = Throw RangeError.
Proof.
  split; [lia|]. split; [discriminate|]. split; [reflexivity|]. split; [reflexivity|].
  split; [reflexivity|].
  pose proof (wordWrap_nonpositive_width (lit "ab") (-1) ltac:(lia) ltac:(discriminate))
    as (_ & Hloop & Hlast).
  apply Hloop. apply (Hlast 98%N); reflexivity.
Defined.

(** ** Line numbers of the rendered lines *)

Lemma numbered_nil (lo hi : Z) : numbered lo hi [].
Proof. split; constructor. Qed.

Lemma numbered_weaken (lo hi lo' hi' : Z) (lines : list RenderedLine) :
  lo' <= lo -> hi <= hi' -> numbered lo hi lines -> numbered lo' hi' lines.
Proof.
  intros Hlo Hhi [Hs Hall]. split; [exact Hs|].
  eapply Forall_impl; [exact Hall|]. intros l H. simpl in H. lia.
Qed.

Lemma numbered_app (lo mid hi : Z) (l1 l2 : list RenderedLine) :
  lo <= mid -> mid <= hi ->
  numbered lo mid l1 -> numbered mid hi l2 -> numbered lo hi (l1 ++ l2).
Proof.
  intros Hlo Hhi [Hs1 Ha1] [Hs2 Ha2]. split.
  - induction Hs1 as [|a l1 Hs1 IH Ha]; [exact Hs2|].
    apply Forall_cons in Ha1 as [Ha0 Ha1]. simpl. constructor; [apply IH, Ha1|].
    apply Forall_app. split; [exact Ha|].
    eapply Forall_impl; [exact Ha2|]. intros l H. simpl in H. lia.
  - apply Forall_app. split.
    + eapply Forall_impl; [exact Ha1|]. intros l H. simpl in H. lia.
    + eapply Forall_impl; [exact Ha2|]. intros l H. simpl in H. lia.
Qed.

Lemma numbered_cons (lo hi : Z) (line : RenderedLine) (rest : list RenderedLine) :
  line_lineNumber line = lo -> lo < hi ->
  numbered (lo + 1) hi rest -> numbered lo hi (line :: rest).
Proof.
  intros Hn Hlt [Hs Ha]. split.
  - constructor; [exact Hs|]. eapply Forall_impl; [exact Ha|].
    intros l H. simpl in H. lia.
  - constructor; [lia|]. eapply Forall_impl; [exact Ha|].
    intros l H. simpl in H. lia.
Qed.

Lemma renumber_numbered (patch : RenderedLine -> RenderedLine)
    (wrapped : list RenderedLine) (lineNumber : Z) :
  Forall (fun wl => flush (patch wl)) wrapped ->
  let '(lines, final) := renumber patch wrapped lineNumber in
  lineNumber <= final /\ numbered lineNumber final lines /\ Forall flush lines.
Proof.
  intros H. revert lineNumber. induction H as [|wl rest Hwl _ IH]; intros lineNumber.
  - simpl. split; [lia|]. split; [apply numbered_nil|constructor].
  - cbn [renumber]. specialize (IH (lineNumber + 1)).
    destruct (renumber patch rest (lineNumber + 1)) as [rest' final].
    destruct IH as (Hle & Hnum & Hfl). split; [lia|]. split.
    + apply numbered_cons; [reflexivity|lia|exact Hnum].
    + constructor; [exact Hwl|exact Hfl].
Qed.

Lemma wrapped_lines_flush (segments : list LineSegment) (fullText : str)
    (wrappedLines : list str) (textOffset lineNumber : Z) :
  Forall flush (wrapped_lines segments fullText wrappedLines textOffset lineNumber).
Proof.
  revert textOffset lineNumber.
  induction wrappedLines as [|wl rest IH]; intros textOffset lineNumber; [constructor|].
  cbn [wrapped_lines].
  destruct (line_parts segments 0 textOffset (textOffset + len wl)) as [|first more].
  - apply IH.
  - constructor; [|apply IH]. split; [reflexivity|discriminate].
Qed.

Lemma wordWrapSegments_flush (segments : list LineSegment) (width : Z)
    (lines : list RenderedLine) :
  wordWrapSegments segments width = Ret lines -> Forall flush lines.
Proof.
  unfold wordWrapSegments. destruct (_ =? 0).
  - intros [= <-]. repeat constructor. discriminate.
  - destruct (wordWrap _ width) as [wrapped|]; try discriminate.
    intros [= <-]. apply wrapped_lines_flush.
Qed.

Lemma render_code_numbered (codeLines : list str) (offset lineNumber : Z) :
  let '(lines, final) := render_code codeLines offset lineNumber in
  lineNumber <= final /\ numbered lineNumber final lines /\ Forall flush lines.
Proof.
  revert offset lineNumber. induction codeLines as [|l rest IH]; intros offset lineNumber.
  - simpl. split; [lia|]. split; [apply numbered_nil|constructor].
  - cbn [render_code]. specialize (IH (offset + (len l + 1)) (lineNumber + 1)).
    destruct (render_code rest _ (lineNumber + 1)) as [more final].
    destruct IH as (Hle & Hnum & Hfl).
    destruct (startsWith fence l).
    + split; [lia|]. split; [|exact Hfl].
      apply (numbered_weaken (lineNumber + 1) final); [lia|lia|exact Hnum].
    + split; [lia|]. split.
      * apply numbered_cons; [reflexivity|lia|exact Hnum].
      * constructor; [split; [reflexivity|discriminate]|exact Hfl].
Qed.

Lemma set_span_flush (offset length : Z) (wrapped : list RenderedLine) :
  Forall flush wrapped -> Forall (fun wl => flush (set_span offset length wl)) wrapped.
Proof.
  intros H. eapply Forall_impl; [exact H|]. intros wl [_ Hs]. split; [reflexivity|exact Hs].
Qed.

Lemma render_quote_numbered (quoteLines : list str) (w offset lineNumber : Z)
    (lines : list RenderedLine) (final : Z) :
  render_quote quoteLines w offset lineNumber = Ret (lines, final) ->
  lineNumber <= final /\ numbered lineNumber final lines /\ Forall flush lines.
Proof.
  revert offset lineNumber lines final.
  induction quoteLines as [|q rest IH]; intros offset lineNumber lines final H.
  - injection H as <- <-. split; [lia|]. split; [apply numbered_nil|constructor].
  - cbn [render_quote] in H.
    destruct (wordWrapSegments _ (w - 2)) as [wrapped|] eqn:Ew; try discriminate.
    cbn [bind] in H.
    pose proof (renumber_numbered (set_span offset (len q)) wrapped lineNumber
                  (set_span_flush _ _ _ (wordWrapSegments_flush _ _ _ Ew))) as Hr.
    destruct (renumber _ wrapped lineNumber) as [here ln'].
    destruct Hr as (Hle & Hnum & Hfl).
    destruct (render_quote rest w _ ln') as [[more fin]|] eqn:Er; try discriminate.
    cbn [bind] in H. injection H as <- <-.
    destruct (IH _ _ _ _ Er) as (Hle2 & Hnum2 & Hfl2).
    split; [lia|]. split.
    + apply (numbered_app lineNumber ln' fin); assumption.
    + apply Forall_app. split; assumption.
Qed.

Lemma render_list_numbered (ordered : bool) (listLines : list str)
    (w offset itemNum lineNumber : Z) (lines : list RenderedLine) (final : Z) :
  render_list ordered listLines w offset itemNum lineNumber = Ret (lines, final) ->
  lineNumber <= final /\ numbered lineNumber final lines /\ Forall flush lines.
Proof.
  revert offset itemNum lineNumber lines final.
  induction listLines as [|q rest IH]; intros offset itemNum lineNumber lines final H.
  - injection H as <- <-. split; [lia|]. split; [apply numbered_nil|constructor].
  - cbn [render_list] in H. destruct (is_blank q).
    { destruct (IH _ _ _ _ _ H) as (Hle & Hnum & Hfl).
      split; [lia|]. split; [|exact Hfl].
      apply (numbered_weaken (lineNumber + 1) final); [lia|lia|exact Hnum]. }
    destruct (wordWrapSegments _ (w - 2)) as [wrapped|] eqn:Ew; try discriminate.
    cbn [bind] in H.
    pose proof (renumber_numbered (set_span offset (len q)) wrapped lineNumber
                  (set_span_flush _ _ _ (wordWrapSegments_flush _ _ _ Ew))) as Hr.
    destruct (renumber _ wrapped lineNumber) as [here ln'].
    destruct Hr as (Hle & Hnum & Hfl).
    destruct (render_list ordered rest w _ _ ln') as [[more fin]|] eqn:Er;
      try discriminate.
    cbn [bind] in H. injection H as <- <-.
    destruct (IH _ _ _ _ _ Er) as (Hle2 & Hnum2 & Hfl2).
    split; [lia|]. split.
    + apply (numbered_app lineNumber ln' fin); assumption.
    + apply Forall_app. split; assumption.
Qed.

Lemma renderBlock_numbered (block : Block) (w lineNumber : Z)
    (lines : list RenderedLine) (final : Z) :
  renderBlock block w lineNumber = Ret (lines, final) ->
  lineNumber <= final /\ numbered lineNumber final lines /\ Forall flush lines.
Proof.
  unfold renderBlock. destruct (blk_type block).
  - (* heading *)
    destruct (wordWrapSegments _ w) as [wrapped|] eqn:Ew; try discriminate.
    cbn [bind]. intros [= H].
    pose proof (renumber_numbered (fun wl => wl) wrapped lineNumber
                  (wordWrapSegments_flush _ _ _ Ew)) as Hr.
    rewrite H in Hr. exact Hr.
  - (* paragraph *)
    destruct (wordWrapSegments _ w) as [wrapped|] eqn:Ew; try discriminate.
    cbn [bind]. intros [= H].
    pose proof (renumber_numbered (fun wl => wl) wrapped lineNumber
                  (wordWrapSegments_flush _ _ _ Ew)) as Hr.
    rewrite H in Hr. exact Hr.
  - (* code *)
    intros [= H].
    pose proof (render_code_numbered (split_nl (blk_source block))
                  (blk_sourceOffset block) lineNumber) as Hr.
    rewrite H in Hr. exact Hr.
  - apply render_list_numbered.
  - apply render_quote_numbered.
  - (* rule *)
    destruct (repeat_char _ _) as [rule|]; try discriminate.
    cbn [bind]. intros [= <- <-]. split; [lia|]. split.
    + apply numbered_cons; [reflexivity|lia|apply numbered_nil].
    + repeat constructor. discriminate.
  - (* blank *)
    intros [= <- <-]. split; [lia|]. split.
    + apply numbered_cons; [reflexivity|lia|apply numbered_nil].
    + repeat constructor. discriminate.
Qed.

Lemma renderBlocks_from_numbered (blocks : list Block) (w lineNumber : Z)
    (lines : list RenderedLine) :
  renderBlocks_from blocks w lineNumber = Ret lines ->
  exists final, lineNumber <= final /\ numbered lineNumber final lines
                /\ Forall flush lines.
Proof.
  revert lineNumber lines. induction blocks as [|b rest IH]; intros lineNumber lines H.
  - injection H as <-. exists lineNumber. split; [lia|].
    split; [apply numbered_nil|constructor].
  - cbn [renderBlocks_from] in H.
    destruct (renderBlock b w lineNumber) as [[here ln']|] eqn:Eb; try discriminate.
    cbn [bind] in H.
    destruct (renderBlocks_from rest w ln') as [more|] eqn:Er; try discriminate.
    cbn [bind] in H. injection H as <-.
    destruct (renderBlock_numbered _ _ _ _ _ Eb) as (Hle & Hnum & Hfl).
    destruct (IH _ _ Er) as (final & Hle2 & Hnum2 & Hfl2).
    exists final. split; [lia|]. split.
    + apply (numbered_app lineNumber ln' final); assumption.
    + apply Forall_app. split; assumption.
Qed.

(** X21. The rendered lines are numbered from 1 on in strictly increasing
    order (a fence line and a blank line of a list take a number and
    display nothing), and every line starts at the left margin and has at
    least one segment. *)
Theorem renderBlocks_line_numbers (blocks : list Block) (terminalWidth : Z)
    (lines : list RenderedLine) :
  renderBlocks blocks terminalWidth = Ret lines ->
  StronglySorted (fun l1 l2 => line_lineNumber l1 < line_lineNumber l2) lines
  /\ Forall (fun l => 1 <= line_lineNumber l) lines
  /\ Forall flush lines.
Proof.
  intros H. apply renderBlocks_from_numbered in H as (final & _ & [Hs Ha] & Hfl).
  split; [exact Hs|]. split; [|exact Hfl].
  eapply Forall_impl; [exact Ha|]. intros l Hl. simpl in Hl. lia.
Qed.

Lemma renderBlocks_line_numbers_witness :
  exists lines,
    renderBlocks (parseBlocks sample_document) 20 = Ret lines
    /\ StronglySorted (fun l1 l2 => line_lineNumber l1 < line_lineNumber l2) lines
    /\ Forall (fun l => 1 <= line_lineNumber l) lines
    /\ Forall flush lines.
Proof.
  eexists. split; [vm_compute; reflexivity|].
  apply (renderBlocks_line_numbers (parseBlocks sample_document) 20).
  vm_compute. reflexivity.
Defined.

(** ** The lines of [wordWrapSegments] *)

Lemma sub_app {A : Type} (x y : nat) (t rest : list A) :
  take (y - x) (drop x (t ++ rest))
  = take (Nat.min y (length t) - x) (drop x t)
    ++ take ((y - length t) - (x - length t)) (drop (x - length t) rest).
Proof.
  rewrite drop_app, take_app, length_drop. f_equal.
  - destruct (Nat.le_gt_cases (y - x) (length t - x)).
    + f_equal. lia.
    + rewrite !take_ge by (rewrite length_drop; lia). reflexivity.
  - f_equal. lia.
Qed.

Lemma line_parts_text (segments : list LineSegment) (segmentOffset a b : Z) :
  concat (map seg_text (line_parts segments segmentOffset a b))
  = take (Z.to_nat (b - segmentOffset) - Z.to_nat (a - segmentOffset))
      (drop (Z.to_nat (a - segmentOffset)) (concat (map seg_text segments))).
Proof.
  revert segmentOffset. induction segments as [|s rest IH]; intros so.
  - simpl. rewrite drop_nil, take_nil. reflexivity.
  - cbn [line_parts map concat]. rewrite map_app, concat_app, IH, sub_app.
    set (t := seg_text s). pose proof (len_nonneg t) as Hl.
    f_equal.
    + destruct (Z.gtb_spec (so + len t) a) as [H1|H1];
        [destruct (Z.ltb_spec so b) as [H2|H2]|]; cbn [andb].
      * destruct (Z.gtb_spec (Z.min (so + len t) b - so) (Z.max so a - so)) as [H3|H3].
        -- cbn [map concat seg_text]. rewrite app_nil_r.
           rewrite slice_in_range by lia. unfold len in *.
           f_equal; [lia|f_equal; lia].
        -- simpl. symmetry. unfold len in *.
           replace (Nat.min (Z.to_nat (b - so)) (length t) - Z.to_nat (a - so))%nat
             with O by lia.
           reflexivity.
      * simpl. symmetry. replace (Z.to_nat (b - so)) with O by lia. reflexivity.
      * simpl. symmetry. apply nil_length_inv.
        rewrite length_take, length_drop. unfold len in *. lia.
    + unfold len. f_equal; [|f_equal]; lia.
Qed.

Lemma line_parts_lengths (segments : list LineSegment) (segmentOffset a b : Z) :
  Forall (fun s => seg_sourceLength s = len (seg_text s) /\ seg_text s <> [])
    (line_parts segments segmentOffset a b).
Proof.
  revert segmentOffset. induction segments as [|s rest IH]; intros so; [constructor|].
  cbn [line_parts]. apply Forall_app. split; [|apply IH].
  destruct (_ && _); [|constructor].
  destruct (Z.gtb_spec (Z.min (so + len (seg_text s)) b - so) (Z.max so a - so));
    [|constructor].
  constructor; [|constructor]. cbn [seg_sourceLength seg_text].
  assert (len (slice (seg_text s) (Z.max so a - so) (Z.min (so + len (seg_text s)) b - so))
          = Z.min (so + len (seg_text s)) b - so - (Z.max so a - so)) as Hlen.
  { apply len_slice_in_range; lia. }
  split; [lia|]. intros Hnil. rewrite Hnil in Hlen. unfold len in Hlen at 1.
  simpl in Hlen. lia.
Qed.

Lemma sum_sourceLength_text (segments : list LineSegment) :
  Forall (fun s => seg_sourceLength s = len (seg_text s) /\ seg_text s <> []) segments ->
  sum_sourceLength segments = len (concat (map seg_text segments)).
Proof.
  unfold sum_sourceLength. intros H.
  assert (forall acc, fold_left (fun sum s => sum + seg_sourceLength s) segments acc
                      = acc + len (concat (map seg_text segments))) as Hacc.
  { induction H as [|s rest [Hs _] _ IH]; intros acc; simpl.
    - unfold len. simpl. lia.
    - rewrite IH, len_app, Hs. lia. }
  rewrite Hacc. lia.
Qed.

Lemma wrapped_lines_shape (segments : list LineSegment) (fullText : str)
    (wrappedLines : list str) (width textOffset lineNumber : Z) :
  0 <= textOffset ->
  Forall (fun L => len L <= width) wrappedLines ->
  let lines := wrapped_lines segments fullText wrappedLines textOffset lineNumber in
  map line_lineNumber lines
  = map (fun k => lineNumber + Z.of_nat k) (seq 0 (length lines))
  /\ (length lines <= length wrappedLines)%nat
  /\ Forall (fun l => len (displayed l) <= width
                      /\ line_sourceLength l = len (displayed l)
                      /\ Forall (fun s => seg_sourceLength s = len (seg_text s)
                                          /\ seg_text s <> []) (line_segments l))
       lines.
Proof.
  intros H0 Hall. revert textOffset lineNumber H0.
  induction Hall as [|wl rest Hwl _ IH]; intros textOffset lineNumber H0.
  - repeat split; constructor.
  - cbn zeta. cbn [wrapped_lines].
    set (textOffset2 := if _ && _ then _ else _).
    assert (0 <= textOffset2) as H2.
    { unfold textOffset2. pose proof (len_nonneg wl). destruct (_ && _); lia. }
    pose proof (line_parts_text segments 0 textOffset (textOffset + len wl)) as Htext.
    pose proof (line_parts_lengths segments 0 textOffset (textOffset + len wl)) as Hlens.
    destruct (line_parts segments 0 textOffset (textOffset + len wl)) as [|first more].
    + destruct (IH textOffset2 lineNumber H2) as (Hn & Hl & Hf).
      split; [exact Hn|]. split; [simpl; lia|exact Hf].
    + destruct (IH textOffset2 (lineNumber + 1) H2) as (Hn & Hl & Hf).
      split; [|split; [simpl; lia|]].
      * cbn [map length seq line_lineNumber]. f_equal; [lia|].
        rewrite Hn, <- seq_shift, map_map. apply map_ext. intros k. lia.
      * constructor; [|exact Hf]. unfold displayed. cbn [line_segments line_sourceLength].
        split; [|split; [apply sum_sourceLength_text, Hlens|exact Hlens]].
        rewrite Htext. unfold len in *. rewrite length_take. lia.
Qed.

(** X22. The lines of [wordWrapSegments] fit the width: for a width of at
    least 1 it returns lines numbered 1, 2, ... of which none displays
    more than [width] characters; the length of a line is the number of
    characters it displays, and each of its segments is as long as its
    text. *)
Theorem wordWrapSegments_lines_fit (segments : list LineSegment) (width : Z) :
  1 <= width ->
  exists lines,
    wordWrapSegments segments width = Ret lines
    /\ map line_lineNumber lines = map (fun k => 1 + Z.of_nat k) (seq 0 (length lines))
    /\ Forall (fun l => len (displayed l) <= width
                        /\ line_sourceLength l = len (displayed l)
                        /\ Forall (fun s => seg_sourceLength s = len (seg_text s))
                             (line_segments l))
         lines.
Proof.
  intros Hw. unfold wordWrapSegments.
  destruct (len (concat (map seg_text segments)) =? 0).
  - eexists. split; [reflexivity|]. split; [reflexivity|].
    repeat constructor. unfold displayed, len. simpl. lia.
  - destruct (wordWrap_total (concat (map seg_text segments)) width Hw)
      as (wrapped & -> & Hshort).
    cbn [bind]. eexists. split; [reflexivity|].
    destruct (wrapped_lines_shape segments (concat (map seg_text segments)) wrapped
                width 0 1 ltac:(lia) Hshort) as (Hn & _ & Hf).
    split; [exact Hn|].
    eapply Forall_impl; [exact Hf|]. intros l (H1 & H2 & H3).
    split; [exact H1|]. split; [exact H2|].
    eapply Forall_impl; [exact H3|]. intros s [Hs _]. exact Hs.
Qed.

Lemma wordWrapSegments_lines_fit_witness :
  1 <= 9
  /\ exists lines,
       wordWrapSegments (parseInline (lit "aaaa bbbb cccc") 0 no_style) 9 = Ret lines
       /\ map line_lineNumber lines
          = map (fun k => 1 + Z.of_nat k) (seq 0 (length lines))
       /\ Forall (fun l => len (displayed l) <= 9
                           /\ line_sourceLength l = len (displayed l)
                           /\ Forall (fun s => seg_sourceLength s = len (seg_text s))
                                (line_segments l))
            lines.
Proof.
  split; [lia|].
  apply (wordWrapSegments_lines_fit (parseInline (lit "aaaa bbbb cccc") 0 no_style) 9
           ltac:(lia)).
Defined.

(** ** Wrapped lines and what is displayed *)

Lemma single_spaced_drop (n : nat) (s : str) :
  single_spaced s = true -> single_spaced (drop n s) = true.
Proof.
  revert s. induction n as [|n IH]; intros s H; [rewrite drop_0; exact H|].
  destruct s as [|c s]; [reflexivity|]. simpl drop. apply IH.
  simpl in H. apply andb_true_iff in H as [_ H]. exact H.
Qed.

Lemma single_spaced_lookup (s : str) (i : nat) (c : char) :
  single_spaced s = true -> s !! i = Some c ->
  (c <> c_space -> is_ws c = false)
  /\ (c = c_space -> s !! S i <> Some c_space).
Proof.
  revert i. induction s as [|x s IH]; intros i H Hi; [discriminate|].
  cbn [single_spaced] in H. apply andb_true_iff in H as [H H3].
  apply andb_true_iff in H as [H1 H2].
  destruct i as [|i].
  - injection Hi as ->. split.
    + intros Hne. destruct (is_ws c); [|reflexivity]. simpl in H1.
      apply N.eqb_eq in H1. contradiction.
    + intros ->. simpl in H2. destruct s as [|c2 s]; [discriminate|].
      simpl. intros [= ->]. discriminate.
  - apply (IH i H3 Hi).
Qed.

Lemma last_index_spec (c : char) (s : str) (i acc : Z) :
  (last_index c s i acc = acc /\ forall j, s !! j <> Some c)
  \/ exists j : nat,
       last_index c s i acc = i + Z.of_nat j /\ s !! j = Some c
       /\ forall j' : nat, (j < j')%nat -> s !! j' <> Some c.
Proof.
  revert i acc. induction s as [|x s IH]; intros i acc.
  - left. split; [reflexivity|]. intros j. rewrite lookup_nil. discriminate.
  - cbn [last_index].
    destruct (IH (i + 1) (if N.eqb x c then i else acc)) as [[Hr Hno] | (j & Hr & Hj & Hlater)].
    + destruct (N.eqb_spec x c) as [->|Hne].
      * right. exists O. split; [lia|]. split; [reflexivity|].
        intros [|j'] Hlt; [lia|]. apply Hno.
      * left. split; [exact Hr|]. intros [|j]; [simpl; congruence|apply Hno].
    + right. exists (S j). split; [lia|]. split; [exact Hj|].
      intros [|j'] Hlt; [lia|]. apply Hlater. lia.
Qed.

Lemma lastIndexOf_space (remaining : str) (width : Z) :
  1 <= width -> width < len remaining ->
  let k := lastIndexOf remaining c_space width in
  (k = -1 /\ forall j : nat, (j <= Z.to_nat width)%nat -> remaining !! j <> Some c_space)
  \/ (0 <= k <= width /\ remaining !! Z.to_nat k = Some c_space
      /\ forall j : nat, (Z.to_nat k < j <= Z.to_nat width)%nat ->
           remaining !! j <> Some c_space).
Proof.
  intros Hw Hlen. unfold lastIndexOf.
  destruct (Z.eqb_spec (len remaining) 0) as [|_]; [lia|]. cbv zeta.
  replace (Z.min (Z.max width 0) (len remaining - 1)) with width by lia.
  destruct (last_index_spec c_space (take (Z.to_nat (width + 1)) remaining) 0 (-1))
    as [[Hr Hno] | (j & Hr & Hj & Hlater)].
  - left. split; [exact Hr|]. intros j Hj. specialize (Hno j).
    rewrite lookup_take_lt in Hno by lia. exact Hno.
  - right. rewrite Hr.
    assert (j < Z.to_nat (width + 1))%nat as Hjw.
    { apply lookup_lt_Some in Hj. rewrite length_take in Hj. lia. }
    rewrite lookup_take_lt in Hj by lia.
    split; [lia|]. replace (Z.to_nat (0 + Z.of_nat j)) with j by lia.
    split; [exact Hj|]. intros j' Hj'. specialize (Hlater j' ltac:(lia)).
    rewrite lookup_take_lt in Hlater by lia. exact Hlater.
Qed.

Lemma trimEnd_id (s : str) :
  match last s with Some c => is_ws c = false | None => True end -> trimEnd s = s.
Proof.
  induction s as [|c s IH]; [reflexivity|]. intros H. simpl.
  destruct s as [|c2 s].
  - simpl in *. rewrite H. reflexivity.
  - rewrite IH; [reflexivity|]. rewrite last_cons in H.
    destruct (last (c2 :: s)) eqn:E; [exact H|].
    apply last_None in E. discriminate.
Qed.

Lemma trimStart_id (s : str) :
  match head s with Some c => is_ws c = false | None => True end -> trimStart s = s.
Proof. destruct s as [|c s]; [reflexivity|]. simpl. intros ->. reflexivity. Qed.

Lemma not_space_not_ws (s : str) (j : nat) :
  single_spaced s = true -> s !! j <> Some c_space ->
  match s !! j with Some c => is_ws c = false | None => True end.
Proof.
  intros Hs Hj. destruct (s !! j) as [c|] eqn:E; [|exact I].
  apply (single_spaced_lookup s j c Hs E). congruence.
Qed.

(** One round of the loop on a single-spaced text: the line is a prefix
    of the remaining text, and what is left starts right after it, or one
    character later when a space stands there. *)
Lemma wrap_round (remaining : str) (width : Z) :
  1 <= width -> width < len remaining -> single_spaced remaining = true ->
  let bp := breakPoint remaining width in
  let line := trimEnd (slice remaining 0 bp) in
  let skip := if bool_decide (remaining !! length line = Some c_space) then 1%nat else O in
  take (length line) remaining = line
  /\ trimStart (slice_from remaining bp) = drop (length line + skip) remaining
  /\ (length line + skip <= length remaining)%nat.
Proof.
  intros Hw Hlen Hs.
  pose proof (breakPoint_bounds remaining width Hw) as Hbp.
  assert (forall b : nat, (1 <= b <= Z.to_nat width)%nat ->
            remaining !! (b - 1)%nat <> Some c_space ->
            trimEnd (take b remaining) = take b remaining) as Hkeep.
  { intros b Hb Hprev. apply trimEnd_id. rewrite last_lookup, length_take.
    replace (Init.Nat.pred (b `min` length remaining)) with (b - 1)%nat
      by (unfold len in *; lia).
    rewrite lookup_take_lt by lia. apply not_space_not_ws; assumption. }
  assert (forall b : nat, (b <= Z.to_nat width)%nat ->
            trimStart (drop b remaining)
            = drop (b + if bool_decide (remaining !! b = Some c_space) then 1 else 0)
                remaining) as Hrest.
  { intros b Hb. destruct (remaining !! b) as [c|] eqn:Eb.
    2:{ apply lookup_ge_None in Eb. unfold len in *. lia. }
    rewrite (drop_S _ _ _ Eb). case_bool_decide as Hc.
    - injection Hc as ->. cbn [trimStart]. change (is_ws c_space) with true.
      replace (b + 1)%nat with (S b) by lia.
      apply trimStart_id. rewrite head_lookup, lookup_drop, Nat.add_0_r.
      apply not_space_not_ws; [exact Hs|].
      apply (single_spaced_lookup remaining b c_space Hs Eb). reflexivity.
    - rewrite Nat.add_0_r, <- (drop_S _ _ _ Eb).
      rewrite (drop_S _ _ _ Eb). cbn [trimStart].
      destruct (is_ws c) eqn:Ews; [|reflexivity].
      exfalso. destruct (N.eq_dec c c_space) as [->|Hne]; [congruence|].
      rewrite (proj1 (single_spaced_lookup remaining b c Hs Eb) Hne) in Ews.
      discriminate. }
  assert (forall b : nat, (1 <= b <= Z.to_nat width)%nat ->
            remaining !! (b - 1)%nat <> Some c_space ->
            let line := trimEnd (take b remaining) in
            let skip :=
              if bool_decide (remaining !! length line = Some c_space) then 1%nat else O in
            take (length line) remaining = line
            /\ trimStart (drop b remaining) = drop (length line + skip) remaining
            /\ (length line + skip <= length remaining)%nat) as Hmain.
  { intros b Hb Hprev. cbv zeta. rewrite (Hkeep b Hb Hprev).
    assert (length (take b remaining) = b) as Hlb
      by (rewrite length_take; unfold len in *; lia).
    rewrite Hlb. split; [reflexivity|]. split; [apply Hrest; lia|].
    case_bool_decide as Hc; [|unfold len in *; lia].
    apply lookup_lt_Some in Hc. lia. }
  cbv zeta. rewrite slice_prefix by lia. rewrite slice_from_drop by lia.
  unfold breakPoint in *.
  destruct (lastIndexOf_space remaining width Hw Hlen) as [[Hk Hno] | (Hk & Hat & Hno)].
  - rewrite Hk in *. cbn [Z.eqb orb] in *.
    apply Hmain; [lia|]. apply Hno. lia.
  - destruct (Z.eqb_spec (lastIndexOf remaining c_space width) (-1)) as [|_]; [lia|].
    cbn [orb] in *.
    destruct (Z.eqb_spec (lastIndexOf remaining c_space width) 0) as [H0|Hpos].
    + rewrite H0 in *. change (Z.to_nat 0) with O in *.
      destruct (Z.eq_dec width 1) as [->|Hw2].
      * change (Z.to_nat 1) with 1%nat in *.
        destruct remaining as [|c0 rem']; [discriminate|]. injection Hat as ->.
        cbn [take trimEnd]. change (is_ws c_space) with true. cbn [length].
        rewrite bool_decide_true by reflexivity.
        split; [reflexivity|]. split; [|simpl; lia].
        rewrite (Hrest 1%nat ltac:(lia)).
        rewrite bool_decide_false by (apply Hno; lia). reflexivity.
      * apply Hmain; [lia|]. apply Hno. lia.
    + apply Hmain; [lia|].
      intros Hprev.
      apply (single_spaced_lookup remaining _ c_space Hs Hprev); [reflexivity|].
      replace (S (Z.to_nat (lastIndexOf remaining c_space width) - 1))
        with (Z.to_nat (lastIndexOf remaining c_space width)) by lia.
      exact Hat.
Qed.

Lemma displayed_window (segments : list LineSegment) (p : nat) (L : str) :
  concat (map seg_text (line_parts segments 0 (Z.of_nat p) (Z.of_nat p + len L)))
  = take (length L) (drop p (concat (map seg_text segments))).
Proof.
  rewrite line_parts_text. unfold len. f_equal; [lia|f_equal; lia].
Qed.

Lemma wrapped_lines_sync (segments : list LineSegment) (width : Z) :
  1 <= width ->
  single_spaced (concat (map seg_text segments)) = true ->
  forall (room p : nat) (wrapped : list str) (lineNumber : Z),
    (p <= length (concat (map seg_text segments)))%nat ->
    wordWrap_loop room (drop p (concat (map seg_text segments))) width = Ret wrapped ->
    map displayed
      (wrapped_lines segments (concat (map seg_text segments)) wrapped
         (Z.of_nat p) lineNumber)
    = List.filter nonempty_line wrapped.
Proof.
  intros Hw Hs. set (full := concat (map seg_text segments)) in *.
  induction room as [|room IH]; intros p wrapped lineNumber Hp H.
  { rewrite wordWrap_loop_O in H. destruct (len (drop p full) >? 0); [discriminate|].
    injection H as <-. reflexivity. }
  cbn [wordWrap_loop] in H. set (remaining := drop p full) in *.
  destruct (Z.gtb_spec (len remaining) 0) as [Hpos|_]; [|injection H as <-; reflexivity].
  destruct (Z.leb_spec (len remaining) width) as [Hshort|Hlong].
  - injection H as <-. cbn [wrapped_lines].
    pose proof (displayed_window segments p remaining) as Hd. fold full in Hd.
    fold remaining in Hd. rewrite firstn_all in Hd.
    assert (remaining <> []) as Hne.
    { intros E. rewrite E in Hpos. unfold len in Hpos. simpl in Hpos. lia. }
    destruct (line_parts segments 0 (Z.of_nat p) (Z.of_nat p + len remaining))
      as [|first more] eqn:Ep.
    + simpl in Hd. congruence.
    + cbn [map]. unfold displayed at 1. cbn [line_segments]. rewrite Hd.
      destruct remaining; [congruence|]. reflexivity.
  - destruct (wordWrap_loop room _ width) as [rest|] eqn:Er; try discriminate.
    cbn [bind] in H. injection H as <-.
    destruct (wrap_round remaining width Hw Hlong (single_spaced_drop p full Hs))
      as (Hline & Hrest & Hfit).
    remember (trimEnd (slice remaining 0 (breakPoint remaining width))) as line eqn:Hdef.
    clear Hdef. rewrite Hrest in Er. unfold remaining in Er. rewrite drop_drop in Er.
    cbn [wrapped_lines].
    pose proof (displayed_window segments p line) as Hd. fold full in Hd.
    fold remaining in Hd. rewrite Hline in Hd.
    assert ((if (Z.of_nat p + len line <? len full)
                && bool_decide (charAt full (Z.of_nat p + len line) = Some c_space)
             then Z.of_nat p + len line + 1 else Z.of_nat p + len line)
            = Z.of_nat (p + (length line
                             + if bool_decide (remaining !! length line = Some c_space)
                               then 1 else 0))) as ->.
    { unfold charAt. destruct (Z.ltb_spec (Z.of_nat p + len line) 0);
        [unfold len in *; lia|].
      replace (Z.to_nat (Z.of_nat p + len line)) with (p + length line)%nat
        by (unfold len; lia).
      unfold remaining. rewrite lookup_drop.
      destruct (full !! (p + length line)%nat) as [c|] eqn:Ec.
      - apply lookup_lt_Some in Ec as Hlt.
        destruct (Z.ltb_spec (Z.of_nat p + len line) (len full));
          [|unfold len in *; lia]. cbn [andb].
        unfold len. destruct (bool_decide (Some c = Some c_space)); lia.
      - rewrite andb_false_r. rewrite bool_decide_false by discriminate.
        cbv iota. unfold len. lia. }
    assert (length remaining = (length full - p)%nat) as Hlr
      by (unfold remaining; apply length_drop).
    pose proof (line_parts_lengths segments 0 (Z.of_nat p) (Z.of_nat p + len line)) as Hl.
    destruct (line_parts segments 0 (Z.of_nat p) (Z.of_nat p + len line))
      as [|first more] eqn:Ep.
    + simpl in Hd. subst line. cbn [List.filter nonempty_line].
      apply IH; [simpl in *; lia|exact Er].
    + assert (line <> []) as Hne.
      { rewrite <- Hd. apply Forall_cons in Hl as [[_ Hfirst] _].
        cbn [map concat]. destruct (seg_text first); [congruence|discriminate]. }
      cbn [map]. unfold displayed at 1. cbn [line_segments]. rewrite Hd.
      assert (List.filter nonempty_line (line :: rest)
              = line :: List.filter nonempty_line rest) as ->.
      { destruct line; [congruence|reflexivity]. }
      f_equal. apply IH; [lia|exact Er].
Qed.

(** X23. On a text whose white space is single spaces the screen shows
    what [wordWrap] made: for a width of at least 1 the lines of
    [wordWrapSegments] display, in order, exactly the lines that
    [wordWrap] returns for the concatenated text, the empty ones left
    out. *)
Theorem wordWrapSegments_displays_wrapped_lines
    (segments : list LineSegment) (width : Z) :
  1 <= width ->
  single_spaced (concat (map seg_text segments)) = true ->
  concat (map seg_text segments) <> [] ->
  exists wrapped lines,
    wordWrap (concat (map seg_text segments)) width = Ret wrapped
    /\ wordWrapSegments segments width = Ret lines
    /\ map displayed lines = List.filter nonempty_line wrapped.
Proof.
  intros Hw Hs Hne. set (full := concat (map seg_text segments)) in *.
  destruct (wordWrap_total full width Hw) as (wrapped & Hret & _).
  exists wrapped. unfold wordWrapSegments. fold full.
  destruct (Z.eqb_spec (len full) 0) as [H0|_].
  { apply len_nil_inv in H0. congruence. }
  rewrite Hret. cbn [bind]. eexists. split; [reflexivity|]. split; [reflexivity|].
  unfold wordWrap in Hret.
  destruct (Z.leb_spec (len full) width) as [Hshort|Hlong].
  - injection Hret as <-. cbn [wrapped_lines].
    pose proof (displayed_window segments 0 full) as Hd. fold full in Hd.
    rewrite drop_0, firstn_all in Hd. change (Z.of_nat 0) with 0 in Hd.
    destruct (line_parts segments 0 0 (0 + len full)) as [|first more].
    + simpl in Hd. congruence.
    + cbn [map]. unfold displayed at 1. cbn [line_segments]. rewrite Hd.
      destruct full; [congruence|]. reflexivity.
  - apply (wrapped_lines_sync segments width Hw Hs (3 + length full) 0 wrapped 1);
      [lia|]. rewrite drop_0. exact Hret.
Qed.

Lemma wordWrapSegments_displays_wrapped_lines_witness :
  1 <= 9
  /\ single_spaced
       (concat (map seg_text (parseInline (lit "aaaa **bbbb** cccc") 0 no_style))) = true
  /\ exists wrapped lines,
       wordWrap (concat (map seg_text
                           (parseInline (lit "aaaa **bbbb** cccc") 0 no_style))) 9
       = Ret wrapped
       /\ wordWrapSegments (parseInline (lit "aaaa **bbbb** cccc") 0 no_style) 9
          = Ret lines
       /\ map displayed lines = List.filter nonempty_line wrapped.
Proof.
  split; [lia|]. split; [reflexivity|].
  apply (wordWrapSegments_displays_wrapped_lines
           (parseInline (lit "aaaa **bbbb** cccc") 0 no_style) 9
           ltac:(lia) eq_refl ltac:(discriminate)).
Defined.

(** Where two spaces stand at a break the windows slip: "aaaa  bbbb" at
    width 5 wraps into "aaaa" and "bbbb", and the second line displays
    " bbb". *)
Lemma wordWrapSegments_double_space_slips :
  wordWrap (lit "aaaa  bbbb") 5 = Ret [lit "aaaa"; lit "bbbb"]
  /\ exists lines,
       wordWrapSegments [mkSegment (lit "aaaa  bbbb") 0 10 no_style] 5 = Ret lines
       /\ map displayed lines = [lit "aaaa"; lit " bbb"].
Proof.
  split; [vm_compute; reflexivity|].
  eexists. split; [vm_compute; reflexivity|]. vm_compute. reflexivity.
Qed.

(** ** Lines that fit the terminal *)

Lemma place_fits (offsets : list Z) (w row col : Z) :
  col + Z.of_nat (length offsets) <= w + 1 ->
  place offsets w row col
  = (row_cells row col offsets, row, col + Z.of_nat (length offsets)).
Proof.
  revert col. induction offsets as [|o os IH]; intros col H.
  - simpl. f_equal. lia.
  - cbn [place row_cells length] in *.
    destruct (Z.gtb_spec col w) as [|_]; [lia|].
    rewrite IH by lia. f_equal. lia.
Qed.

Lemma length_characters (segments : list LineSegment) :
  Z.of_nat (length (characters segments)) = len (concat (map seg_text segments)).
Proof.
  rewrite <- (characters_text segments). unfold len. rewrite length_map. reflexivity.
Qed.

(** X24. Lines that fit take one terminal row each: when the indent and the
    displayed text of every line fit the terminal width, the position map
    gives character [j] of the [i]-th line the cell at row
    [startRow + i] and column [1 + indent + j]; nothing is wrapped. *)
Theorem buildPositionMap_one_row_per_line
    (lines : list RenderedLine) (startRow terminalWidth : Z) :
  Forall (fits terminalWidth) lines ->
  buildPositionMap lines startRow terminalWidth = grid lines startRow.
Proof.
  intros H. revert startRow. induction H as [|line rest Hfit _ IH]; intros startRow;
    [reflexivity|].
  cbn [buildPositionMap grid]. rewrite map_segments_place, place_fits.
  - rewrite IH. reflexivity.
  - rewrite length_map, length_characters. unfold fits, displayed in Hfit. lia.
Qed.

Lemma place_columns (offsets : list Z) (w row col : Z) :
  1 <= w -> 1 <= col ->
  let '(entries, rowN, colN) := place offsets w row col in
  Forall (fun p => 1 <= pm_terminalCol p <= w) entries /\ 1 <= colN.
Proof.
  intros Hw. revert row col. induction offsets as [|o os IH]; intros row col Hc.
  - simpl. split; [constructor|lia].
  - cbn [place]. destruct (Z.gtb_spec col w) as [Hgt|Hle].
    + specialize (IH (row + 1) (1 + 1) ltac:(lia)).
      destruct (place os w (row + 1) (1 + 1)) as [[more rowN] colN].
      destruct IH as [Hall HcN]. split; [|exact HcN].
      constructor; [simpl; lia|exact Hall].
    + specialize (IH row (col + 1) ltac:(lia)).
      destruct (place os w row (col + 1)) as [[more rowN] colN].
      destruct IH as [Hall HcN]. split; [|exact HcN].
      constructor; [simpl; lia|exact Hall].
Qed.

(** X25. No entry of the position map lies off the screen to the right or
    above the start: for a width of at least 1 and lines that are not
    indented to the left of the first column, every entry has a column
    between 1 and the terminal width and a row from the start row on. *)
Theorem buildPositionMap_within_width
    (lines : list RenderedLine) (startRow terminalWidth : Z) :
  1 <= terminalWidth ->
  Forall (fun line => 0 <= line_indent line) lines ->
  Forall (fun p => 1 <= pm_terminalCol p <= terminalWidth
                   /\ startRow <= pm_terminalRow p)
    (buildPositionMap lines startRow terminalWidth).
Proof.
  intros Hw Hind.
  pose proof (buildPositionMap_sorted_from lines startRow terminalWidth) as [_ Hrows].
  assert (Forall (fun p => 1 <= pm_terminalCol p <= terminalWidth)
            (buildPositionMap lines startRow terminalWidth)) as Hcols.
  { clear Hrows. revert startRow.
    induction Hind as [|line rest Hi _ IH]; intros startRow; [constructor|].
    cbn [buildPositionMap]. rewrite map_segments_place.
    pose proof (place_columns (map snd (characters (line_segments line)))
                  terminalWidth startRow (1 + line_indent line) Hw ltac:(lia)) as Hp.
    destruct (place _ terminalWidth startRow (1 + line_indent line)) as [[here row1] col1].
    destruct Hp as [Hhere _]. apply Forall_app. split; [exact Hhere|apply IH]. }
  rewrite Forall_forall in Hrows. rewrite Forall_forall in Hcols.
  apply Forall_forall. intros p Hp. split; [apply Hcols, Hp|apply Hrows, Hp].
Qed.

Lemma terminalToOffset_sorted_entry (l : list PositionMapping) (p : PositionMapping) :
  StronglySorted cell_before l -> In p l ->
  terminalToOffset (pm_terminalCol p) (pm_terminalRow p) l
  = Ret (Some (pm_sourceOffset p)).
Proof.
  intros Hs Hin. unfold terminalToOffset. rewrite (find_sorted l p Hs Hin). reflexivity.
Qed.

(** X26. A press and a drag on displayed characters select what lies
    between them: with the position map of the lines, a press on the cell
    of one entry, a move to the cell of another with a different offset
    and a release leave the range between the two offsets, smaller end
    first, selecting off, and the callback invoked twice with that
    range, once for the move and once for the release. *)
Theorem drag_between_characters
    (opts : Options) (lines : list RenderedLine) (startRow terminalWidth : Z)
    (p q : PositionMapping) (press move release : MouseEvent) :
  opt_enabled opts = true -> opt_onSelectionChange opts = true ->
  opt_positionMap opts = buildPositionMap lines startRow terminalWidth ->
  In p (opt_positionMap opts) -> In q (opt_positionMap opts) ->
  pm_sourceOffset p <> pm_sourceOffset q ->
  is_press press -> is_move move -> is_release release ->
  ev_x press - opt_startCol opts = pm_terminalCol p ->
  ev_y press + opt_scrollOffset opts = pm_terminalRow p ->
  ev_x move - opt_startCol opts = pm_terminalCol q ->
  ev_y move + opt_scrollOffset opts = pm_terminalRow q ->
  let c := run opts [press; move; release] initial in
  let a := pm_sourceOffset p in
  let b := pm_sourceOffset q in
  selection c = mkSelection false (Some a) (Some b) (Some (Z.min a b)) (Some (Z.max a b))
  /\ mouseDownRef c = false
  /\ exists d,
       notified c = [Some d; Some d]
       /\ ds_startOffset d = Z.min a b /\ ds_endOffset d = Z.max a b
       /\ ds_selectedText d = slice (opt_content opts) (Z.min a b) (Z.max a b).
Proof.
  intros He Hcb Hmap Hp Hq Hne [Hpm Hpp] Hm [Hrm Hrp] Hx1 Hy1 Hx2 Hy2.
  assert (resolve opts press = Ret (Some (pm_sourceOffset p))) as Hr1.
  { unfold resolve. rewrite Hx1, Hy1. rewrite Hmap in *.
    apply terminalToOffset_sorted_entry; [|exact Hp].
    apply (proj1 (buildPositionMap_sorted_from lines startRow terminalWidth)). }
  assert (resolve opts move = Ret (Some (pm_sourceOffset q))) as Hr2.
  { unfold resolve. rewrite Hx2, Hy2. rewrite Hmap in *.
    apply terminalToOffset_sorted_entry; [|exact Hq].
    apply (proj1 (buildPositionMap_sorted_from lines startRow terminalWidth)). }
  set (a := pm_sourceOffset p) in *. set (b := pm_sourceOffset q) in *.
  set (range := mkSelection true (Some a) (Some b) (Some (Z.min a b)) (Some (Z.max a b))).
  assert (dispatch opts initial press
          = mkController (mkSelection true (Some a) (Some a) (Some a) (Some a)) true [])
    as H1.
  { apply (dispatch_press opts He initial press a (conj Hpm Hpp) Hr1). }
  assert (dispatch opts
            (mkController (mkSelection true (Some a) (Some a) (Some a) (Some a)) true [])
            move
          = mkController range true [getSelectionData (opt_content opts) range]) as H2.
  { unfold dispatch, handler, handleMove. rewrite Hm, He, Hr2.
    cbn [negb orb bind mouseDownRef selection sel_anchorOffset notified].
    unfold notify. rewrite Hcb. reflexivity. }
  assert (exists d,
            getSelectionData (opt_content opts) range = Some d
            /\ ds_startOffset d = Z.min a b /\ ds_endOffset d = Z.max a b
            /\ ds_selectedText d = slice (opt_content opts) (Z.min a b) (Z.max a b)
            /\ getSelectionData (opt_content opts)
                 (mkSelection false (Some a) (Some b) (Some (Z.min a b))
                    (Some (Z.max a b))) = Some d)
    as (d & Hd & Hds & Hde & Hdt & Hd').
  { unfold getSelectionData. cbn [sel_startOffset sel_endOffset range].
    destruct (Z.eqb_spec (Z.min a b) (Z.max a b)) as [Heq|_]; [lia|].
    eexists. split; [reflexivity|]. cbn. repeat split. }
  cbv zeta. unfold run. cbn [fold_left]. rewrite H1, H2, Hd.
  unfold dispatch, handler, handleRelease. rewrite Hrm, Hrp, He.
  cbn [negb selection sel_anchorOffset sel_focusOffset sel_startOffset sel_endOffset
       mouseDownRef notified range].
  rewrite Hd', Hds, Hde.
  destruct (Z.eqb_spec (Z.min a b) (Z.max a b)) as [Heq|_]; [lia|].
  cbn [negb]. unfold notify. rewrite Hcb. cbn [app].
  split; [reflexivity|]. split; [reflexivity|].
  exists d. repeat split; assumption.
Qed.

Lemma buildPositionMap_one_row_per_line_witness :
  Forall (fits 3)
    [mkLine 1 0 3 [mkSegment (lit "abc") 0 3 no_style] 0 false;
     mkLine 2 4 2 [mkSegment (lit "de") 4 2 no_style] 1 false]
  /\ buildPositionMap
       [mkLine 1 0 3 [mkSegment (lit "abc") 0 3 no_style] 0 false;
        mkLine 2 4 2 [mkSegment (lit "de") 4 2 no_style] 1 false] 5 3
     = grid [mkLine 1 0 3 [mkSegment (lit "abc") 0 3 no_style] 0 false;
             mkLine 2 4 2 [mkSegment (lit "de") 4 2 no_style] 1 false] 5.
Proof.
  assert (Forall (fits 3)
            [mkLine 1 0 3 [mkSegment (lit "abc") 0 3 no_style] 0 false;
             mkLine 2 4 2 [mkSegment (lit "de") 4 2 no_style] 1 false]) as H.
  { repeat constructor; vm_compute; discriminate. }
  split; [exact H|].
  apply (buildPositionMap_one_row_per_line
           [mkLine 1 0 3 [mkSegment (lit "abc") 0 3 no_style] 0 false;
            mkLine 2 4 2 [mkSegment (lit "de") 4 2 no_style] 1 false] 5 3 H).
Defined.

Lemma buildPositionMap_within_width_witness :
  1 <= 2
  /\ Forall (fun line => 0 <= line_indent line)
       [mkLine 1 0 3 [mkSegment (lit "abc") 0 3 no_style] 0 false;
        mkLine 2 4 2 [mkSegment (lit "de") 4 2 no_style] 1 false]
  /\ Forall (fun p => 1 <= pm_terminalCol p <= 2 /\ 5 <= pm_terminalRow p)
       (buildPositionMap
          [mkLine 1 0 3 [mkSegment (lit "abc") 0 3 no_style] 0 false;
           mkLine 2 4 2 [mkSegment (lit "de") 4 2 no_style] 1 false] 5 2).
Proof.
  assert (Forall (fun line => 0 <= line_indent line)
            [mkLine 1 0 3 [mkSegment (lit "abc") 0 3 no_style] 0 false;
             mkLine 2 4 2 [mkSegment (lit "de") 4 2 no_style] 1 false]) as H.
  { repeat constructor; simpl; lia. }
  split; [lia|]. split; [exact H|].
  apply (buildPositionMap_within_width
           [mkLine 1 0 3 [mkSegment (lit "abc") 0 3 no_style] 0 false;
            mkLine 2 4 2 [mkSegment (lit "de") 4 2 no_style] 1 false] 5 2
           ltac:(lia) H).
Defined.

Lemma drag_between_characters_witness :
  let lines := [mkLine 1 0 3 [mkSegment (lit "abc") 0 3 no_style] 0 false] in
  let opts := mkOptions true (buildPositionMap lines 1 10) (lit "abc") 0 2 true in
  let press := mkMouseEvent 5 1 true false in
  let move := mkMouseEvent 3 1 true true in
  let release := mkMouseEvent 3 1 false false in
  let c := run opts [press; move; release] initial in
  In (mkPosition 1 3 2) (opt_positionMap opts)
  /\ In (mkPosition 1 1 0) (opt_positionMap opts)
  /\ selection c = mkSelection false (Some 2) (Some 0) (Some 0) (Some 2)
  /\ mouseDownRef c = false
  /\ exists d,
       notified c = [Some d; Some d]
       /\ ds_startOffset d = 0 /\ ds_endOffset d = 2
       /\ ds_selectedText d = slice (lit "abc") 0 2.
Proof.
  cbv zeta. split; [vm_compute; tauto|]. split; [vm_compute; tauto|].
  apply (drag_between_characters
           (mkOptions true
              (buildPositionMap
                 [mkLine 1 0 3 [mkSegment (lit "abc") 0 3 no_style] 0 false] 1 10)
              (lit "abc") 0 2 true)
           [mkLine 1 0 3 [mkSegment (lit "abc") 0 3 no_style] 0 false] 1 10
           (mkPosition 1 3 2) (mkPosition 1 1 0)
           (mkMouseEvent 5 1 true false) (mkMouseEvent 3 1 true true)
           (mkMouseEvent 3 1 false false)
           eq_refl eq_refl eq_refl
           ltac:(vm_compute; tauto) ltac:(vm_compute; tauto) ltac:(discriminate)
           (conj eq_refl eq_refl) eq_refl (conj eq_refl eq_refl)
           eq_refl eq_refl eq_refl eq_refl).
Defined.

(** ** The two overlays together *)

Lemma len_slice_from (text : str) (a : Z) :
  0 <= a <= len text -> len (slice_from text a) = len text - a.
Proof.
  intros Ha. rewrite slice_from_drop by lia. unfold len in *. rewrite length_drop. lia.
Qed.

Lemma diff_parts_lengths (segment : LineSegment) (diffs : list DocumentDiff)
    (textPos : Z) (parts : list LineSegment) (final : Z) :
  ascending diffs ->
  Forall (fun d => diff_endOffset d > seg_sourceOffset segment
                  /\ diff_startOffset d
                     < seg_sourceOffset segment + len (seg_text segment)) diffs ->
  0 <= textPos <= len (seg_text segment) ->
  match diffs with
  | d :: _ => textPos <= Z.max 0 (diff_startOffset d - seg_sourceOffset segment)
  | [] => True
  end ->
  diff_parts segment (seg_sourceOffset segment) diffs textPos = (parts, final) ->
  textPos <= final <= len (seg_text segment)
  /\ Forall (fun s => seg_sourceLength s = len (seg_text s)) parts.
Proof.
  set (text := seg_text segment). set (off := seg_sourceOffset segment).
  revert textPos parts final.
  induction diffs as [|d rest IH]; intros textPos parts final Hasc Hover Hpos Hfirst H.
  - injection H as <- <-. split; [lia|constructor].
  - cbn [diff_parts] in H. fold text off in H.
    set (a := Z.max 0 (diff_startOffset d - off)) in *.
    set (b := Z.min (len text) (diff_endOffset d - off)) in *.
    destruct Hasc as [Hwf Hs].
    apply Forall_cons in Hwf as [Hd Hwf]. apply Forall_cons in Hover as [[Hdo Hdi] Hover].
    fold text off in Hdo, Hdi.
    apply StronglySorted_inv in Hs as [Hs Hnext].
    assert (0 <= b <= len text) as Hb by lia.
    assert (a <= b) as Hab by lia.
    destruct (diff_parts segment off rest b) as [more final'] eqn:Er.
    injection H as <- <-.
    destruct (IH b more final' (conj Hwf Hs) Hover Hb) as (Hfin & Hmore); [|exact Er|].
    { destruct rest as [|d' rest]; [exact I|].
      apply Forall_cons in Hnext as [Hdd' _]. lia. }
    split; [lia|].
    apply Forall_app. split; [|apply Forall_app; split; [|exact Hmore]].
    + destruct (Z.gtb_spec a textPos); [|constructor].
      constructor; [|constructor]. cbn. rewrite len_slice_in_range by lia. reflexivity.
    + destruct (Z.gtb_spec b a); [|constructor].
      constructor; [|constructor]. cbn. rewrite len_slice_in_range by lia. reflexivity.
Qed.

Lemma applyDiffs_lengths (segments : list LineSegment) (diffs : list DocumentDiff) :
  ascending diffs ->
  Forall (fun s => seg_sourceLength s = len (seg_text s)) segments ->
  Forall (fun s => seg_sourceLength s = len (seg_text s)) (applyDiffs segments diffs).
Proof.
  intros Hasc Hall. unfold applyDiffs. destruct diffs as [|d0 diffs0]; [exact Hall|].
  set (diffs := d0 :: diffs0) in *.
  induction Hall as [|segment rest Hlen _ IH]; [constructor|].
  cbn [map concat]. apply Forall_app. split; [|exact IH].
  unfold applyDiffs_segment. rewrite Hlen.
  set (off := seg_sourceOffset segment). set (text := seg_text segment).
  pose proof (ascending_filter (overlaps off (off + len text)) diffs Hasc) as Hfasc.
  assert (Forall (fun d => diff_endOffset d > off /\ diff_startOffset d < off + len text)
            (List.filter (overlaps off (off + len text)) diffs)) as Hover.
  { apply Forall_forall. intros d Hd. apply list_elem_of_In, filter_In in Hd as [_ Hd].
    unfold overlaps in Hd. apply andb_true_iff in Hd as [Hd1 Hd2]. lia. }
  destruct (List.filter _ diffs) as [|d1 overlapping] eqn:Ef.
  { constructor; [exact Hlen|constructor]. }
  rewrite (ascending_sorted _ Hfasc).
  pose proof (len_nonneg text) as Hl.
  destruct (diff_parts segment off (d1 :: overlapping) 0) as [parts textPos] eqn:Ep.
  destruct (diff_parts_lengths segment (d1 :: overlapping) 0 parts textPos
              Hfasc Hover) as (Hfin & Hparts);
    [fold text; lia|apply Z.le_max_l|exact Ep|].
  fold text in Hfin.
  apply Forall_app. split; [exact Hparts|].
  destruct (Z.ltb_spec textPos (len text)); [|constructor].
  constructor; [|constructor]. cbn. fold text. rewrite len_slice_from by lia. reflexivity.
Qed.

(** X27. What [MarkdownRenderer] displays of a line: for diff ranges that
    are well formed and come one after the other, and segments that span
    as many source characters as they display, the characters and their
    offsets are those of the line; a character in a diff range has the
    style of that diff, a character in the selection has the selection
    style on top, and the style of every other character is as it was. *)
Theorem overlaid_line_styles
    (line : RenderedLine) (diffs : list DocumentDiff) (selectionStart selectionEnd : Z) :
  ascending diffs ->
  Forall (fun s => seg_sourceLength s = len (seg_text s)) (line_segments line) ->
  styled_characters
    (line_segments (overlaid diffs (Some selectionStart) (Some selectionEnd) line))
  = map (highlight (Z.min selectionStart selectionEnd)
           (Z.max selectionStart selectionEnd))
      (map (diff_mark diffs) (styled_characters (line_segments line))).
Proof.
  intros Hasc Hlen. cbn [overlaid line_segments].
  rewrite (applySelection_styled (applyDiffs (line_segments line) diffs)
             selectionStart selectionEnd (applyDiffs_lengths _ _ Hasc Hlen)).
  rewrite (applyDiffs_styled (line_segments line) diffs Hasc Hlen). reflexivity.
Qed.

Lemma overlaid_line_styles_witness :
  ascending [mkDiff 1 2 d_delete; mkDiff 2 5 d_add]
  /\ styled_characters
       (line_segments
          (overlaid [mkDiff 1 2 d_delete; mkDiff 2 5 d_add] (Some 4) (Some 0)
             (mkLine 1 0 6
                [mkSegment (lit "abc") 0 3 no_style;
                 mkSegment (lit "def") 3 3 MARKDOWN_STYLES.bold] 0 false)))
     = map (highlight (Z.min 4 0) (Z.max 4 0))
         (map (diff_mark [mkDiff 1 2 d_delete; mkDiff 2 5 d_add])
            (styled_characters
               (line_segments
                  (mkLine 1 0 6
                     [mkSegment (lit "abc") 0 3 no_style;
                      mkSegment (lit "def") 3 3 MARKDOWN_STYLES.bold] 0 false)))).
Proof.
  assert (ascending [mkDiff 1 2 d_delete; mkDiff 2 5 d_add]) as Ha.
  { split; repeat constructor; simpl; lia. }
  split; [exact Ha|].
  apply (overlaid_line_styles
           (mkLine 1 0 6
              [mkSegment (lit "abc") 0 3 no_style;
               mkSegment (lit "def") 3 3 MARKDOWN_STYLES.bold] 0 false)
           [mkDiff 1 2 d_delete; mkDiff 2 5 d_add] 4 0 Ha
           ltac:(repeat constructor)).
Defined.

(** ** Rendered lines and the terminal width *)

Lemma wordWrapSegments_fits (segments : list LineSegment) (width : Z)
    (lines : list RenderedLine) :
  1 <= width -> wordWrapSegments segments width = Ret lines ->
  Forall (fun l => line_indent l = 0 /\ len (displayed l) <= width) lines.
Proof.
  intros Hw H. unfold wordWrapSegments in H.
  destruct (len (concat (map seg_text segments)) =? 0).
  - injection H as <-. repeat constructor. unfold displayed, len. simpl. lia.
  - destruct (wordWrap_total (concat (map seg_text segments)) width Hw)
      as (wrapped & Hret & Hshort).
    rewrite Hret in H. cbn [bind] in H. injection H as <-.
    destruct (wrapped_lines_shape segments (concat (map seg_text segments)) wrapped
                width 0 1 ltac:(lia) Hshort) as (_ & _ & Hf).
    pose proof (wrapped_lines_flush segments (concat (map seg_text segments)) wrapped 0 1)
      as Hfl.
    rewrite Forall_forall in Hf. rewrite Forall_forall in Hfl.
    apply Forall_forall. intros l Hl.
    split; [apply (Hfl l Hl)|apply (Hf l Hl)].
Qed.

Lemma renumber_fits (w : Z) (patch : RenderedLine -> RenderedLine)
    (wrapped : list RenderedLine) (lineNumber : Z) :
  Forall (fun wl => fits w (patch wl)) wrapped ->
  Forall (fits w) (fst (renumber patch wrapped lineNumber)).
Proof.
  intros H. revert lineNumber. induction H as [|wl rest Hwl _ IH]; intros lineNumber.
  - constructor.
  - cbn [renumber]. specialize (IH (lineNumber + 1)).
    destruct (renumber patch rest (lineNumber + 1)) as [rest' final].
    cbn [fst] in *. constructor; [exact Hwl|exact IH].
Qed.

Lemma set_span_fits (w width offset length : Z) (wrapped : list RenderedLine) :
  width <= w ->
  Forall (fun l => line_indent l = 0 /\ len (displayed l) <= width) wrapped ->
  Forall (fun wl => fits w (set_span offset length wl)) wrapped.
Proof.
  intros Hw H. eapply Forall_impl; [exact H|]. intros wl [_ Hd].
  unfold fits, displayed in *. cbn [set_span line_indent line_segments]. lia.
Qed.

Lemma render_quote_fits (quoteLines : list str) (w offset lineNumber : Z)
    (lines : list RenderedLine) (final : Z) :
  3 <= w ->
  render_quote quoteLines w offset lineNumber = Ret (lines, final) ->
  Forall (fits w) lines.
Proof.
  intros Hw. revert offset lineNumber lines final.
  induction quoteLines as [|q rest IH]; intros offset lineNumber lines final H.
  - injection H as <- <-. constructor.
  - cbn [render_quote] in H.
    destruct (wordWrapSegments _ (w - 2)) as [wrapped|] eqn:Ew; try discriminate.
    cbn [bind] in H.
    pose proof (renumber_fits w (set_span offset (len q)) wrapped lineNumber
                  (set_span_fits w (w - 2) _ _ _ ltac:(lia)
                     (wordWrapSegments_fits _ (w - 2) _ ltac:(lia) Ew))) as Hr.
    destruct (renumber _ wrapped lineNumber) as [here ln'].
    destruct (render_quote rest w _ ln') as [[more fin]|] eqn:Er; try discriminate.
    cbn [bind] in H. injection H as <- <-.
    apply Forall_app. split; [exact Hr|apply (IH _ _ _ _ Er)].
Qed.

Lemma render_list_fits (ordered : bool) (listLines : list str)
    (w offset itemNum lineNumber : Z) (lines : list RenderedLine) (final : Z) :
  3 <= w ->
  render_list ordered listLines w offset itemNum lineNumber = Ret (lines, final) ->
  Forall (fits w) lines.
Proof.
  intros Hw. revert offset itemNum lineNumber lines final.
  induction listLines as [|q rest IH]; intros offset itemNum lineNumber lines final H.
  - injection H as <- <-. constructor.
  - cbn [render_list] in H. destruct (is_blank q); [apply (IH _ _ _ _ _ H)|].
    destruct (wordWrapSegments _ (w - 2)) as [wrapped|] eqn:Ew; try discriminate.
    cbn [bind] in H.
    pose proof (renumber_fits w (set_span offset (len q)) wrapped lineNumber
                  (set_span_fits w (w - 2) _ _ _ ltac:(lia)
                     (wordWrapSegments_fits _ (w - 2) _ ltac:(lia) Ew))) as Hr.
    destruct (renumber _ wrapped lineNumber) as [here ln'].
    destruct (render_list ordered rest w _ _ ln') as [[more fin]|] eqn:Er;
      try discriminate.
    cbn [bind] in H. injection H as <- <-.
    apply Forall_app. split; [exact Hr|apply (IH _ _ _ _ _ Er)].
Qed.

Lemma renderBlock_fits (block : Block) (w lineNumber : Z)
    (lines : list RenderedLine) (final : Z) :
  3 <= w -> blk_type block <> codeBlock ->
  renderBlock block w lineNumber = Ret (lines, final) ->
  Forall (fits w) lines.
Proof.
  intros Hw Hcode. unfold renderBlock. destruct (blk_type block); try congruence.
  - destruct (wordWrapSegments _ w) as [wrapped|] eqn:Ew; try discriminate.
    cbn [bind]. intros [= H].
    pose proof (renumber_fits w (fun wl => wl) wrapped lineNumber) as Hr.
    rewrite H in Hr. apply Hr.
    eapply Forall_impl; [apply (wordWrapSegments_fits _ w _ ltac:(lia) Ew)|].
    intros l [Hi Hd]. unfold fits. lia.
  - destruct (wordWrapSegments _ w) as [wrapped|] eqn:Ew; try discriminate.
    cbn [bind]. intros [= H].
    pose proof (renumber_fits w (fun wl => wl) wrapped lineNumber) as Hr.
    rewrite H in Hr. apply Hr.
    eapply Forall_impl; [apply (wordWrapSegments_fits _ w _ ltac:(lia) Ew)|].
    intros l [Hi Hd]. unfold fits. lia.
  - apply render_list_fits, Hw.
  - apply render_quote_fits, Hw.
  - unfold repeat_char.
    destruct (Z.ltb_spec (Z.min (w - 4) 60) 0); [discriminate|].
    cbn [bind]. intros [= <- <-]. constructor; [|constructor].
    unfold fits, displayed, len. cbn. rewrite app_nil_r, length_replicate. lia.
  - intros [= <- <-]. constructor; [|constructor].
    unfold fits, displayed, len. cbn. lia.
Qed.

(** X28. Outside code blocks nothing is wider than the terminal: for a
    terminal width of at least 3 and blocks none of which is a code
    block, every line that [renderBlocks] returns, with its indent,
    displays at most [terminalWidth] characters. *)
Theorem renderBlocks_lines_fit (blocks : list Block) (terminalWidth : Z)
    (lines : list RenderedLine) :
  3 <= terminalWidth ->
  Forall (fun b => blk_type b <> codeBlock) blocks ->
  renderBlocks blocks terminalWidth = Ret lines ->
  Forall (fits terminalWidth) lines.
Proof.
  intros Hw Hcode. unfold renderBlocks. generalize 1 as lineNumber.
  revert lines. induction Hcode as [|b rest Hb _ IH]; intros lines lineNumber H.
  - injection H as <-. constructor.
  - cbn [renderBlocks_from] in H.
    destruct (renderBlock b terminalWidth lineNumber) as [[here ln']|] eqn:Eb;
      try discriminate.
    cbn [bind] in H.
    destruct (renderBlocks_from rest terminalWidth ln') as [more|] eqn:Er;
      try discriminate.
    cbn [bind] in H. injection H as <-.
    apply Forall_app. split; [apply (renderBlock_fits _ _ _ _ _ Hw Hb Eb)|].
    apply (IH _ _ Er).
Qed.

Lemma renderBlocks_lines_fit_witness :
  3 <= 20
  /\ Forall (fun b => blk_type b <> codeBlock) (parseBlocks sample_document)
  /\ exists lines,
       renderBlocks (parseBlocks sample_document) 20 = Ret lines
       /\ Forall (fits 20) lines.
Proof.
  assert (Forall (fun b => blk_type b <> codeBlock) (parseBlocks sample_document)) as H.
  { vm_compute. repeat constructor; discriminate. }
  split; [lia|]. split; [exact H|].
  eexists. split; [vm_compute; reflexivity|].
  apply (renderBlocks_lines_fit (parseBlocks sample_document) 20 _ ltac:(lia) H).
  vm_compute. reflexivity.
Defined.

(** ** The inline parser drops markup only *)



(** ** The fields of the blocks *)

Lemma split_nl_no_newline (s : str) : Forall (fun l => ~ In c_nl l) (split_nl s).
Proof.
  induction s as [|c s IH]; [repeat constructor; intros []|].
  cbn [split_nl]. destruct (N.eqb_spec c c_nl) as [->|Hne].
  - constructor; [intros []|exact IH].
  - pose proof (split_nl_nonempty s) as Hnil.
    destruct (split_nl s) as [|l ls]; [congruence|].
    apply Forall_cons in IH as [Hl Hls]. constructor; [|exact Hls].
    intros [H | H]; [congruence|exact (Hl H)].
Qed.

Lemma headingMatch_level (line : str) (k : Z) :
  headingMatch line = Some k ->
  1 <= k <= 4 /\ k = Z.of_nat (run_length is_hash line).
Proof.
  unfold headingMatch.
  destruct (Nat.leb_spec 1 (run_length is_hash line)); [|discriminate].
  destruct (Nat.leb_spec (run_length is_hash line) 4); [|discriminate].
  cbn [andb]. destruct (_ && _); [|discriminate].
  intros [= <-]. lia.
Qed.

Lemma parseBlocks_loop_well_formed (fuel : nat) (lines : list str) (offset : Z) :
  Forall (fun l => ~ In c_nl l) lines ->
  Forall well_formed_block (parseBlocks_loop fuel lines offset).
Proof.
  revert lines offset. induction fuel as [|fuel IH]; intros lines offset Hl; [constructor|].
  destruct lines as [|line rest]; [constructor|].
  apply Forall_cons in Hl as [Hline Hrest].
  assert (forall (p : str -> bool) a b, span p rest = (a, b) ->
            Forall (fun l => ~ In c_nl l) b) as Hspan.
  { intros p a b E. apply span_app in E. subst rest.
    apply Forall_app in Hrest as [_ Hb]. exact Hb. }
  cbn [parseBlocks_loop].
  destruct (is_blank line).
  { constructor; [|apply IH, Hrest]. repeat split; assumption. }
  destruct (headingMatch line) as [level|] eqn:Eh.
  { constructor; [|apply IH, Hrest].
    apply headingMatch_level in Eh as [Hk1 Hk2].
    unfold well_formed_block. cbn. split; [|split; [reflexivity|exact Hline]].
    exists level. split; [reflexivity|]. split; assumption. }
  destruct (is_hr line).
  { constructor; [|apply IH, Hrest]. repeat split; assumption. }
  destruct (startsWith fence line).
  { destruct (span _ rest) as [body rest1] eqn:E. apply Hspan in E.
    destruct rest1 as [|c r]; (constructor; [split; reflexivity|apply IH]);
      [constructor|apply Forall_cons in E as [_ E]; exact E]. }
  destruct (startsWith [c_gt] line).
  { destruct (span _ rest) as [more rest1] eqn:E. apply Hspan in E.
    constructor; [split; reflexivity|apply IH, E]. }
  destruct (starts_unordered line).
  { destruct (span _ rest) as [more rest1] eqn:E. apply Hspan in E.
    constructor; [split; [reflexivity|discriminate]|apply IH, E]. }
  destruct (starts_ordered line).
  { destruct (span _ rest) as [more rest1] eqn:E. apply Hspan in E.
    constructor; [split; [reflexivity|discriminate]|apply IH, E]. }
  destruct (span _ rest) as [more rest1] eqn:E. apply Hspan in E.
  constructor; [split; reflexivity|apply IH, E].
Qed.

(** X30. The fields of every block agree with its type: a heading block is
    a single line and carries a level from 1 to 4, the number of hashes
    its line starts with; a list block says whether it is ordered; a rule
    and a blank block are single lines; no other block carries a level or
    an ordered flag. *)
Theorem parseBlocks_well_formed (content : str) :
  Forall well_formed_block (parseBlocks content).
Proof.
  unfold parseBlocks. apply parseBlocks_loop_well_formed, split_nl_no_newline.
Qed.

